(** * The Linear integration of status.inquiry.institute (src/lib/linear.ts)

    A shallow embedding of the normalisation layer that turns Linear
    project nodes into [Initiative] records: the metadata parser, the state
    mapper, the issue aggregation, the assembler and the read accessors.

    Conventions of the embedding.
    - A JavaScript string is the list of its UTF-16 code units ([str]).
    - A JavaScript number is an exact rational, or NaN, or an infinity
      ([number]); the rounding error of doubles, overflow and the sign of
      zero are outside the model.
    - [null] and [undefined] are [None].
    - A rejected promise is [Rejected], a fulfilled one [Fulfilled].
    - What the engine provides and depends on its Unicode tables and its
      locale ([String.prototype.toLowerCase],
      [String.prototype.localeCompare]) is a [Host]. *)

From Stdlib Require Import String Ascii.
From Stdlib Require Import List NArith ZArith QArith Qround Bool Lia.
From Stdlib Require Import Sorting.Sorted Sorting.Permutation.
Import ListNotations.

Local Open Scope N_scope.
Local Open Scope list_scope.

(** ** Strings *)

Definition str := list N.

(** The code units of an ASCII literal. *)
Definition js (s : string) : str := map N_of_ascii (list_ascii_of_string s).

Fixpoint str_eqb (a b : str) : bool :=
  match a, b with
  | [], [] => true
  | x :: a', y :: b' => (x =? y) && str_eqb a' b'
  | _, _ => false
  end.

Definition inRange (lo hi c : N) : bool := (lo <=? c) && (c <=? hi).

(** [\s], which is also the set [String.prototype.trim] strips:
    WhiteSpace and LineTerminator. *)
Definition isSpace (c : N) : bool :=
  inRange 9 13 c || (c =? 32) || (c =? 160) || (c =? 5760) ||
  inRange 8192 8202 c || (c =? 8232) || (c =? 8233) || (c =? 8239) ||
  (c =? 8287) || (c =? 12288) || (c =? 65279).

Definition isDigit (c : N) : bool := inRange 48 57 c.
Definition isLowerAZ (c : N) : bool := inRange 97 122 c.
Definition isUpperAZ (c : N) : bool := inRange 65 90 c.

(** [\w] *)
Definition isWord (c : N) : bool :=
  isLowerAZ c || isUpperAZ c || isDigit c || (c =? 95).

(** [.] without the s flag: anything but a line terminator. *)
Definition isDot (c : N) : bool :=
  negb ((c =? 10) || (c =? 13) || (c =? 8232) || (c =? 8233)).

(** [[\s\S]] *)
Definition isAny (_ : N) : bool := true.

(** [[a-z0-9]] *)
Definition isSlugChar (c : N) : bool := isLowerAZ c || isDigit c.

Fixpoint trimStart (s : str) : str :=
  match s with
  | c :: s' => if isSpace c then trimStart s' else s
  | [] => []
  end.

Definition trimEnd (s : str) : str := rev (trimStart (rev s)).

(** [String.prototype.trim] *)
Definition trim (s : str) : str := trimEnd (trimStart s).

(** [s.startsWith(p)] *)
Fixpoint startsWith (s p : str) {struct p} : bool :=
  match p, s with
  | [], _ => true
  | x :: p', y :: s' => (x =? y) && startsWith s' p'
  | _ :: _, [] => false
  end.

(** [s.split(sep)] for a separator of one code unit. *)
Fixpoint split (sep : N) (s : str) : list str :=
  match s with
  | [] => [[]]
  | c :: s' =>
      if c =? sep then [] :: split sep s'
      else match split sep s' with
           | l :: ls => (c :: l) :: ls
           | [] => [[c]]
           end
  end.

(** [s.replace(pat, rep)] with a string pattern: the first occurrence only. *)
Fixpoint replaceStr (s pat rep : str) : str :=
  if startsWith s pat then rep ++ skipn (length pat) s
  else match s with
       | [] => []
       | c :: s' => c :: replaceStr s' pat rep
       end.

(** ** Regular expressions

    The fragment of the regular expression language the source uses, with
    the backtracking semantics of the language: greedy and lazy iteration
    of a character class, sequence, alternation, capture groups and the two
    anchors (no flag [m]). *)

Inductive regex : Type :=
| Empty
| Lit (s : str)
| Cls (p : N -> bool)
| Seq (r1 r2 : regex)
| Alt (r1 r2 : regex)
| Star (greedy : bool) (p : N -> bool)
| Grp (i : nat) (r : regex)
| Bol
| Eol.

Fixpoint cat (rs : list regex) : regex :=
  match rs with
  | [] => Empty
  | [r] => r
  | r :: rs' => Seq r (cat rs')
  end.

(** [p+] and [p+?] *)
Definition Plus (greedy : bool) (p : N -> bool) : regex :=
  Seq (Cls p) (Star greedy p).

Definition captures := list (nat * str).

Fixpoint capture (i : nat) (caps : captures) : option str :=
  match caps with
  | [] => None
  | (j, s) :: caps' => if Nat.eqb i j then Some s else capture i caps'
  end.

Section Matcher.
Context {R : Type}.

(** A continuation receives the position reached, the rest of the input
    and the captures so far. *)
Definition cont := nat -> str -> captures -> option R.

Fixpoint starGreedy (p : N -> bool) (pos : nat) (s : str) (caps : captures)
    (k : cont) : option R :=
  match s with
  | c :: s' =>
      if p c then
        match starGreedy p (S pos) s' caps k with
        | Some r => Some r
        | None => k pos s caps
        end
      else k pos s caps
  | [] => k pos s caps
  end.

Fixpoint starLazy (p : N -> bool) (pos : nat) (s : str) (caps : captures)
    (k : cont) : option R :=
  match k pos s caps with
  | Some r => Some r
  | None =>
      match s with
      | c :: s' => if p c then starLazy p (S pos) s' caps k else None
      | [] => None
      end
  end.

Fixpoint rmatch (r : regex) (pos : nat) (s : str) (caps : captures)
    (k : cont) : option R :=
  match r with
  | Empty => k pos s caps
  | Lit l =>
      if startsWith s l then k (pos + length l)%nat (skipn (length l) s) caps
      else None
  | Cls p =>
      match s with
      | c :: s' => if p c then k (S pos) s' caps else None
      | [] => None
      end
  | Seq r1 r2 =>
      rmatch r1 pos s caps (fun pos' s' caps' => rmatch r2 pos' s' caps' k)
  | Alt r1 r2 =>
      match rmatch r1 pos s caps k with
      | Some x => Some x
      | None => rmatch r2 pos s caps k
      end
  | Star true p => starGreedy p pos s caps k
  | Star false p => starLazy p pos s caps k
  | Grp i r1 =>
      rmatch r1 pos s caps
        (fun pos' s' caps' => k pos' s' ((i, firstn (pos' - pos) s) :: caps'))
  | Bol => if Nat.eqb pos 0 then k pos s caps else None
  | Eol => match s with [] => k pos s caps | _ :: _ => None end
  end.
End Matcher.

(** A match: where it starts and ends, the matched text, the input after
    it and the captures. *)
Record MatchResult : Type := mkMatch {
  m_index : nat;
  m_end : nat;
  m_text : str;
  m_rest : str;
  m_caps : captures
}.

Definition matchAt (r : regex) (pos : nat) (s : str) : option MatchResult :=
  rmatch r pos s []
    (fun pos' s' caps => Some (mkMatch pos pos' (firstn (pos' - pos) s) s' caps)).

(** The leftmost match at or after [pos], [s] being the input from [pos]
    on. *)
Fixpoint execFrom (r : regex) (pos : nat) (s : str) : option MatchResult :=
  match matchAt r pos s with
  | Some m => Some m
  | None =>
      match s with
      | [] => None
      | _ :: s' => execFrom r (S pos) s'
      end
  end.

(** [s.match(r)] for a regular expression without the flag [g]. *)
Definition exec (r : regex) (s : str) : option MatchResult := execFrom r 0 s.

(** [s.replace(r, rep)] for a regular expression with the flag [g] and a
    replacement without [$]: every match in turn, an empty match moving on
    by one code unit. [s] is the input from [pos] on; at most
    [length s + 1] matches exist, which is the fuel [replaceAll] gives. *)
Fixpoint replaceLoop (fuel : nat) (r : regex) (rep : str) (pos : nat) (s : str)
    : str :=
  match fuel with
  | O => s
  | S fuel' =>
      match execFrom r pos s with
      | None => s
      | Some m =>
          let before := firstn (m_index m - pos) s in
          if Nat.eqb (m_end m) (m_index m) then
            match m_rest m with
            | [] => before ++ rep
            | c :: rest' =>
                before ++ rep ++ c :: replaceLoop fuel' r rep (S (m_end m)) rest'
            end
          else before ++ rep ++ replaceLoop fuel' r rep (m_end m) (m_rest m)
      end
  end.

Definition replaceAll (r : regex) (rep : str) (s : str) : str :=
  replaceLoop (S (length s)) r rep 0 s.

(** ** Numbers

    The values are exact: a sum, a product or a quotient is not rounded to
    a double, and a literal keeps all its digits and never overflows. Where
    the engine rounds, its value can differ from the one here in the last
    place, and with it the integer [Math.round] makes of it ([0.285 * 100]
    is a little under 28.5 there and rounds to 28, here it is 28.5 and
    rounds to 29). What is proved of such values is what holds of both:
    ranges, integrality, and the sums and quotients of integers. *)

Inductive number : Type :=
| NaN
| PosInf
| NegInf
| Fin (q : Q).

Definition num (z : Z) : number := Fin (inject_Z z).

Definition isZeroQ (q : Q) : bool := (Qnum q =? 0)%Z.
Definition isNegQ (q : Q) : bool := (Qnum q <? 0)%Z.

(** ToBoolean on a number: NaN and zero are falsy. *)
Definition truthyNum (x : number) : bool :=
  match x with
  | NaN => false
  | Fin q => negb (isZeroQ q)
  | PosInf | NegInf => true
  end.

Definition signedInf (negative : bool) : number :=
  if negative then NegInf else PosInf.

(** [x + y] *)
Definition numAdd (x y : number) : number :=
  match x, y with
  | NaN, _ | _, NaN => NaN
  | PosInf, NegInf | NegInf, PosInf => NaN
  | PosInf, _ | _, PosInf => PosInf
  | NegInf, _ | _, NegInf => NegInf
  | Fin a, Fin b => Fin (Qred (a + b))
  end.

(** [x * y] *)
Definition numMul (x y : number) : number :=
  match x, y with
  | NaN, _ | _, NaN => NaN
  | Fin a, Fin b => Fin (Qred (a * b))
  | Fin a, PosInf | PosInf, Fin a =>
      if isZeroQ a then NaN else signedInf (isNegQ a)
  | Fin a, NegInf | NegInf, Fin a =>
      if isZeroQ a then NaN else signedInf (negb (isNegQ a))
  | PosInf, PosInf | NegInf, NegInf => PosInf
  | PosInf, NegInf | NegInf, PosInf => NegInf
  end.

(** [x / y]; a zero divisor is the positive zero. *)
Definition numDiv (x y : number) : number :=
  match x, y with
  | NaN, _ | _, NaN => NaN
  | Fin a, Fin b =>
      if isZeroQ b then (if isZeroQ a then NaN else signedInf (isNegQ a))
      else Fin (Qred (a / b))
  | Fin _, _ => Fin 0
  | PosInf, Fin b => signedInf (isNegQ b)
  | NegInf, Fin b => signedInf (negb (isNegQ b))
  | _, _ => NaN
  end.

(** [Math.round]: the nearest integer, a tie going up. *)
Definition Math_round (x : number) : number :=
  match x with
  | Fin q => num (Qfloor (q + (1 # 2)))
  | _ => x
  end.

(** *** [Number(s)]: StringToNumber *)

Fixpoint span (p : N -> bool) (s : str) : str * str :=
  match s with
  | c :: s' =>
      if p c then let (a, b) := span p s' in (c :: a, b) else ([], s)
  | [] => ([], [])
  end.

Definition digitOf (c : N) : option Z :=
  if isDigit c then Some (Z.of_N (c - 48))
  else if inRange 97 102 c then Some (Z.of_N (c - 87))
  else if inRange 65 70 c then Some (Z.of_N (c - 55))
  else None.

(** The value of [s] read in [base], when [s] is made of digits of that
    base only. *)
Fixpoint readInt (base acc : Z) (s : str) : option Z :=
  match s with
  | [] => Some acc
  | c :: s' =>
      match digitOf c with
      | Some d => if (d <? base)%Z then readInt base (acc * base + d)%Z s' else None
      | None => None
      end
  end.

Definition readDigits (base : Z) (s : str) : option Z :=
  match s with
  | [] => None
  | _ :: _ => readInt base 0 s
  end.

(** [m * 10^k] *)
Definition scale10 (m k : Z) : Q :=
  if (0 <=? k)%Z then inject_Z (m * 10 ^ k)
  else Qred (Qmake m (Z.to_pos (10 ^ (- k)))).

(** NonDecimalIntegerLiteral: 0x, 0o, 0b and their capitals. *)
Definition parseNonDecimal (s : str) : option Z :=
  match s with
  | 48 :: x :: ds =>
      if (x =? 120) || (x =? 88) then readDigits 16 ds
      else if (x =? 111) || (x =? 79) then readDigits 8 ds
      else if (x =? 98) || (x =? 66) then readDigits 2 ds
      else None
  | _ => None
  end.

(** ExponentPart, when there is one: [e] or [E], a sign, digits. *)
Definition parseExponent (s : str) : option Z :=
  match s with
  | [] => Some 0%Z
  | e :: t =>
      if (e =? 101) || (e =? 69) then
        match t with
        | 43 :: ds => readDigits 10 ds
        | 45 :: ds => option_map Z.opp (readDigits 10 ds)
        | _ => readDigits 10 t
        end
      else None
  end.

(** StrDecimalLiteral *)
Definition parseDecimal (s : str) : number :=
  let '(negative, s1) :=
    match s with
    | 43 :: t => (false, t)
    | 45 :: t => (true, t)
    | _ => (false, s)
    end in
  if str_eqb s1 (js "Infinity") then signedInf negative
  else
    let '(ip, s2) := span isDigit s1 in
    let '(fp, s3) :=
      match s2 with
      | 46 :: t => span isDigit t
      | _ => ([], s2)
      end in
    match ip ++ fp with
    | [] => NaN
    | ds =>
        match readInt 10 0 ds, parseExponent s3 with
        | Some m, Some e =>
            Fin (scale10 (if negative then - m else m)
                         (e - Z.of_nat (length fp)))
        | _, _ => NaN
        end
    end.

Definition Number (s : str) : number :=
  let t := trim s in
  match t with
  | [] => num 0
  | _ :: _ =>
      match parseNonDecimal t with
      | Some z => num z
      | None => parseDecimal t
      end
  end.

(** ** Truthiness: the operands of [||] *)

Definition truthyStr (s : option str) : bool :=
  match s with
  | Some (_ :: _) => true
  | _ => false
  end.

(** [a || b] with a string [b] *)
Definition orStr (a : option str) (b : str) : str :=
  match a with
  | Some (c :: s) => c :: s
  | _ => b
  end.

(** [a || null] *)
Definition orNull (a : option str) : option str :=
  if truthyStr a then a else None.

(** [a || d] with a number [d] *)
Definition orNum (a : option number) (d : number) : number :=
  match a with
  | Some x => if truthyNum x then x else d
  | None => d
  end.

(** ** Metadata parsing *)

Module ProjectMeta.
Record t : Type := mk {
  url : option str;
  cost_estimate : option number;
  opencollective_slug : option str;
  opencollective_type : option str;
  subdomain : option str;
  page_path : option str
}.

(** [{}] *)
Definition empty : t := mk None None None None None None.
End ProjectMeta.

(** The text of group [i] of a match. A group that took no part in the
    match is [undefined] in the source; each group read below takes part in
    every match of its expression. *)
Definition group (i : nat) (m : MatchResult) : str :=
  match capture i (m_caps m) with
  | Some s => s
  | None => []
  end.

Definition notCloseBracket (c : N) : bool := negb (c =? 93).
Definition notCloseParen (c : N) : bool := negb (c =? 41).

(** [/^\[([^\]]+)\]\([^)]+\)$/] *)
Definition linkRe : regex :=
  cat [Bol; Lit (js "["); Grp 1 (Plus true notCloseBracket); Lit (js "]");
       Lit (js "("); Plus true notCloseParen; Lit (js ")"); Eol].

(** [/^\[([^\]]+)\]\(.+\)$/] *)
Definition simpleLinkRe : regex :=
  cat [Bol; Lit (js "["); Grp 1 (Plus true notCloseBracket); Lit (js "]");
       Lit (js "("); Plus true isDot; Lit (js ")"); Eol].

Definition stripMarkdownLinks (value : str) : str :=
  match exec linkRe value with
  | Some linkMatch => group 1 linkMatch
  | None =>
      match exec simpleLinkRe value with
      | Some simpleLinkMatch => group 1 simpleLinkMatch
      | None => value
      end
  end.

(** [/<!--\s*meta\s*\n([\s\S]*?)-->/] *)
Definition metaRe : regex :=
  cat [Lit (js "<!--"); Star true isSpace; Lit (js "meta"); Star true isSpace;
       Lit [10]; Grp 1 (Star false isAny); Lit (js "-->")].

(** [/^\s*(\w+)\s*:\s*(.+?)\s*$/] *)
Definition lineRe : regex :=
  cat [Bol; Star true isSpace; Grp 1 (Plus true isWord); Star true isSpace;
       Lit (js ":"); Star true isSpace; Grp 2 (Plus false isDot);
       Star true isSpace; Eol].

(** The [switch (key)] of [parseMeta]. *)
Definition setField (meta : ProjectMeta.t) (key value : str) : ProjectMeta.t :=
  let '(ProjectMeta.mk u c os ot sd pp) := meta in
  if str_eqb key (js "url") then ProjectMeta.mk (Some value) c os ot sd pp
  else if str_eqb key (js "cost_estimate") then
    ProjectMeta.mk u (Some (orNum (Some (Number value)) (num 0))) os ot sd pp
  else if str_eqb key (js "opencollective_slug") then
    ProjectMeta.mk u c (Some value) ot sd pp
  else if str_eqb key (js "opencollective_type") then
    ProjectMeta.mk u c os (Some value) sd pp
  else if str_eqb key (js "subdomain") then ProjectMeta.mk u c os ot (Some value) pp
  else if str_eqb key (js "page_path") then ProjectMeta.mk u c os ot sd (Some value)
  else meta.

(** The body of the loop over the lines of the meta block. *)
Definition parseLine (meta : ProjectMeta.t) (line : str) : ProjectMeta.t :=
  match exec lineRe line with
  | None => meta
  | Some m =>
      let key := group 1 m in
      let rawValue := group 2 m in
      let value := stripMarkdownLinks (trim rawValue) in
      setField meta key value
  end.

(** [!content] holds of [null] and of the empty string. *)
Definition parseMeta (content : option str) : ProjectMeta.t * str :=
  match content with
  | None | Some [] => (ProjectMeta.empty, [])
  | Some c =>
      match exec metaRe c with
      | None => (ProjectMeta.empty, trim c)
      | Some metaMatch =>
          let metaBlock := group 1 metaMatch in
          let body := trim (replaceStr c (m_text metaMatch) []) in
          (fold_left parseLine (split 10 metaBlock) ProjectMeta.empty, body)
      end
  end.

(** ** State mapping *)

Inductive InitiativeStatus : Type :=
| active
| in_development
| planned
| beta.

(** The argument is typed [LinearProjectState] in the source; at run time it
    is whatever string the API sent. *)
Definition mapProjectState (state : str) : InitiativeStatus :=
  if str_eqb state (js "started") then active
  else if str_eqb state (js "backlog") then planned
  else if str_eqb state (js "planned") then planned
  else if str_eqb state (js "paused") then beta
  else if str_eqb state (js "completed") then active
  else if str_eqb state (js "canceled") then planned
  else planned.

(** ** The Initiative record and the GraphQL types *)

Module Initiative.
Record t : Type := mk {
  id : str;
  slug : str;
  name : str;
  description : str;
  url : str;
  page_path : option str;
  subdomain : option str;
  completeness : number;
  cost_estimate : number;
  opencollective_slug : option str;
  opencollective_type : option str;
  status : InitiativeStatus;
  features : list str;
  next_milestones : list str;
  start_date : option str;
  target_date : option str;
  issue_count : nat;
  completed_issue_count : nat;
  created_at : str;
  updated_at : str
}.
End Initiative.

Module IssueState.
Record t : Type := mk { type : str; name : str }.
End IssueState.

Module Issue.
Record t : Type := mk {
  id : str;
  title : str;
  state : IssueState.t;
  completedAt : option str
}.
End Issue.

(** [issues] is [issues.nodes] of the source. *)
Module LinearProjectNode.
Record t : Type := mk {
  id : str;
  name : str;
  description : option str;
  content : option str;
  state : str;
  progress : number;
  startDate : option str;
  targetDate : option str;
  url : str;
  createdAt : str;
  updatedAt : str;
  issues : list Issue.t
}.
End LinearProjectNode.

(** ** The host

    [toLowerCase] is the Unicode lower-casing of the engine and
    [localeCompare] the collation of its default locale (negative, zero or
    positive). *)
Class Host : Type := {
  toLowerCase : str -> str;
  localeCompare : str -> str -> Z
}.

(** ** Array methods *)

(** [a.slice(0, n)] *)
Definition slice0 {A : Type} (n : nat) (a : list A) : list A := firstn n a.

(** [a.sort(cmp)]: the sort is stable, and sorts whenever [cmp] is a
    consistent comparator; the insertion sort below is such a sort. [x] goes
    before [y] when [cmp x y] is not positive, so among elements that compare
    equal the order of [a] is kept. *)
Fixpoint insertSorted {A : Type} (cmp : A -> A -> Z) (x : A) (l : list A)
    : list A :=
  match l with
  | [] => [x]
  | y :: l' => if (cmp x y <=? 0)%Z then x :: l else y :: insertSorted cmp x l'
  end.

Definition sort {A : Type} (cmp : A -> A -> Z) (a : list A) : list A :=
  fold_right (insertSorted cmp) [] a.

(** ** Public API *)

Definition isCompleted (i : Issue.t) : bool :=
  str_eqb (IssueState.type (Issue.state i)) (js "completed").

Definition isOpen (i : Issue.t) : bool :=
  str_eqb (IssueState.type (Issue.state i)) (js "started") ||
  str_eqb (IssueState.type (Issue.state i)) (js "unstarted").

(** [/[^a-z0-9]+/g] *)
Definition nonSlugRe : regex := Plus true (fun c => negb (isSlugChar c)).

(** [/^-|-$/g] *)
Definition edgeHyphenRe : regex :=
  Alt (Seq Bol (Lit (js "-"))) (Seq (Lit (js "-")) Eol).

Section WithHost.
Context {host : Host}.

Definition slugOf (name : str) : str :=
  replaceAll edgeHyphenRe [] (replaceAll nonSlugRe (js "-") (toLowerCase name)).

Definition projectToInitiative (project : LinearProjectNode.t) : Initiative.t :=
  let '(meta, contentBody) := parseMeta (LinearProjectNode.content project) in
  let displayDescription :=
    orStr (Some (orStr (LinearProjectNode.description project) contentBody))
          (LinearProjectNode.name project) in
  let completedIssues := filter isCompleted (LinearProjectNode.issues project) in
  let openIssues := filter isOpen (LinearProjectNode.issues project) in
  let slug := slugOf (LinearProjectNode.name project) in
  let url := orStr (ProjectMeta.url meta) (LinearProjectNode.url project) in
  {| Initiative.id := LinearProjectNode.id project;
     Initiative.slug := slug;
     Initiative.name := LinearProjectNode.name project;
     Initiative.description := displayDescription;
     Initiative.url := url;
     Initiative.page_path := orNull (ProjectMeta.page_path meta);
     Initiative.subdomain := orNull (ProjectMeta.subdomain meta);
     Initiative.completeness :=
       Math_round (numMul (LinearProjectNode.progress project) (num 100));
     Initiative.cost_estimate := orNum (ProjectMeta.cost_estimate meta) (num 0);
     Initiative.opencollective_slug := orNull (ProjectMeta.opencollective_slug meta);
     Initiative.opencollective_type := orNull (ProjectMeta.opencollective_type meta);
     Initiative.status := mapProjectState (LinearProjectNode.state project);
     Initiative.features := map Issue.title (slice0 10 completedIssues);
     Initiative.next_milestones := map Issue.title (slice0 5 openIssues);
     Initiative.start_date := LinearProjectNode.startDate project;
     Initiative.target_date := LinearProjectNode.targetDate project;
     Initiative.issue_count := length (LinearProjectNode.issues project);
     Initiative.completed_issue_count := length completedIssues;
     Initiative.created_at := LinearProjectNode.createdAt project;
     Initiative.updated_at := LinearProjectNode.updatedAt project |}.
End WithHost.

(** *** The fetch *)

(** What is thrown: the four errors the module raises itself, and the two
    the engine raises for it, the [SyntaxError] of [res.json()] on a text
    that is not JSON and the [TypeError] of a property read on [null] or
    [undefined]. *)
Inductive Error : Type :=
| MissingApiKey
| FetchFailed
| ApiError (status : N) (statusText : str)
| GraphQLError (message : option str)
| JsonSyntaxError
| TypeError.

Inductive Promise (A : Type) : Type :=
| Rejected (e : Error)
| Fulfilled (a : A).
Arguments Rejected {A} e.
Arguments Fulfilled {A} a.

Definition bind {A B : Type} (p : Promise A) (f : A -> Promise B) : Promise B :=
  match p with
  | Rejected e => Rejected e
  | Fulfilled a => f a
  end.

Notation "'await' x <- p ;; k" := (bind p (fun x => k))
  (at level 61, x name, p at next level, right associativity).

(** What [res.json()] gives. [NotJson]: the text of the answer is not JSON
    and the promise is rejected. [JsonNull]: the text is [null], on which
    [json.errors] cannot be read. [JsonValue errors data], any other value:
    [errors] is [json.errors] when it is truthy (the [message] of each of
    its entries, [None] for an entry that has none), and [data] is [json.data], given by the nodes of
    [data.team.projects.nodes], [None] when that path cannot be read (a
    [data] that is [null] or missing, a [team] that is [null]). *)
Inductive Json : Type :=
| NotJson
| JsonNull
| JsonValue (errors : option (list (option str)))
            (data : option (list LinearProjectNode.t)).

(** The answer of the API. *)
Record Response : Type := mkResponse {
  ok : bool;
  status : N;
  statusText : str;
  json : Json
}.

(** What a call meets: the environment of the process and the outcome of
    the request ([None] when [fetch] itself rejects). *)
Record World : Type := mkWorld {
  LINEAR_API_KEY : option str;
  LINEAR_TEAM_ID : option str;
  response : option Response
}.

Definition getApiKey (w : World) : Promise str :=
  if truthyStr (LINEAR_API_KEY w) then Fulfilled (orStr (LINEAR_API_KEY w) [])
  else Rejected MissingApiKey.

Definition getTeamId (w : World) : str :=
  orStr (LINEAR_TEAM_ID w) (js "ca747a2c-e5e3-4221-b38c-4369ab5a107f").

Definition gql (w : World) : Promise (option (list LinearProjectNode.t)) :=
  await _key <- getApiKey w ;;
  match response w with
  | None => Rejected FetchFailed
  | Some res =>
      if negb (ok res) then Rejected (ApiError (status res) (statusText res))
      else
        match json res with
        | NotJson => Rejected JsonSyntaxError
        | JsonNull => Rejected TypeError
        | JsonValue (Some es) _ => Rejected (GraphQLError (hd None es))
        | JsonValue None data => Fulfilled data
        end
  end.

Section Accessors.
Context {host : Host}.

Definition byName (a b : Initiative.t) : Z :=
  localeCompare (Initiative.name a) (Initiative.name b).

Definition notCanceled (p : LinearProjectNode.t) : bool :=
  negb (str_eqb (LinearProjectNode.state p) (js "canceled")).

(** The chain of [getAllInitiatives] on the nodes fetched. *)
Definition initiativesOf (nodes : list LinearProjectNode.t) : list Initiative.t :=
  sort byName (map projectToInitiative (filter notCanceled nodes)).

(** [data.team.projects.nodes] raises when the data has no such path. *)
Definition getAllInitiatives (w : World) : Promise (list Initiative.t) :=
  await data <- gql w ;;
  match data with
  | Some nodes => Fulfilled (initiativesOf nodes)
  | None => Rejected TypeError
  end.

Definition slugIs (slug : str) (i : Initiative.t) : bool :=
  str_eqb (Initiative.slug i) slug.

Definition getInitiativeBySlug (w : World) (slug : str)
    : Promise (option Initiative.t) :=
  await initiatives <- getAllInitiatives w ;;
  Fulfilled (find (slugIs slug) initiatives).

Definition optIs (field : option str) (s : str) : bool :=
  match field with
  | Some f => str_eqb f s
  | None => false
  end.

Definition normalizePath (pagePath : str) : str :=
  if startsWith pagePath (js "/") then pagePath else js "/" ++ pagePath.

Definition getInitiativeByPagePath (w : World) (pagePath : str)
    : Promise (option Initiative.t) :=
  let normalizedPath := normalizePath pagePath in
  await initiatives <- getAllInitiatives w ;;
  Fulfilled (find (fun i => optIs (Initiative.page_path i) normalizedPath) initiatives).

Definition getInitiativeBySubdomain (w : World) (subdomain : str)
    : Promise (option Initiative.t) :=
  await initiatives <- getAllInitiatives w ;;
  Fulfilled (find (fun i => optIs (Initiative.subdomain i) subdomain) initiatives).

(** Each lookup makes a request of its own: the first meets [w1], the
    second, when there is one, [w2]. *)
Definition getInitiativeForPage (w1 w2 : World) (pagePath subdomain : option str)
    : Promise (option Initiative.t) :=
  await byPath <-
    (if truthyStr pagePath then getInitiativeByPagePath w1 (orStr pagePath [])
     else Fulfilled None) ;;
  match byPath with
  | Some initiative => Fulfilled (Some initiative)
  | None =>
      await bySub <-
        (if truthyStr subdomain then getInitiativeBySubdomain w2 (orStr subdomain [])
         else Fulfilled None) ;;
      Fulfilled bySub
  end.

Definition getTotalCostEstimate (w : World) : Promise number :=
  await initiatives <- getAllInitiatives w ;;
  Fulfilled (fold_left (fun sum i => numAdd sum (Initiative.cost_estimate i))
                       initiatives (num 0)).

Definition getAverageCompleteness (w : World) : Promise number :=
  await initiatives <- getAllInitiatives w ;;
  if Nat.eqb (length initiatives) 0 then Fulfilled (num 0)
  else
    let total := fold_left (fun sum i => numAdd sum (Initiative.completeness i))
                           initiatives (num 0) in
    Fulfilled (Math_round (numDiv total (num (Z.of_nat (length initiatives))))).
End Accessors.

(** ** The status page (src/app/page.tsx): the values it shows

    The markup is left out; what is modelled is what the components
    compute before they render. *)

Definition status_eqb (a b : InitiativeStatus) : bool :=
  match a, b with
  | active, active | in_development, in_development
  | planned, planned | beta, beta => true
  | _, _ => false
  end.

(** [counts[s] = (counts[s] || 0) + 1] on an object: the count of a key
    that is there goes up, a new key goes to the end, as [Object.entries]
    lists the keys in the order of their insertion. *)
Fixpoint bump (s : InitiativeStatus) (counts : list (InitiativeStatus * nat))
    : list (InitiativeStatus * nat) :=
  match counts with
  | [] => [(s, 1%nat)]
  | (k, n) :: rest =>
      if status_eqb k s then (k, S n) :: rest else (k, n) :: bump s rest
  end.

(** The [counts] of [StatusBreakdown]. *)
Definition statusCounts (initiatives : list Initiative.t)
    : list (InitiativeStatus * nat) :=
  fold_left (fun counts i => bump (Initiative.status i) counts) initiatives [].

(** [initiatives.length || 1] *)
Definition breakdownTotal (initiatives : list Initiative.t) : nat :=
  match length initiatives with
  | O => 1%nat
  | n => n
  end.

(** The width of the bar of a status: [(count / total) * 100]. *)
Definition breakdownWidth (initiatives : list Initiative.t) (count : nat) : number :=
  numMul (numDiv (num (Z.of_nat count))
                 (num (Z.of_nat (breakdownTotal initiatives))))
         (num 100).

(** [- x] and [x - y] *)
Definition numNeg (x : number) : number :=
  match x with
  | NaN => NaN
  | PosInf => NegInf
  | NegInf => PosInf
  | Fin q => Fin (Qred (- q))
  end.

Definition numSub (x y : number) : number := numAdd x (numNeg y).

(** What [sort] makes of the number a comparator returns: its sign, NaN
    counting as zero. *)
Definition comparatorSign (v : number) : Z :=
  match v with
  | NaN => 0%Z
  | PosInf => 1%Z
  | NegInf => (-1)%Z
  | Fin q => Z.sgn (Qnum q)
  end.

(** [(a, b) => b.completeness - a.completeness] *)
Definition byCompletenessDesc (a b : Initiative.t) : Z :=
  comparatorSign (numSub (Initiative.completeness b) (Initiative.completeness a)).

(** The [sorted] of [ProgressOverview]: a sorted copy of the list. *)
Definition progressOrder (initiatives : list Initiative.t) : list Initiative.t :=
  sort byCompletenessDesc initiatives.

Module PageData.
Record t : Type := mk {
  initiatives : list Initiative.t;
  totalCost : number;
  avgCompleteness : number;
  error : bool;
  activeCount : nat;
  totalIssues : nat;
  completedIssues : nat
}.
End PageData.

Section StatusPage.
Context {host : Host}.

(** The [try] block of [StatusPage]: three requests in turn, each meeting a
    world of its own; the first failure stops it, and what was assigned
    before stays. *)
Definition loadStatus (w1 w2 w3 : World)
    : list Initiative.t * number * number * bool :=
  match getAllInitiatives w1 with
  | Rejected _ => ([], num 0, num 0, true)
  | Fulfilled initiatives =>
      match getTotalCostEstimate w2 with
      | Rejected _ => (initiatives, num 0, num 0, true)
      | Fulfilled totalCost =>
          match getAverageCompleteness w3 with
          | Rejected _ => (initiatives, totalCost, num 0, true)
          | Fulfilled avgCompleteness =>
              (initiatives, totalCost, avgCompleteness, false)
          end
      end
  end.

Definition StatusPage (w1 w2 w3 : World) : PageData.t :=
  let '(initiatives, totalCost, avgCompleteness, error) := loadStatus w1 w2 w3 in
  {| PageData.initiatives := initiatives;
     PageData.totalCost := totalCost;
     PageData.avgCompleteness := avgCompleteness;
     PageData.error := error;
     PageData.activeCount :=
       length (filter (fun i => status_eqb (Initiative.status i) active) initiatives);
     PageData.totalIssues :=
       fold_left (fun s i => (s + Initiative.issue_count i)%nat) initiatives 0%nat;
     PageData.completedIssues :=
       fold_left (fun s i => (s + Initiative.completed_issue_count i)%nat)
                 initiatives 0%nat |}.
End StatusPage.

(** ** A host for ASCII text

    Lower-casing of A to Z, and the root collation on printable ASCII text,
    the collation of an engine whose default locale does not tailor it (as
    the English ones): the names are compared character by character in the
    order of [collationOrder], a capital letter counting as its small
    letter; names that are equal in this way are told apart by their case,
    the small letter first. Text outside printable ASCII is not modelled:
    its code units are put after the letters, in the order of their
    values, which is not what an engine does with them. It is the host of
    the examples below. *)

Definition asciiLower (s : str) : str :=
  map (fun c => if isUpperAZ c then c + 32 else c) s.

Fixpoint compareUnits (a b : str) : comparison :=
  match a, b with
  | [], [] => Eq
  | [], _ :: _ => Lt
  | _ :: _, [] => Gt
  | x :: a', y :: b' =>
      match x ?= y with
      | Eq => compareUnits a' b'
      | c => c
      end
  end.

Definition signOf (c : comparison) : Z :=
  match c with
  | Lt => (-1)%Z
  | Eq => 0%Z
  | Gt => 1%Z
  end.

(** The printable ASCII characters in the order of the root collation: the
    space, the punctuation, the symbols, the digits, the letters. *)
Definition collationOrder : str :=
  js " _-,;:!?.'" ++ [34] ++
  js "()[]{}@*/\&#%`^+<=>|~$0123456789abcdefghijklmnopqrstuvwxyz".

Fixpoint indexOf (c : N) (l : str) : option N :=
  match l with
  | [] => None
  | x :: rest =>
      if x =? c then Some 0
      else match indexOf c rest with
           | Some n => Some (N.succ n)
           | None => None
           end
  end.

(** The place of a code unit in the collation. *)
Definition collationRank (c : N) : N :=
  let folded := if isUpperAZ c then c + 32 else c in
  match indexOf folded collationOrder with
  | Some n => n
  | None => 128 + c
  end.

Definition rootCompare (a b : str) : Z :=
  match compareUnits (map collationRank a) (map collationRank b) with
  | Eq => signOf (compareUnits b a)
  | c => signOf c
  end.

Definition asciiHost : Host :=
  {| toLowerCase := asciiLower; localeCompare := rootCompare |}.

(** ** What the specification says, in its own words *)

(** How many issues satisfy [p]. *)
Fixpoint countWhere (p : Issue.t -> bool) (issues : list Issue.t) : nat :=
  match issues with
  | [] => O
  | i :: rest => if p i then S (countWhere p rest) else countWhere p rest
  end.

(** An issue whose state type is completed, and one whose state type is
    started or unstarted. *)
Definition completedType (i : Issue.t) : Prop :=
  IssueState.type (Issue.state i) = js "completed".

Definition openType (i : Issue.t) : Prop :=
  IssueState.type (Issue.state i) = js "started" \/
  IssueState.type (Issue.state i) = js "unstarted".

(** [selects P issues kept]: [kept] holds the issues of [issues] that
    satisfy [P], every one of them, in the order they have there. *)
Inductive selects (P : Issue.t -> Prop) : list Issue.t -> list Issue.t -> Prop :=
| selects_nil : selects P [] []
| selects_keep (i : Issue.t) (issues kept : list Issue.t) :
    P i -> selects P issues kept -> selects P (i :: issues) (i :: kept)
| selects_drop (i : Issue.t) (issues kept : list Issue.t) :
    ~ P i -> selects P issues kept -> selects P (i :: issues) kept.

(** The first candidate that is a non-empty string; the empty string when
    there is none. *)
Fixpoint firstNonEmpty (candidates : list (option str)) : str :=
  match candidates with
  | [] => []
  | Some (c :: s) :: _ => c :: s
  | _ :: rest => firstNonEmpty rest
  end.

(** The comparison of the specification: the names without their case,
    code unit by code unit. *)
Definition caseInsensitiveLe (a b : str) : Prop :=
  compareUnits (asciiLower a) (asciiLower b) <> Gt.

(** A name made of ASCII letters, digits and spaces. *)
Definition isPlain (c : N) : bool :=
  isLowerAZ c || isUpperAZ c || isDigit c || (c =? 32).

Definition plainName (s : str) : Prop := Forall (fun c => isPlain c = true) s.

(** The plain characters, listed. *)
Definition plainChars : str := filter isPlain (map N.of_nat (seq 0 123)).

(** The average of [zs], rounded to the nearest integer, a tie going up. *)
Definition roundedAverage (zs : list Z) : Z :=
  let n := Z.of_nat (length zs) in
  ((2 * fold_right Z.add 0 zs + n) / (2 * n))%Z.

Definition isNonNegInteger (x : number) : Prop :=
  exists n : nat, x = num (Z.of_nat n).

(** The lines of the meta block of [content], when it has one. *)
Definition metaLines (content : option str) : list str :=
  match content with
  | None | Some [] => []
  | Some c =>
      match exec metaRe c with
      | None => []
      | Some metaMatch => split 10 (group 1 metaMatch)
      end
  end.

(** The value a line gives to [cost_estimate], when it is such a line. *)
Definition costLine (line : str) : option str :=
  match exec lineRe line with
  | Some m =>
      if str_eqb (group 1 m) (js "cost_estimate")
      then Some (stripMarkdownLinks (trim (group 2 m)))
      else None
  | None => None
  end.

(** [body] is [content] without the white space at its two ends. *)
Definition isTrimOf (body content : str) : Prop :=
  exists pre post,
    content = pre ++ body ++ post /\
    Forall (fun c => isSpace c = true) pre /\
    Forall (fun c => isSpace c = true) post /\
    (forall c t, body = c :: t -> isSpace c = false) /\
    (forall t c, body = t ++ [c] -> isSpace c = false).

(** What a line [cost_estimate: v] stores: [Number(v) || 0]. *)
Definition costOf (v : str) : number := orNum (Some (Number v)) (num 0).

(** The order of a comparator: [x] may stand before [y]. *)
Definition notAfter {A : Type} (cmp : A -> A -> Z) (x y : A) : Prop :=
  (cmp x y <= 0)%Z.

(** Every element of [l] stands before its successor in the sense of [R]. *)
Definition adjacentIn {A : Type} (R : A -> A -> Prop) (l : list A) : Prop :=
  forall l1 a b l2, l = l1 ++ a :: b :: l2 -> R a b.

(** The progress the API sent is a finite number, as every number of a
    JSON document is. *)
Definition finiteProgress (project : LinearProjectNode.t) : Prop :=
  exists q, LinearProjectNode.progress project = Fin q.

(** [p] occurs somewhere in [s]. *)
Definition occursIn (p s : str) : Prop := exists pre post, s = pre ++ p ++ post.

(** [t] is what is left of [s] from some position on. *)
Definition isSuffix (t s : str) : Prop := exists pre, s = pre ++ t.

(** The continuation [k] fails wherever it is called in [s]. *)
Definition failsIn {R : Type} (k : @cont R) (s : str) : Prop :=
  forall pos t caps, isSuffix t s -> k pos t caps = None.

(** ** Sample data *)

Definition sampleIssue (title type : string) : Issue.t :=
  Issue.mk (js "issue") (js title) (IssueState.mk (js type) (js type)) None.

Definition sampleNode (name : string) (description content : option str)
    (state : string) (progress : Q) (issues : list Issue.t) : LinearProjectNode.t :=
  LinearProjectNode.mk (js name) (js name) description content (js state)
    (Fin progress) None None (js "https://api.example/p/1")
    (js "2024-01-01") (js "2024-02-01") issues.

(** A world in which the request succeeds with [nodes]. *)
Definition worldOf (nodes : list LinearProjectNode.t) : World :=
  mkWorld (Some (js "lin_api_key")) None
          (Some (mkResponse true 200 (js "OK") (JsonValue None (Some nodes)))).

Definition metaBlockOf (lines : list str) : str :=
  js "<!-- meta" ++ [10] ++ concat (map (fun l => l ++ [10]) lines) ++ js "-->".

Definition puppetNode : LinearProjectNode.t :=
  sampleNode "Puppet" None
    (Some (metaBlockOf [js "url: https://puppet.inquiry.institute";
                        js "cost_estimate: 5000"; js "page_path: /puppet"]))
    "started" (42 # 100)
    [sampleIssue "a" "completed"; sampleIssue "b" "completed";
     sampleIssue "c" "started"; sampleIssue "d" "unstarted";
     sampleIssue "e" "triage"].

Definition namelessNode : LinearProjectNode.t :=
  sampleNode "" None None "started" 0 [].

Definition negativeCostNode : LinearProjectNode.t :=
  sampleNode "Debt" None (Some (metaBlockOf [js "cost_estimate: -5"])) "started" 0 [].

Definition fractionalCostNode : LinearProjectNode.t :=
  sampleNode "Half" None (Some (metaBlockOf [js "cost_estimate: 1.5"])) "started" 0 [].

Definition nonNumericCostNode : LinearProjectNode.t :=
  sampleNode "Words" None
    (Some (metaBlockOf [js "cost_estimate: 1200"; js "cost_estimate: notanumber";
                        js "subdomain: words"]))
    "started" 0 [].

Definition fooNode : LinearProjectNode.t :=
  sampleNode "Foo" None None "started" (1 # 2) [].

Definition fooBangNode : LinearProjectNode.t :=
  sampleNode "Foo!" None None "planned" (3 # 4) [].

Definition punctuationNode : LinearProjectNode.t :=
  sampleNode "?!" None None "backlog" 0 [].

Definition zooNode : LinearProjectNode.t :=
  sampleNode "Zoo" None None "started" 0 [].

Definition archiveNode : LinearProjectNode.t :=
  sampleNode "~archive" None None "completed" 1 [].

Definition fooInitiative : Initiative.t := @projectToInitiative asciiHost fooNode.

Definition fooBangInitiative : Initiative.t :=
  @projectToInitiative asciiHost fooBangNode.

Definition puppetInitiative : Initiative.t :=
  @projectToInitiative asciiHost puppetNode.

(** ** What a match is

    [matches r pos s caps pos' s' caps']: the expression [r] can take the
    input [s], at position [pos], to the rest [s'] at position [pos'],
    turning the captures [caps] into [caps']. The matcher picks one such
    match, by its priorities; every match it finds is one of these. *)
Fixpoint matches (r : regex) (pos : nat) (s : str) (caps : captures)
    (pos' : nat) (s' : str) (caps' : captures) : Prop :=
  match r with
  | Empty => pos' = pos /\ s' = s /\ caps' = caps
  | Lit l => s = l ++ s' /\ pos' = (pos + length l)%nat /\ caps' = caps
  | Cls p => exists c, s = c :: s' /\ p c = true /\ pos' = S pos /\ caps' = caps
  | Seq r1 r2 =>
      exists pos1 s1 caps1,
        matches r1 pos s caps pos1 s1 caps1 /\
        matches r2 pos1 s1 caps1 pos' s' caps'
  | Alt r1 r2 =>
      matches r1 pos s caps pos' s' caps' \/ matches r2 pos s caps pos' s' caps'
  | Star _ p =>
      exists seg,
        s = seg ++ s' /\ Forall (fun c => p c = true) seg /\
        pos' = (pos + length seg)%nat /\ caps' = caps
  | Grp i r1 =>
      exists caps1,
        matches r1 pos s caps pos' s' caps1 /\
        caps' = (i, firstn (pos' - pos) s) :: caps1
  | Bol => pos = O /\ pos' = pos /\ s' = s /\ caps' = caps
  | Eol => s = [] /\ pos' = pos /\ s' = s /\ caps' = caps
  end.

(** The input stops the iteration of [p]: it is over, or goes on with a
    code unit outside [p]. *)
Definition stops (p : N -> bool) (t : str) : Prop :=
  match t with
  | [] => True
  | c :: _ => p c = false
  end.

(** A value as a line of the meta block carries it: not empty, with no
    white space at either end. *)
Definition bare (value : str) : Prop :=
  value <> [] /\
  (forall c t, value = c :: t -> isSpace c = false) /\
  (forall t c, value = t ++ [c] -> isSpace c = false).

(** The six keys of the meta block. *)
Definition recognizedKeys : list str :=
  [js "url"; js "cost_estimate"; js "opencollective_slug";
   js "opencollective_type"; js "subdomain"; js "page_path"].

(** The opening of a meta block: the comment opening, the word, and a line
    end, with white space between them. *)
Definition metaOpening (ws1 ws2 : str) : str :=
  js "<!--" ++ ws1 ++ js "meta" ++ ws2 ++ [10].

(** A line of the meta block: the key, the colon and the value, with the
    white space around them. *)
Definition metaLine (ws1 : str) (key : string) (ws2 ws3 value ws4 : str) : str :=
  ws1 ++ js key ++ ws2 ++ js ":" ++ ws3 ++ value ++ ws4.

(** ** The slug, written out

    Every run of code units outside a-z and 0-9 becomes one hyphen
    ([inRun] tells that the hyphen of the current run is already written);
    then one hyphen is dropped at each end. *)
Fixpoint hyphenate (inRun : bool) (s : str) : str :=
  match s with
  | [] => []
  | c :: s' =>
      if isSlugChar c then c :: hyphenate false s'
      else if inRun then hyphenate true s'
      else 45 :: hyphenate true s'
  end.

Definition dropLeadingHyphen (s : str) : str :=
  match s with
  | c :: s' => if c =? 45 then s' else s
  | [] => []
  end.

Definition dropTrailingHyphen (s : str) : str :=
  rev (dropLeadingHyphen (rev s)).

(** The class of the first replacement: [[^a-z0-9]]. *)
Definition notSlugChar (c : N) : bool := negb (isSlugChar c).

(** A slug is made of a-z, 0-9 and hyphens. *)
Definition slugAlphabet (s : str) : Prop :=
  Forall (fun c => isSlugChar c = true \/ c = 45) s.

(** No two hyphens follow each other. *)
Definition noDoubleHyphen (s : str) : Prop :=
  forall a b, s <> a ++ 45 :: 45 :: b.

(** The progress of a project is a fraction between 0 and 1. *)
Definition unitProgress (project : LinearProjectNode.t) : Prop :=
  exists q, LinearProjectNode.progress project = Fin q /\ (0 <= q <= 1)%Q.

(** [x] is an integer between 0 and 100. *)
Definition isPercent (x : number) : Prop :=
  exists z, x = num z /\ (0 <= z <= 100)%Z.

(** How many initiatives have the status [s]. *)
Definition countStatus (s : InitiativeStatus) (initiatives : list Initiative.t) : nat :=
  length (filter (fun i => status_eqb (Initiative.status i) s) initiatives).

(** The sum of the counts of a breakdown. *)
Definition sumCounts (counts : list (InitiativeStatus * nat)) : nat :=
  fold_right (fun e acc => (snd e + acc)%nat) 0%nat counts.

(** The completeness of an initiative is an integer. *)
Definition integerCompleteness (i : Initiative.t) : Prop :=
  exists z, Initiative.completeness i = num z.

(** [a] is at least as complete as [b]. *)
Definition atLeastAsComplete (a b : Initiative.t) : Prop :=
  exists za zb,
    Initiative.completeness a = num za /\ Initiative.completeness b = num zb /\
    (zb <= za)%Z.

(** The value a line gives to [page_path], when it is such a line. *)
Definition pagePathLine (line : str) : option str :=
  match exec lineRe line with
  | Some m =>
      if str_eqb (group 1 m) (js "page_path")
      then Some (stripMarkdownLinks (trim (group 2 m)))
      else None
  | None => None
  end.

(** ** Strings: basic facts *)

Lemma str_eqb_eq (a b : str) : str_eqb a b = true <-> a = b.
Proof.
  revert b; induction a as [|x a IH]; intros [|y b]; simpl; split;
    try discriminate; try reflexivity.
  - intros H. apply andb_true_iff in H as [Hx Hr].
    apply N.eqb_eq in Hx. apply IH in Hr. now subst.
  - intros H. injection H as -> ->. rewrite N.eqb_refl. simpl. now apply IH.
Qed.

Lemma str_eqb_refl (a : str) : str_eqb a a = true.
Proof. now apply str_eqb_eq. Qed.

Lemma str_eqb_neq (a b : str) : a <> b -> str_eqb a b = false.
Proof.
  intros H. destruct (str_eqb a b) eqn:E; [|reflexivity].
  apply str_eqb_eq in E. contradiction.
Qed.

(** A field of the initiative of a project: the record is built under the
    destructuring of the result of [parseMeta]. *)
Ltac initiative_field :=
  unfold projectToInitiative; destruct (parseMeta _) as [meta body].

(** ** C1: the state mapper *)

(** C1. [mapProjectState] is defined on every string, follows the fixed
    table on the six known states and returns [planned] on every other
    string. *)
Theorem mapProjectState_table :
  mapProjectState (js "started") = active /\
  mapProjectState (js "backlog") = planned /\
  mapProjectState (js "planned") = planned /\
  mapProjectState (js "paused") = beta /\
  mapProjectState (js "completed") = active /\
  mapProjectState (js "canceled") = planned /\
  (forall s : str,
      s <> js "started" -> s <> js "backlog" -> s <> js "planned" ->
      s <> js "paused" -> s <> js "completed" -> s <> js "canceled" ->
      mapProjectState s = planned).
Proof.
  repeat (split; [reflexivity|]).
  intros s H1 H2 H3 H4 H5 H6. unfold mapProjectState.
  now rewrite !str_eqb_neq by assumption.
Qed.

Lemma mapProjectState_table_witness :
  mapProjectState (js "started") = active /\
  mapProjectState (js "paused") = beta /\
  mapProjectState (js "archived") = planned.
Proof.
  destruct mapProjectState_table as (H1 & _ & _ & H4 & _ & _ & Hd).
  split; [exact H1 | split; [exact H4 |]].
  apply Hd; intros E; discriminate E.
Defined.

(** ** C2: the issue aggregation *)

Lemma countWhere_filter (p : Issue.t -> bool) (issues : list Issue.t) :
  length (filter p issues) = countWhere p issues.
Proof.
  induction issues as [|i rest IH]; simpl; [reflexivity|].
  destruct (p i); simpl; now rewrite IH.
Qed.

Lemma countWhere_le (p : Issue.t -> bool) (issues : list Issue.t) :
  (countWhere p issues <= length issues)%nat.
Proof.
  induction issues as [|i rest IH]; simpl; [lia|]. destruct (p i); lia.
Qed.

Lemma isCompleted_type (x : Issue.t) :
  isCompleted x = true <-> IssueState.type (Issue.state x) = js "completed".
Proof. apply str_eqb_eq. Qed.

Lemma isOpen_type (x : Issue.t) :
  isOpen x = true <->
  IssueState.type (Issue.state x) = js "started" \/
  IssueState.type (Issue.state x) = js "unstarted".
Proof.
  unfold isOpen. rewrite orb_true_iff, !str_eqb_eq. reflexivity.
Qed.

Lemma selects_filter (P : Issue.t -> Prop) (p : Issue.t -> bool)
    (issues : list Issue.t) :
  (forall i, p i = true <-> P i) -> selects P issues (filter p issues).
Proof.
  intros Hp. induction issues as [|i rest IH]; cbn [filter]; [constructor|].
  destruct (p i) eqn:E.
  - apply selects_keep; [now apply Hp | exact IH].
  - apply selects_drop; [|exact IH]. intros H. apply Hp in H. congruence.
Qed.

Lemma selects_unique (P : Issue.t -> Prop) (issues kept : list Issue.t) :
  selects P issues kept ->
  forall kept', selects P issues kept' -> kept' = kept.
Proof.
  induction 1 as [|i issues kept Hi _ IH|i issues kept Hi _ IH];
    intros kept' H'; inversion H'; subst; try contradiction.
  - reflexivity.
  - f_equal. now apply IH.
  - now apply IH.
Qed.

Lemma selects_sound (P : Issue.t -> Prop) (issues kept : list Issue.t) :
  selects P issues kept -> forall x, In x kept <-> In x issues /\ P x.
Proof.
  induction 1 as [|i issues kept Hi _ IH|i issues kept Hi _ IH]; intros x; simpl.
  - tauto.
  - rewrite IH. split; [intros [<-|[? ?]]; auto | intros [[<-|?] ?]; auto].
  - rewrite IH. split; [intros [? ?]; auto | intros [[<-|?] ?]; [contradiction|auto]].
Qed.

Lemma selects_length (P : Issue.t -> Prop) (issues kept : list Issue.t) :
  selects P issues kept -> (length kept <= length issues)%nat.
Proof. induction 1; simpl; lia. Qed.

Lemma completed_selected (issues : list Issue.t) :
  selects completedType issues (filter isCompleted issues).
Proof. apply selects_filter. intros i. apply isCompleted_type. Qed.

Lemma open_selected (issues : list Issue.t) :
  selects openType issues (filter isOpen issues).
Proof. apply selects_filter. intros i. apply isOpen_type. Qed.

Lemma firstn_In {A : Type} (n : nat) (l : list A) (x : A) :
  In x (firstn n l) -> In x l.
Proof.
  intros H. rewrite <- (firstn_skipn n l). apply in_or_app. now left.
Qed.

Lemma lists_of_project (host : Host) (project : LinearProjectNode.t) :
  let issues := LinearProjectNode.issues project in
  let i := projectToInitiative project in
  Initiative.features i = map Issue.title (firstn 10 (filter isCompleted issues)) /\
  Initiative.next_milestones i = map Issue.title (firstn 5 (filter isOpen issues)) /\
  Initiative.issue_count i = length issues /\
  Initiative.completed_issue_count i = length (filter isCompleted issues).
Proof. cbv zeta. initiative_field. now repeat split. Qed.

(** C2. With [completed] the issues of the project whose state type is
    completed and [opened] those whose state type is started or unstarted,
    each in the order of the source, [features] holds the titles of the
    first ten of [completed] and [next_milestones] those of the first five
    of [opened]; so every title listed comes from an issue of that kind, and
    an issue of another state type is in neither list, though [issue_count]
    counts it; [completed_issue_count] is the number of [completed] and is
    at most [issue_count], the number of all the issues. *)
Theorem issue_aggregation (host : Host) (project : LinearProjectNode.t) :
  let issues := LinearProjectNode.issues project in
  let i := projectToInitiative project in
  exists completed opened : list Issue.t,
    selects completedType issues completed /\
    selects openType issues opened /\
    Initiative.features i = map Issue.title (firstn 10 completed) /\
    Initiative.next_milestones i = map Issue.title (firstn 5 opened) /\
    (length (Initiative.features i) <= 10)%nat /\
    (length (Initiative.next_milestones i) <= 5)%nat /\
    (forall t, In t (Initiative.features i) ->
       exists x, In x issues /\ Issue.title x = t /\
                 IssueState.type (Issue.state x) = js "completed") /\
    (forall t, In t (Initiative.next_milestones i) ->
       exists x, In x issues /\ Issue.title x = t /\
                 (IssueState.type (Issue.state x) = js "started" \/
                  IssueState.type (Issue.state x) = js "unstarted")) /\
    Initiative.issue_count i = length issues /\
    Initiative.completed_issue_count i = length completed /\
    (Initiative.completed_issue_count i <= Initiative.issue_count i)%nat.
Proof.
  intros issues i.
  destruct (lists_of_project host project) as (Hf & Hm & Hn & Hc).
  fold issues i in Hf, Hm, Hn, Hc.
  pose proof (completed_selected issues) as Sc.
  pose proof (open_selected issues) as So.
  exists (filter isCompleted issues), (filter isOpen issues).
  rewrite Hf, Hm, Hn, Hc.
  repeat match goal with |- _ /\ _ => split end; trivial.
  - rewrite length_map, length_firstn. lia.
  - rewrite length_map, length_firstn. lia.
  - intros t Ht. apply in_map_iff in Ht as (x & Hx & Hin).
    apply firstn_In in Hin. apply (selects_sound _ _ _ Sc) in Hin as [Hin Hp].
    now exists x.
  - intros t Ht. apply in_map_iff in Ht as (x & Hx & Hin).
    apply firstn_In in Hin. apply (selects_sound _ _ _ So) in Hin as [Hin Hp].
    now exists x.
  - now apply selects_length with (P := completedType).
Qed.

(** ** C4: the description *)

Lemma orStr_firstNonEmpty (a : option str) (b : str) :
  orStr a b = firstNonEmpty [a; Some b].
Proof. destruct a as [[|c s]|], b; reflexivity. Qed.

Lemma description_chain (host : Host) (project : LinearProjectNode.t) :
  Initiative.description (projectToInitiative project) =
  firstNonEmpty [LinearProjectNode.description project;
                 Some (snd (parseMeta (LinearProjectNode.content project)));
                 Some (LinearProjectNode.name project)].
Proof.
  initiative_field. simpl.
  destruct (LinearProjectNode.description project) as [[|c s]|];
    destruct body; destruct (LinearProjectNode.name project); reflexivity.
Qed.

(** C4, as amended. The description is the first non-empty value among the
    short description, the body parsed out of the content and the name; it
    is non-empty whenever the name is. *)
Theorem description_fallback (host : Host) (project : LinearProjectNode.t) :
  Initiative.description (projectToInitiative project) =
    firstNonEmpty [LinearProjectNode.description project;
                   Some (snd (parseMeta (LinearProjectNode.content project)));
                   Some (LinearProjectNode.name project)] /\
  (LinearProjectNode.name project <> [] ->
   Initiative.description (projectToInitiative project) <> []).
Proof.
  split; [apply description_chain|].
  intros Hname. rewrite description_chain. simpl.
  destruct (LinearProjectNode.description project) as [[|c s]|];
    destruct (snd (parseMeta (LinearProjectNode.content project)));
    destruct (LinearProjectNode.name project);
    try discriminate; try contradiction; auto.
Qed.

Lemma description_fallback_witness :
  LinearProjectNode.name puppetNode <> [] /\
  Initiative.description (@projectToInitiative asciiHost puppetNode) <> [].
Proof.
  split; [discriminate|].
  apply (proj2 (description_fallback asciiHost puppetNode)). discriminate.
Defined.

(** C4, as stated, fails on a project whose name is empty and which has
    neither a short description nor a content body: the description is the
    empty string. *)
Lemma description_empty_example :
  Initiative.description (@projectToInitiative asciiHost namelessNode) = [].
Proof. reflexivity. Qed.

(** ** C6: content without a meta block *)

Lemma trimStart_split (s : str) :
  exists pre, s = pre ++ trimStart s /\ Forall (fun c => isSpace c = true) pre.
Proof.
  induction s as [|c s IH]; simpl.
  - exists []. auto.
  - destruct (isSpace c) eqn:Hc.
    + destruct IH as (pre & Hs & Hpre). exists (c :: pre). split.
      * simpl. now rewrite <- Hs.
      * now constructor.
    + exists []. auto.
Qed.

Lemma trimStart_head (s : str) (c : N) (t : str) :
  trimStart s = c :: t -> isSpace c = false.
Proof.
  induction s as [|x s IH]; simpl; [discriminate|].
  destruct (isSpace x) eqn:Hx; [exact IH|].
  intros H. injection H as -> _. exact Hx.
Qed.

Lemma trimEnd_split (s : str) :
  exists post, s = trimEnd s ++ post /\ Forall (fun c => isSpace c = true) post.
Proof.
  unfold trimEnd. destruct (trimStart_split (rev s)) as (pre & Hs & Hpre).
  exists (rev pre). split.
  - rewrite <- rev_app_distr, <- Hs. symmetry. apply rev_involutive.
  - apply Forall_rev. exact Hpre.
Qed.

Lemma trimEnd_last (s t : str) (c : N) :
  trimEnd s = t ++ [c] -> isSpace c = false.
Proof.
  unfold trimEnd. intros H.
  apply (f_equal (@rev N)) in H. rewrite rev_involutive, rev_app_distr in H.
  simpl in H. eapply trimStart_head. exact H.
Qed.

Lemma trim_isTrimOf (s : str) : isTrimOf (trim s) s.
Proof.
  unfold trim.
  destruct (trimStart_split s) as (pre & Hs & Hpre).
  destruct (trimEnd_split (trimStart s)) as (post & Ht & Hpost).
  exists pre, post. repeat split; trivial.
  - now rewrite <- Ht.
  - intros c t Hb. rewrite Hb in Ht. simpl in Ht.
    eapply trimStart_head. exact Ht.
  - intros t c Hb. eapply trimEnd_last. exact Hb.
Qed.

Lemma startsWith_prefix (s p : str) :
  startsWith s p = true -> exists post, s = p ++ post.
Proof.
  revert s. induction p as [|x p IH]; intros s; simpl.
  - now exists s.
  - destruct s as [|y s]; [discriminate|]. intros H.
    apply andb_true_iff in H as [Hx Hs]. apply N.eqb_eq in Hx. subst y.
    destruct (IH _ Hs) as [post ->]. now exists post.
Qed.

Lemma matchAt_metaRe_opening (pos : nat) (s : str) :
  startsWith s (js "<!--") = false -> matchAt metaRe pos s = None.
Proof.
  intros H. unfold matchAt, metaRe. cbn [cat rmatch]. now rewrite H.
Qed.

Lemma execFrom_metaRe_no_opening (s : str) :
  ~ occursIn (js "<!--") s -> forall pos, execFrom metaRe pos s = None.
Proof.
  induction s as [|c s IH]; intros Hno pos; cbn [execFrom].
  - now rewrite matchAt_metaRe_opening.
  - rewrite matchAt_metaRe_opening.
    + apply IH. intros (pre & post & ->). apply Hno. now exists (c :: pre), post.
    + destruct (startsWith (c :: s) (js "<!--")) eqn:E; [|reflexivity].
      exfalso. apply Hno. apply startsWith_prefix in E as [post E].
      now exists [], post.
Qed.

(** A match goes on with its continuation somewhere further in the
    input: when the continuation fails everywhere, so does the match. *)

Lemma isSuffix_refl (s : str) : isSuffix s s.
Proof. now exists []. Qed.

Lemma isSuffix_tail (c : N) (t s : str) : isSuffix (c :: t) s -> isSuffix t s.
Proof.
  intros [pre ->]. exists (pre ++ [c]). now rewrite <- app_assoc.
Qed.

Lemma isSuffix_skipn (n : nat) (t s : str) : isSuffix t s -> isSuffix (skipn n t) s.
Proof.
  intros [pre ->]. exists (pre ++ firstn n t).
  now rewrite <- app_assoc, firstn_skipn.
Qed.

Lemma starGreedy_fails {R : Type} (p : N -> bool) (k : @cont R) (s : str) :
  failsIn k s -> failsIn (fun pos t caps => starGreedy p pos t caps k) s.
Proof.
  intros Hk pos t. revert pos. induction t as [|c t IH]; intros pos caps Ht; simpl.
  - now apply Hk.
  - destruct (p c).
    + rewrite (IH (S pos) caps (isSuffix_tail _ _ _ Ht)). now apply Hk.
    + now apply Hk.
Qed.

Lemma starLazy_fails {R : Type} (p : N -> bool) (k : @cont R) (s : str) :
  failsIn k s -> failsIn (fun pos t caps => starLazy p pos t caps k) s.
Proof.
  intros Hk pos t. revert pos. induction t as [|c t IH]; intros pos caps Ht; simpl.
  - now rewrite (Hk pos [] caps Ht).
  - rewrite (Hk pos (c :: t) caps Ht). destruct (p c); [|reflexivity].
    apply IH. now apply isSuffix_tail in Ht.
Qed.

Lemma rmatch_fails {R : Type} (r : regex) :
  forall (k : @cont R) (s : str),
    failsIn k s -> failsIn (fun pos t caps => rmatch r pos t caps k) s.
Proof.
  induction r as [|l|p|r1 IH1 r2 IH2|r1 IH1 r2 IH2|g p|i r IH| |];
    intros k s Hk pos t caps Ht; cbn [rmatch].
  - now apply Hk.
  - destruct (startsWith t l); [|reflexivity].
    apply Hk. now apply isSuffix_skipn.
  - destruct t as [|c t]; [reflexivity|]. destruct (p c); [|reflexivity].
    apply Hk. now apply isSuffix_tail in Ht.
  - apply (IH1 (fun pos' s' caps' => rmatch r2 pos' s' caps' k) s); [|exact Ht].
    now apply IH2.
  - rewrite (IH1 k s Hk pos t caps Ht). exact (IH2 k s Hk pos t caps Ht).
  - destruct g.
    + now apply (starGreedy_fails p k s Hk).
    + now apply (starLazy_fails p k s Hk).
  - apply (IH (fun pos' s' caps' =>
                 k pos' s' ((i, firstn (pos' - pos) t) :: caps')) s); [|exact Ht].
    intros pos' t' caps' Ht'. now apply Hk.
  - destruct (Nat.eqb pos 0); [|reflexivity]. now apply Hk.
  - destruct t; [|reflexivity]. now apply Hk.
Qed.

Lemma closing_fails {R : Type} (k : @cont R) (s : str) :
  ~ occursIn (js "-->") s ->
  failsIn (fun pos t caps => rmatch (Lit (js "-->")) pos t caps k) s.
Proof.
  intros Hno pos t caps [pre ->]. cbn [rmatch].
  destruct (startsWith t (js "-->")) eqn:E; [|reflexivity].
  exfalso. apply Hno. apply startsWith_prefix in E as [post ->].
  now exists pre, post.
Qed.

Lemma rmatch_seq_fails {R : Type} (r1 r2 : regex) (k : @cont R) (s : str) :
  failsIn (fun pos t caps => rmatch r2 pos t caps k) s ->
  failsIn (fun pos t caps => rmatch (Seq r1 r2) pos t caps k) s.
Proof.
  intros H pos t caps Ht. cbn [rmatch].
  exact (rmatch_fails r1 _ s H pos t caps Ht).
Qed.

Lemma metaRe_fails {R : Type} (k : @cont R) (s : str) :
  ~ occursIn (js "-->") s ->
  failsIn (fun pos t caps => rmatch metaRe pos t caps k) s.
Proof.
  intros Hno. unfold metaRe. cbn [cat].
  repeat apply rmatch_seq_fails. now apply closing_fails.
Qed.

Lemma execFrom_metaRe_no_closing (s : str) :
  ~ occursIn (js "-->") s -> exec metaRe s = None.
Proof.
  intros Hno. unfold exec.
  assert (H : forall t pos, isSuffix t s -> execFrom metaRe pos t = None).
  { induction t as [|c t IH]; intros pos Ht; cbn [execFrom]; unfold matchAt.
    - now rewrite (metaRe_fails _ s Hno pos [] [] Ht).
    - rewrite (metaRe_fails _ s Hno pos (c :: t) [] Ht).
      apply IH. now apply isSuffix_tail in Ht. }
  apply H, isSuffix_refl.
Qed.

(** C6. Without content, [parseMeta] returns the empty meta and the empty
    body; on a content in which the expression of the meta block finds no
    match, as is every content without the opening token or without the
    closing token, it returns the empty meta and the content trimmed, that
    is the content without the white space at its two ends. *)
Theorem parseMeta_without_block :
  parseMeta None = (ProjectMeta.empty, []) /\
  (forall content : str,
      exec metaRe content = None ->
      parseMeta (Some content) = (ProjectMeta.empty, trim content) /\
      isTrimOf (snd (parseMeta (Some content))) content) /\
  (forall content : str,
      ~ occursIn (js "<!--") content \/ ~ occursIn (js "-->") content ->
      exec metaRe content = None).
Proof.
  split; [reflexivity|]. split.
  - intros content Hno.
    assert (E : parseMeta (Some content) = (ProjectMeta.empty, trim content)).
    { unfold parseMeta. destruct content as [|c s]; [reflexivity|].
      now rewrite Hno. }
    split; [exact E|]. rewrite E. apply trim_isTrimOf.
  - intros content [Hno|Hno].
    + now apply execFrom_metaRe_no_opening.
    + now apply execFrom_metaRe_no_closing.
Qed.

Lemma parseMeta_without_block_witness :
  exec metaRe (js "  One line, <!-- meta --> and no block.  ") = None /\
  parseMeta (Some (js "  One line, <!-- meta --> and no block.  ")) =
    (ProjectMeta.empty, js "One line, <!-- meta --> and no block.").
Proof.
  split; [reflexivity|].
  apply (proj1 (proj2 parseMeta_without_block)
           (js "  One line, <!-- meta --> and no block.  ")).
  reflexivity.
Defined.

(** ** C8: the page path *)

(** C8. A path without the leading slash finds what the same path with
    the slash finds. *)
Theorem getInitiativeByPagePath_slash (host : Host) (w : World) (p : str) :
  startsWith p (js "/") = false ->
  getInitiativeByPagePath w p = getInitiativeByPagePath w (js "/" ++ p).
Proof.
  intros Hp. unfold getInitiativeByPagePath, normalizePath.
  rewrite Hp. change (startsWith (js "/" ++ p) (js "/")) with true.
  reflexivity.
Qed.

Lemma getInitiativeByPagePath_slash_witness :
  startsWith (js "puppet") (js "/") = false /\
  @getInitiativeByPagePath asciiHost (worldOf [fooNode; puppetNode]) (js "puppet") =
  @getInitiativeByPagePath asciiHost (worldOf [fooNode; puppetNode]) (js "/puppet").
Proof.
  split; [reflexivity|].
  apply (getInitiativeByPagePath_slash asciiHost (worldOf [fooNode; puppetNode])
           (js "puppet")).
  reflexivity.
Defined.

(** ** C3: the cost estimate *)

Lemma setField_cost (meta : ProjectMeta.t) (key value : str) :
  ProjectMeta.cost_estimate (setField meta key value) =
  if str_eqb key (js "cost_estimate") then Some (costOf value)
  else ProjectMeta.cost_estimate meta.
Proof.
  destruct meta as [u c os ot sd pp]. unfold setField.
  destruct (str_eqb key (js "url")) eqn:E.
  { apply str_eqb_eq in E. subst key. reflexivity. }
  destruct (str_eqb key (js "cost_estimate")); [reflexivity|].
  repeat match goal with
         | |- context [if ?b then _ else _] => destruct b; try reflexivity
         end.
Qed.

Lemma parseLine_cost (meta : ProjectMeta.t) (line : str) :
  ProjectMeta.cost_estimate (parseLine meta line) =
  match costLine line with
  | Some v => Some (costOf v)
  | None => ProjectMeta.cost_estimate meta
  end.
Proof.
  unfold parseLine, costLine. destruct (exec lineRe line) as [m|]; [|reflexivity].
  rewrite setField_cost. now destruct (str_eqb (group 1 m) (js "cost_estimate")).
Qed.

Lemma fold_parseLine_no_cost (lines : list str) :
  Forall (fun l => costLine l = None) lines ->
  forall meta,
    ProjectMeta.cost_estimate (fold_left parseLine lines meta) =
    ProjectMeta.cost_estimate meta.
Proof.
  induction 1 as [|line lines Hl _ IH]; intros meta; simpl; [reflexivity|].
  now rewrite IH, parseLine_cost, Hl.
Qed.

Lemma fold_parseLine_last_cost (before after : list str) (line v : str) :
  costLine line = Some v ->
  Forall (fun l => costLine l = None) after ->
  forall meta,
    ProjectMeta.cost_estimate (fold_left parseLine (before ++ line :: after) meta) =
    Some (costOf v).
Proof.
  intros Hv Hafter meta. rewrite fold_left_app. simpl.
  now rewrite fold_parseLine_no_cost, parseLine_cost, Hv.
Qed.

Lemma parseMeta_lines (content : option str) :
  fst (parseMeta content) = fold_left parseLine (metaLines content) ProjectMeta.empty.
Proof.
  unfold parseMeta, metaLines. destruct content as [[|c s]|]; try reflexivity.
  now destruct (exec metaRe (c :: s)).
Qed.

Lemma cost_estimate_meta (host : Host) (project : LinearProjectNode.t) :
  Initiative.cost_estimate (projectToInitiative project) =
  orNum (ProjectMeta.cost_estimate
           (fst (parseMeta (LinearProjectNode.content project)))) (num 0).
Proof. now initiative_field. Qed.

Lemma orNum_not_NaN (a : option number) : orNum a (num 0) <> NaN.
Proof.
  destruct a as [x|]; simpl; [|discriminate].
  destruct x; simpl; try discriminate. now destruct (isZeroQ q).
Qed.

Lemma orNum_costOf (v : str) : orNum (Some (costOf v)) (num 0) = costOf v.
Proof.
  unfold costOf. simpl. destruct (truthyNum (Number v)) eqn:E.
  - now rewrite E.
  - reflexivity.
Qed.

(** C3, as amended. The cost estimate is a number, never NaN; it is 0 when
    no line of the meta block sets [cost_estimate]; otherwise the last such
    line decides, and a value that [Number] does not read (NaN) gives 0.
    Nothing here raises. *)
Theorem cost_estimate_of_meta (host : Host) (project : LinearProjectNode.t) :
  Initiative.cost_estimate (projectToInitiative project) <> NaN /\
  (Forall (fun l => costLine l = None)
          (metaLines (LinearProjectNode.content project)) ->
   Initiative.cost_estimate (projectToInitiative project) = num 0) /\
  (forall before line after v,
      metaLines (LinearProjectNode.content project) = before ++ line :: after ->
      costLine line = Some v ->
      Forall (fun l => costLine l = None) after ->
      Initiative.cost_estimate (projectToInitiative project) =
        orNum (Some (Number v)) (num 0) /\
      (Number v = NaN ->
       Initiative.cost_estimate (projectToInitiative project) = num 0)).
Proof.
  rewrite cost_estimate_meta, parseMeta_lines.
  split; [apply orNum_not_NaN|]. split.
  - intros Hnone. now rewrite fold_parseLine_no_cost.
  - intros before line after v Hlines Hv Hafter.
    rewrite Hlines, (fold_parseLine_last_cost _ _ _ _ Hv Hafter), orNum_costOf.
    split; [reflexivity|]. intros Hnan. unfold costOf. now rewrite Hnan.
Qed.

Lemma cost_estimate_of_meta_witness :
  Initiative.cost_estimate (@projectToInitiative asciiHost namelessNode) = num 0 /\
  Initiative.cost_estimate (@projectToInitiative asciiHost nonNumericCostNode) = num 0.
Proof.
  split.
  - apply (proj1 (proj2 (cost_estimate_of_meta asciiHost namelessNode))).
    constructor.
  - apply (proj2 (cost_estimate_of_meta asciiHost nonNumericCostNode))
      with (before := [js "cost_estimate: 1200"])
           (line := js "cost_estimate: notanumber")
           (after := [js "subdomain: words"; []])
           (v := js "notanumber").
    + reflexivity.
    + reflexivity.
    + repeat constructor.
    + reflexivity.
Defined.

(** C3, as stated, fails: a negative or a fractional value in the meta
    block goes through to the initiative as it is. *)
Lemma cost_estimate_negative_example :
  Initiative.cost_estimate (@projectToInitiative asciiHost negativeCostNode) =
    Fin (-5 # 1) /\
  ~ isNonNegInteger
      (Initiative.cost_estimate (@projectToInitiative asciiHost negativeCostNode)) /\
  Initiative.cost_estimate (@projectToInitiative asciiHost fractionalCostNode) =
    Fin (3 # 2) /\
  ~ isNonNegInteger
      (Initiative.cost_estimate (@projectToInitiative asciiHost fractionalCostNode)).
Proof.
  assert (E1 : Initiative.cost_estimate
                 (@projectToInitiative asciiHost negativeCostNode) = Fin (-5 # 1))
    by reflexivity.
  assert (E2 : Initiative.cost_estimate
                 (@projectToInitiative asciiHost fractionalCostNode) = Fin (3 # 2))
    by reflexivity.
  rewrite E1, E2. repeat split.
  - intros [n Hn]. unfold num, inject_Z in Hn. injection Hn as Hn. lia.
  - intros [n Hn]. unfold num, inject_Z in Hn. discriminate Hn.
Qed.

(** ** The sort *)

Section Sorting.
Context {A : Type} (cmp : A -> A -> Z).
Hypothesis cmp_total : forall x y, (0 < cmp x y)%Z -> (cmp y x <= 0)%Z.

Lemma insertSorted_HdRel (x a : A) (l : list A) :
  notAfter cmp a x -> HdRel (notAfter cmp) a l ->
  HdRel (notAfter cmp) a (insertSorted cmp x l).
Proof.
  intros Hax Hl. destruct l as [|y l]; simpl.
  - now constructor.
  - destruct (cmp x y <=? 0)%Z; constructor; trivial.
    now inversion Hl.
Qed.

Lemma insertSorted_Sorted (x : A) (l : list A) :
  Sorted (notAfter cmp) l -> Sorted (notAfter cmp) (insertSorted cmp x l).
Proof.
  induction 1 as [|y l Hs IH Hhd]; simpl.
  - repeat constructor.
  - destruct (cmp x y <=? 0)%Z eqn:E.
    + apply Z.leb_le in E. repeat constructor; trivial.
    + apply Z.leb_gt in E. constructor; [exact IH|].
      apply insertSorted_HdRel; [|exact Hhd]. now apply cmp_total.
Qed.

Lemma sort_Sorted (l : list A) : Sorted (notAfter cmp) (sort cmp l).
Proof.
  induction l as [|x l IH]; simpl; [constructor|].
  now apply insertSorted_Sorted.
Qed.
End Sorting.

Lemma Sorted_adjacentIn {A : Type} (R : A -> A -> Prop) (l : list A) :
  Sorted R l -> adjacentIn R l.
Proof.
  intros Hs l1. revert l Hs. induction l1 as [|x l1 IH]; intros l Hs a b l2 E; subst l.
  - simpl in Hs. inversion Hs as [|? ? _ Hhd]; subst. now inversion Hhd.
  - simpl in Hs. inversion Hs as [|? ? Hs' _]; subst. now apply (IH _ Hs' a b l2).
Qed.

Lemma insertSorted_Permutation {A : Type} (cmp : A -> A -> Z) (x : A) (l : list A) :
  Permutation (x :: l) (insertSorted cmp x l).
Proof.
  induction l as [|y l IH]; simpl; [reflexivity|].
  destruct (cmp x y <=? 0)%Z; [reflexivity|].
  rewrite perm_swap. now constructor.
Qed.

Lemma sort_Permutation {A : Type} (cmp : A -> A -> Z) (l : list A) :
  Permutation l (sort cmp l).
Proof.
  induction l as [|x l IH]; simpl; [constructor|].
  rewrite <- insertSorted_Permutation. now constructor.
Qed.

Lemma getAllInitiatives_fulfilled (host : Host) (w : World) (l : list Initiative.t) :
  getAllInitiatives w = Fulfilled l ->
  exists nodes, gql w = Fulfilled (Some nodes) /\ l = initiativesOf nodes.
Proof.
  unfold getAllInitiatives.
  destruct (gql w) as [e|[nodes|]]; simpl; try discriminate.
  intros H. injection H as <-. now exists nodes.
Qed.

(** ** C5: the order of the list *)

Lemma compareUnits_antisym (a b : str) :
  compareUnits b a = CompOpp (compareUnits a b).
Proof.
  revert b; induction a as [|x a IH]; intros [|y b]; simpl; try reflexivity.
  rewrite (N.compare_antisym x y). destruct (x ?= y); simpl; auto.
Qed.

Lemma rootCompare_antisym (a b : str) : rootCompare b a = (- rootCompare a b)%Z.
Proof.
  unfold rootCompare.
  rewrite (compareUnits_antisym (map collationRank a) (map collationRank b)).
  rewrite (compareUnits_antisym b a).
  destruct (compareUnits (map collationRank a) (map collationRank b)); simpl;
    try reflexivity.
  now destruct (compareUnits b a).
Qed.

Lemma rootCompare_total (a b : str) :
  (0 < rootCompare a b)%Z -> (rootCompare b a <= 0)%Z.
Proof. rewrite rootCompare_antisym. lia. Qed.

Lemma rootCompare_sign (a b : str) : Z.sgn (rootCompare a b) = rootCompare a b.
Proof.
  unfold rootCompare.
  destruct (compareUnits (map collationRank a) (map collationRank b));
    try reflexivity.
  now destruct (compareUnits b a).
Qed.

Lemma isPlain_listed (c : N) : isPlain c = true -> In c plainChars.
Proof.
  intros H. unfold plainChars. apply filter_In. split; [|exact H].
  assert (Hc : c <= 122).
  { unfold isPlain, isLowerAZ, isUpperAZ, isDigit, inRange in H.
    rewrite !orb_true_iff, !andb_true_iff, !N.leb_le, N.eqb_eq in H. lia. }
  rewrite <- (N2Nat.id c). apply in_map, in_seq. lia.
Qed.

(** On the plain characters the collation follows the code units of the
    small letters: the table is read entry by entry. *)
Lemma collationRank_plain (x y : N) :
  isPlain x = true -> isPlain y = true ->
  (collationRank x ?= collationRank y) =
  ((if isUpperAZ x then x + 32 else x) ?= (if isUpperAZ y then y + 32 else y)).
Proof.
  intros Hx Hy.
  assert (Hall : forallb (fun a => forallb (fun b =>
            match collationRank a ?= collationRank b,
                  (if isUpperAZ a then a + 32 else a) ?=
                  (if isUpperAZ b then b + 32 else b) with
            | Eq, Eq | Lt, Lt | Gt, Gt => true
            | _, _ => false
            end) plainChars) plainChars = true) by (vm_compute; reflexivity).
  rewrite forallb_forall in Hall.
  specialize (Hall x (isPlain_listed x Hx)).
  rewrite forallb_forall in Hall.
  specialize (Hall y (isPlain_listed y Hy)).
  destruct (collationRank x ?= collationRank y),
    ((if isUpperAZ x then x + 32 else x) ?= (if isUpperAZ y then y + 32 else y));
    try reflexivity; discriminate Hall.
Qed.

Lemma compareUnits_plain (a : str) :
  plainName a -> forall b, plainName b ->
  compareUnits (map collationRank a) (map collationRank b) =
  compareUnits (asciiLower a) (asciiLower b).
Proof.
  unfold asciiLower.
  induction 1 as [|x a Hx _ IH]; intros b Hb; destruct Hb as [|y b Hy Hb];
    cbn [map compareUnits]; try reflexivity.
  rewrite (collationRank_plain x y Hx Hy), (IH b Hb). reflexivity.
Qed.

(** Two plain names that the root collation puts in this order are in this
    order without their case. *)
Lemma rootCompare_plain (a b : str) :
  plainName a -> plainName b ->
  (rootCompare a b <= 0)%Z -> caseInsensitiveLe a b.
Proof.
  intros Ha Hb. unfold rootCompare, caseInsensitiveLe.
  rewrite (compareUnits_plain a Ha b Hb).
  destruct (compareUnits (asciiLower a) (asciiLower b)); simpl;
    intros H; try discriminate. lia.
Qed.

(** C5, as amended. The list of [getAllInitiatives] is ascending by name in
    the collation of the host, which is total: each initiative stands
    before its successor in it. On a host whose collation is the root
    collation on names made of ASCII letters, digits and spaces, two such
    names that follow each other are in order when their case is ignored,
    code unit by code unit. *)
Theorem getAllInitiatives_sorted (host : Host) :
  (forall a b, (0 < localeCompare a b)%Z -> (localeCompare b a <= 0)%Z) ->
  (forall a b, plainName a -> plainName b ->
               Z.sgn (localeCompare a b) = rootCompare a b) ->
  forall (w : World) (l : list Initiative.t),
    getAllInitiatives w = Fulfilled l ->
    adjacentIn (fun a b =>
                  (localeCompare (Initiative.name a) (Initiative.name b) <= 0)%Z /\
                  (plainName (Initiative.name a) -> plainName (Initiative.name b) ->
                   caseInsensitiveLe (Initiative.name a) (Initiative.name b))) l.
Proof.
  intros Htotal Hroot w l Hl.
  destruct (getAllInitiatives_fulfilled _ _ _ Hl) as (nodes & _ & ->).
  assert (Hs : Sorted (notAfter byName) (initiativesOf nodes)).
  { unfold initiativesOf. apply sort_Sorted.
    intros x y. unfold byName. apply Htotal. }
  intros l1 a b l2 E.
  pose proof (Sorted_adjacentIn _ _ Hs l1 a b l2 E) as Hab.
  unfold notAfter, byName in Hab. split; [exact Hab|].
  intros Ha Hb. apply rootCompare_plain; trivial.
  rewrite <- (Hroot _ _ Ha Hb).
  destruct (localeCompare (Initiative.name a) (Initiative.name b)); simpl; lia.
Qed.

Lemma getAllInitiatives_sorted_witness :
  @getAllInitiatives asciiHost (worldOf [puppetNode; zooNode; fooNode]) =
    Fulfilled [fooInitiative; puppetInitiative;
               @projectToInitiative asciiHost zooNode] /\
  (rootCompare (js "Foo") (js "Puppet") <= 0)%Z /\
  caseInsensitiveLe (js "Foo") (js "Puppet").
Proof.
  split; [reflexivity|].
  destruct (getAllInitiatives_sorted asciiHost rootCompare_total
              (fun a b _ _ => rootCompare_sign a b)
              (worldOf [puppetNode; zooNode; fooNode])
              [fooInitiative; puppetInitiative;
               @projectToInitiative asciiHost zooNode]
              eq_refl [] fooInitiative puppetInitiative
              [@projectToInitiative asciiHost zooNode] eq_refl) as [H1 H2].
  split; [exact H1|]. apply H2; repeat constructor.
Defined.

(** C5, as stated, fails: the collation puts the tilde before the letters,
    so "~archive" stands before "Zoo" in the list, while without their case
    and code unit by code unit "zoo" comes first. *)
Lemma collation_order_example :
  @getAllInitiatives asciiHost (worldOf [zooNode; archiveNode]) =
    Fulfilled [@projectToInitiative asciiHost archiveNode;
               @projectToInitiative asciiHost zooNode] /\
  ~ caseInsensitiveLe
      (Initiative.name (@projectToInitiative asciiHost archiveNode))
      (Initiative.name (@projectToInitiative asciiHost zooNode)).
Proof.
  split; [reflexivity|]. intros H. apply H. reflexivity.
Qed.

(** ** C9: two projects, one slug *)

Lemma find_first {A : Type} (f : A -> bool) (l : list A) (x : A) :
  find f l = Some x <->
  exists l1 l2, l = l1 ++ x :: l2 /\ f x = true /\ Forall (fun y => f y = false) l1.
Proof.
  induction l as [|y l IH]; simpl.
  - split; [discriminate|]. intros (l1 & l2 & E & _). now destruct l1.
  - destruct (f y) eqn:Hy.
    + split.
      * intros H. injection H as <-. exists [], l. auto.
      * intros (l1 & l2 & E & Hx & Hl1). destruct l1 as [|z l1].
        -- simpl in E. now injection E as ->.
        -- simpl in E. injection E as -> _. inversion Hl1; congruence.
    + rewrite IH. split.
      * intros (l1 & l2 & -> & Hx & Hl1). exists (y :: l1), l2. auto.
      * intros (l1 & l2 & E & Hx & Hl1). destruct l1 as [|z l1].
        -- simpl in E. injection E as -> _. congruence.
        -- simpl in E. injection E as -> ->. exists l1, l2.
           inversion Hl1. auto.
Qed.

Lemma find_none {A : Type} (f : A -> bool) (l : list A) :
  find f l = None <-> Forall (fun y => f y = false) l.
Proof.
  induction l as [|y l IH]; simpl.
  - split; auto.
  - destruct (f y) eqn:Hy.
    + split; [discriminate|]. intros H. inversion H; congruence.
    + rewrite IH. split; [now constructor | now inversion 1].
Qed.

Lemma slugIs_true (s : str) (i : Initiative.t) :
  slugIs s i = true <-> Initiative.slug i = s.
Proof. apply str_eqb_eq. Qed.

Lemma slugIs_false (s : str) (i : Initiative.t) :
  slugIs s i = false <-> Initiative.slug i <> s.
Proof.
  unfold slugIs. split.
  - intros H E. apply str_eqb_eq in E. congruence.
  - apply str_eqb_neq.
Qed.

Lemma getInitiativeBySlug_find (host : Host) (w : World) (l : list Initiative.t)
    (s : str) :
  getAllInitiatives w = Fulfilled l ->
  getInitiativeBySlug w s = Fulfilled (find (slugIs s) l).
Proof. unfold getInitiativeBySlug. now intros ->. Qed.

(** C9, as amended. [getInitiativeBySlug] returns the first initiative of
    the name-sorted list that has the slug: when several initiatives share a
    slug, the one sorted first shadows the others; it returns [null] when no
    initiative has the slug. *)
Theorem getInitiativeBySlug_first (host : Host) (w : World)
    (l : list Initiative.t) (s : str) :
  getAllInitiatives w = Fulfilled l ->
  (forall i,
      getInitiativeBySlug w s = Fulfilled (Some i) <->
      exists l1 l2,
        l = l1 ++ i :: l2 /\ Initiative.slug i = s /\
        Forall (fun j => Initiative.slug j <> s) l1) /\
  (getInitiativeBySlug w s = Fulfilled None <->
   Forall (fun j => Initiative.slug j <> s) l).
Proof.
  intros Hl. rewrite (getInitiativeBySlug_find _ _ _ s Hl). split.
  - intros i. split.
    + intros H. injection H as H. apply find_first in H as (l1 & l2 & E & Hi & Hl1).
      exists l1, l2. repeat split; trivial.
      * now apply slugIs_true.
      * eapply Forall_impl; [|exact Hl1]. intros j. apply slugIs_false.
    + intros (l1 & l2 & E & Hi & Hl1). f_equal. apply find_first.
      exists l1, l2. repeat split; trivial.
      * now apply slugIs_true.
      * eapply Forall_impl; [|exact Hl1]. intros j. apply slugIs_false.
  - split.
    + intros H. injection H as H. apply find_none in H.
      eapply Forall_impl; [|exact H]. intros j. apply slugIs_false.
    + intros H. f_equal. apply find_none.
      eapply Forall_impl; [|exact H]. intros j. apply slugIs_false.
Qed.

Lemma getInitiativeBySlug_first_witness :
  @getAllInitiatives asciiHost (worldOf [fooBangNode; fooNode]) =
    Fulfilled [fooInitiative; fooBangInitiative] /\
  @getInitiativeBySlug asciiHost (worldOf [fooBangNode; fooNode]) (js "foo") =
    Fulfilled (Some fooInitiative).
Proof.
  split; [reflexivity|].
  apply (proj1 (getInitiativeBySlug_first asciiHost (worldOf [fooBangNode; fooNode])
                  [fooInitiative; fooBangInitiative] (js "foo") eq_refl)).
  exists [], [fooBangInitiative]. repeat split. constructor.
Defined.

(** C9, as stated, fails: "Foo" and "Foo!" both have the slug "foo", the
    name-sorted list is "Foo", "Foo!", and the lookup of "foo" returns
    "Foo", the first of the two, not "Foo!", the last. *)
Lemma slug_collision_example :
  @getAllInitiatives asciiHost (worldOf [fooBangNode; fooNode]) =
    Fulfilled [fooInitiative; fooBangInitiative] /\
  Initiative.name fooInitiative = js "Foo" /\
  Initiative.name fooBangInitiative = js "Foo!" /\
  Initiative.slug fooInitiative = js "foo" /\
  Initiative.slug fooBangInitiative = js "foo" /\
  @getInitiativeBySlug asciiHost (worldOf [fooBangNode; fooNode]) (js "foo") =
    Fulfilled (Some fooInitiative) /\
  @getInitiativeBySlug asciiHost (worldOf [fooBangNode; fooNode]) (js "foo") <>
    Fulfilled (Some fooBangInitiative).
Proof.
  repeat match goal with |- _ /\ _ => split end; try reflexivity.
  intros H. discriminate H.
Qed.

(** ** C10: a name without a letter or a digit *)

Lemma starGreedy_all {R : Type} (p : N -> bool) (s : str) :
  Forall (fun c => p c = true) s ->
  forall (pos : nat) (caps : captures) (k : @cont R) (r : R),
    k (pos + length s)%nat [] caps = Some r ->
    starGreedy p pos s caps k = Some r.
Proof.
  induction 1 as [|c s Hc _ IH]; intros pos caps k r Hk; simpl in *.
  - now rewrite Nat.add_0_r in Hk.
  - rewrite Hc. rewrite (IH (S pos) caps k r); [reflexivity|].
    now rewrite <- Nat.add_succ_comm in Hk.
Qed.

Lemma replaceAll_nonSlug (s : str) :
  Forall (fun c => isSlugChar c = false) s ->
  replaceAll nonSlugRe (js "-") s = match s with [] => [] | _ :: _ => js "-" end.
Proof.
  intros Hs. destruct s as [|c t]; [reflexivity|].
  inversion Hs as [|? ? Hc Ht]; subst.
  unfold replaceAll. cbn [length replaceLoop].
  assert (E : execFrom nonSlugRe 0 (c :: t) =
              Some (mkMatch 0 (S (length t)) (firstn (S (length t) - 0) (c :: t))
                            [] [])).
  { cbn [execFrom]. unfold matchAt, nonSlugRe, Plus. cbn [rmatch].
    rewrite Hc. cbn [negb].
    erewrite starGreedy_all; [reflexivity| |reflexivity].
    eapply Forall_impl; [|exact Ht]. intros a Ha. now rewrite Ha. }
  rewrite E. cbn [m_end m_index m_rest Nat.eqb Nat.sub firstn app].
  reflexivity.
Qed.

Lemma slugOf_empty (host : Host) (name : str) :
  Forall (fun c => isSlugChar c = false) (toLowerCase name) -> slugOf name = [].
Proof.
  intros H. unfold slugOf. rewrite (replaceAll_nonSlug _ H).
  now destruct (toLowerCase name).
Qed.

Lemma slug_of_project (host : Host) (project : LinearProjectNode.t) :
  Initiative.slug (projectToInitiative project) =
  slugOf (LinearProjectNode.name project).
Proof. now initiative_field. Qed.

Lemma insertSorted_In {A : Type} (cmp : A -> A -> Z) (x y : A) (l : list A) :
  In y (insertSorted cmp x l) <-> y = x \/ In y l.
Proof.
  induction l as [|z l IH]; simpl.
  - intuition.
  - destruct (cmp x z <=? 0)%Z; simpl; [intuition|]. rewrite IH. intuition.
Qed.

Lemma sort_In {A : Type} (cmp : A -> A -> Z) (y : A) (l : list A) :
  In y (sort cmp l) <-> In y l.
Proof.
  induction l as [|x l IH]; simpl; [reflexivity|].
  rewrite insertSorted_In, IH. intuition.
Qed.

Lemma initiativesOf_In (host : Host) (nodes : list LinearProjectNode.t)
    (project : LinearProjectNode.t) :
  In project nodes -> notCanceled project = true ->
  In (projectToInitiative project) (initiativesOf nodes).
Proof.
  intros Hin Hnc. unfold initiativesOf. apply sort_In, in_map, filter_In. auto.
Qed.

Lemma find_exists {A : Type} (f : A -> bool) (l : list A) (x : A) :
  In x l -> f x = true -> exists y, find f l = Some y /\ f y = true.
Proof.
  intros Hin Hx. destruct (find f l) as [y|] eqn:E.
  - exists y. split; [reflexivity|]. now apply find_some in E.
  - exfalso. pose proof (find_none_iff_false := find_none f l).
    apply find_none_iff_false in E. rewrite Forall_forall in E.
    specialize (E x Hin). congruence.
Qed.

(** C10. When the lower-cased name of a project has no code unit in a-z
    or 0-9, the initiative is built all the same and its slug is the empty
    string; a lookup by slug that returns it is a lookup of the empty
    string; and once such a project is among those fetched and not
    canceled, the lookup of the empty string finds an initiative whose slug
    is empty. *)
Theorem empty_slug (host : Host) (project : LinearProjectNode.t) :
  Forall (fun c => isSlugChar c = false)
         (toLowerCase (LinearProjectNode.name project)) ->
  Initiative.slug (projectToInitiative project) = [] /\
  (forall (w : World) (s : str),
      getInitiativeBySlug w s = Fulfilled (Some (projectToInitiative project)) ->
      s = []) /\
  (forall (w : World) (nodes : list LinearProjectNode.t),
      gql w = Fulfilled (Some nodes) -> In project nodes -> notCanceled project = true ->
      exists i, getInitiativeBySlug w [] = Fulfilled (Some i) /\
                Initiative.slug i = []).
Proof.
  intros Hname.
  assert (Hslug : Initiative.slug (projectToInitiative project) = []).
  { rewrite slug_of_project. now apply slugOf_empty. }
  split; [exact Hslug|]. split.
  - intros w s. unfold getInitiativeBySlug.
    destruct (getAllInitiatives w) as [e|l]; simpl; [discriminate|].
    intros H. injection H as H. apply find_some in H as [_ H].
    apply slugIs_true in H. congruence.
  - intros w nodes Hgql Hin Hnc. unfold getInitiativeBySlug, getAllInitiatives.
    rewrite Hgql. simpl.
    destruct (find_exists (slugIs []) (initiativesOf nodes)
                (projectToInitiative project)) as (i & Hi & Hs).
    + now apply initiativesOf_In.
    + now apply slugIs_true.
    + exists i. rewrite Hi. split; [reflexivity|]. now apply slugIs_true.
Qed.

Lemma empty_slug_witness :
  Initiative.slug (@projectToInitiative asciiHost punctuationNode) = [] /\
  @getInitiativeBySlug asciiHost (worldOf [fooNode; punctuationNode]) [] =
    Fulfilled (Some (@projectToInitiative asciiHost punctuationNode)).
Proof.
  assert (H : Forall (fun c => isSlugChar c = false)
                (@toLowerCase asciiHost (LinearProjectNode.name punctuationNode)))
    by (repeat constructor).
  split.
  - apply (proj1 (empty_slug asciiHost punctuationNode H)).
  - reflexivity.
Defined.

(** ** C7: the average completeness *)

Lemma numAdd_num (a b : Z) : numAdd (num a) (num b) = num (a + b).
Proof.
  unfold numAdd, num, inject_Z, Qplus. cbn [Qnum Qden].
  rewrite !Z.mul_1_r. unfold Qred. cbn [Qnum Qden Pos.mul].
  pose proof (Z.ggcd_correct_divisors (a + b) 1) as Hd.
  pose proof (Z.ggcd_gcd (a + b) 1) as Hg.
  destruct (Z.ggcd (a + b) 1) as [g [aa bb]]. cbn [fst snd] in *.
  rewrite Z.gcd_1_r in Hg. subst g. destruct Hd as [Ha Hb].
  rewrite Z.mul_1_l in Ha, Hb. now subst.
Qed.

Lemma total_completeness (l : list Initiative.t) (zs : list Z) :
  map Initiative.completeness l = map num zs ->
  forall a,
    fold_left (fun sum i => numAdd sum (Initiative.completeness i)) l (num a) =
    num (a + fold_right Z.add 0 zs)%Z.
Proof.
  revert zs. induction l as [|i l IH]; intros [|z zs] H a;
    cbn [map fold_left fold_right] in *; try discriminate.
  - now rewrite Z.add_0_r.
  - injection H as Hi Hl. rewrite Hi, numAdd_num, (IH zs Hl).
    now rewrite Z.add_assoc.
Qed.

Lemma round_quotient (t : Z) (n : positive) :
  Math_round (numDiv (num t) (num (Z.pos n))) =
  num ((2 * t + Z.pos n) / (2 * Z.pos n)).
Proof.
  unfold numDiv, num. cbn [isZeroQ inject_Z Qnum Z.eqb]. cbn [Math_round].
  f_equal. f_equal.
  assert (E : (Qred (inject_Z t / inject_Z (Z.pos n)) + (1 # 2) ==
               (2 * t + Z.pos n) # (2 * n))%Q).
  { rewrite Qred_correct. unfold Qdiv, Qinv, Qmult, Qplus, Qeq, inject_Z.
    cbn [Qnum Qden]. rewrite ?Pos2Z.inj_mul. ring. }
  rewrite (Qfloor_comp _ _ E). reflexivity.
Qed.

Lemma completeness_of_project (host : Host) (project : LinearProjectNode.t) :
  Initiative.completeness (projectToInitiative project) =
  Math_round (numMul (LinearProjectNode.progress project) (num 100)).
Proof. now initiative_field. Qed.

Lemma completeness_integer (host : Host) (project : LinearProjectNode.t) :
  finiteProgress project ->
  exists z, Initiative.completeness (projectToInitiative project) = num z.
Proof.
  intros [q Hq]. rewrite completeness_of_project, Hq. simpl. eauto.
Qed.

Lemma integers_listed (l : list Initiative.t) :
  Forall (fun i => exists z, Initiative.completeness i = num z) l ->
  exists zs, map Initiative.completeness l = map num zs.
Proof.
  induction 1 as [|i l [z Hz] _ [zs IH]].
  - now exists [].
  - exists (z :: zs). simpl. now rewrite Hz, IH.
Qed.

Lemma initiativesOf_integers (host : Host) (nodes : list LinearProjectNode.t) :
  Forall finiteProgress nodes ->
  exists zs, map Initiative.completeness (initiativesOf nodes) = map num zs.
Proof.
  intros Hfin. apply integers_listed. apply Forall_forall. intros i Hi.
  unfold initiativesOf in Hi. apply sort_In, in_map_iff in Hi as (p & <- & Hp).
  apply filter_In in Hp as [Hp _]. apply completeness_integer.
  rewrite Forall_forall in Hfin. now apply Hfin.
Qed.

(** The rounded average is within one half of the average. *)
Lemma roundedAverage_nearest (zs : list Z) :
  zs <> [] ->
  let n := Z.of_nat (length zs) in
  let total := fold_right Z.add 0%Z zs in
  (2 * n * roundedAverage zs <= 2 * total + n < 2 * n * (roundedAverage zs + 1))%Z.
Proof.
  intros Hne n total. unfold roundedAverage. fold n. fold total.
  assert (Hn : (0 < 2 * n)%Z).
  { subst n. destruct zs; [contradiction|]. simpl length. lia. }
  pose proof (Z.mul_div_le (2 * total + n) (2 * n) Hn).
  pose proof (Z.mul_succ_div_gt (2 * total + n) (2 * n) Hn).
  lia.
Qed.

(** C7. On an empty list the average completeness is 0, returned and not
    raised, and nothing is divided; on a list that is not empty, whose
    completeness values are the integers [zs], it is their average rounded
    to the nearest integer, a tie going up; and the completeness values are
    integers whenever the progress of every project fetched is finite. *)
Theorem getAverageCompleteness_spec (host : Host) (w : World) :
  (getAllInitiatives w = Fulfilled [] ->
   getAverageCompleteness w = Fulfilled (num 0)) /\
  (forall (l : list Initiative.t) (zs : list Z),
      getAllInitiatives w = Fulfilled l ->
      l <> [] ->
      map Initiative.completeness l = map num zs ->
      getAverageCompleteness w = Fulfilled (num (roundedAverage zs))) /\
  (forall nodes : list LinearProjectNode.t,
      gql w = Fulfilled (Some nodes) ->
      Forall finiteProgress nodes ->
      exists zs, map Initiative.completeness (initiativesOf nodes) = map num zs).
Proof.
  unfold getAverageCompleteness. split; [|split].
  - now intros ->.
  - intros l zs -> Hne Hzs. simpl.
    destruct l as [|i l]; [contradiction|]. cbn [length Nat.eqb].
    rewrite (total_completeness _ _ Hzs). f_equal.
    assert (Hlen : length zs = length (i :: l)).
    { rewrite <- (length_map num zs), <- Hzs. apply length_map. }
    unfold roundedAverage. rewrite Hlen. cbn [length].
    rewrite Nat2Z.inj_succ, <- Zpos_P_of_succ_nat, Z.add_0_l.
    apply round_quotient.
  - intros nodes _. apply initiativesOf_integers.
Qed.

Lemma getAverageCompleteness_spec_witness :
  @getAverageCompleteness asciiHost (worldOf []) = Fulfilled (num 0) /\
  @getAverageCompleteness asciiHost (worldOf [fooNode; fooBangNode]) =
    Fulfilled (num 63).
Proof.
  split.
  - apply (proj1 (getAverageCompleteness_spec asciiHost (worldOf []))).
    reflexivity.
  - apply (proj1 (proj2 (getAverageCompleteness_spec asciiHost
                           (worldOf [fooNode; fooBangNode])))
             [fooInitiative; fooBangInitiative] [50; 75]%Z).
    + reflexivity.
    + discriminate.
    + reflexivity.
Defined.

(** ** The assembler on the sample project *)

Example puppet_issue_partition :
  Initiative.features puppetInitiative = [js "a"; js "b"] /\
  Initiative.next_milestones puppetInitiative = [js "c"; js "d"] /\
  Initiative.issue_count puppetInitiative = 5%nat /\
  Initiative.completed_issue_count puppetInitiative = 2%nat.
Proof. repeat split. Qed.

Example puppet_end_to_end :
  Initiative.status puppetInitiative = active /\
  Initiative.completeness puppetInitiative = num 42 /\
  Initiative.cost_estimate puppetInitiative = num 5000 /\
  Initiative.url puppetInitiative = js "https://puppet.inquiry.institute" /\
  Initiative.page_path puppetInitiative = Some (js "/puppet") /\
  Initiative.slug puppetInitiative = js "puppet" /\
  Initiative.description puppetInitiative = js "Puppet".
Proof. repeat split. Qed.

Example link_stripped :
  stripMarkdownLinks (js "[https://x.com](<https://x.com>)") = js "https://x.com".
Proof. reflexivity. Qed.

Example fetch_errors :
  @getAverageCompleteness asciiHost (mkWorld None None None) = Rejected MissingApiKey /\
  @getAllInitiatives asciiHost
     (mkWorld (Some (js "k")) None
              (Some (mkResponse false 500 (js "Server Error") NotJson))) =
    Rejected (ApiError 500 (js "Server Error")) /\
  @getAllInitiatives asciiHost
     (mkWorld (Some (js "k")) None
              (Some (mkResponse true 200 (js "OK")
                       (JsonValue (Some [Some (js "bad query")]) None)))) =
    Rejected (GraphQLError (Some (js "bad query"))) /\
  @getAllInitiatives asciiHost
     (mkWorld (Some (js "k")) None (Some (mkResponse true 200 (js "OK") NotJson))) =
    Rejected JsonSyntaxError /\
  gql (mkWorld (Some (js "k")) None
         (Some (mkResponse true 200 (js "OK") (JsonValue None None)))) =
    Fulfilled None /\
  @getAllInitiatives asciiHost
     (mkWorld (Some (js "k")) None
              (Some (mkResponse true 200 (js "OK") (JsonValue None None)))) =
    Rejected TypeError.
Proof. repeat split. Qed.

(** * The matcher: what it finds and what it prefers *)

Lemma startsWith_app (l t : str) : startsWith (l ++ t) l = true.
Proof.
  induction l as [|x l IH]; simpl; [reflexivity|]. now rewrite N.eqb_refl.
Qed.

Lemma skipn_app_length (l t : str) : skipn (length l) (l ++ t) = t.
Proof. induction l as [|x l IH]; simpl; auto. Qed.

Lemma firstn_app_length (l t : str) : firstn (length l) (l ++ t) = l.
Proof. induction l as [|x l IH]; simpl; [now destruct t|]. now rewrite IH. Qed.

Lemma startsWith_true (s p : str) :
  startsWith s p = true -> s = p ++ skipn (length p) s.
Proof.
  revert s. induction p as [|x p IH]; intros s; simpl; [reflexivity|].
  destruct s as [|y s]; [discriminate|]. intros H.
  apply andb_true_iff in H as [Hx Hs]. apply N.eqb_eq in Hx. subst y.
  simpl. f_equal. now apply IH.
Qed.

Lemma starGreedy_inv {R : Type} (p : N -> bool) (k : @cont R) (s : str) :
  forall pos caps x,
    starGreedy p pos s caps k = Some x ->
    exists seg s',
      s = seg ++ s' /\ Forall (fun c => p c = true) seg /\
      k (pos + length seg)%nat s' caps = Some x.
Proof.
  induction s as [|c s IH]; intros pos caps x; simpl.
  - intros H. exists [], []. rewrite Nat.add_0_r. auto.
  - destruct (p c) eqn:Hc.
    + destruct (starGreedy p (S pos) s caps k) as [y|] eqn:E.
      * intros H. injection H as <-.
        destruct (IH _ _ _ E) as (seg & s' & -> & Hseg & Hk).
        exists (c :: seg), s'. simpl. rewrite Nat.add_succ_r. auto.
      * intros H. exists [], (c :: s). rewrite Nat.add_0_r. auto.
    + intros H. exists [], (c :: s). rewrite Nat.add_0_r. auto.
Qed.

Lemma starLazy_inv {R : Type} (p : N -> bool) (k : @cont R) (s : str) :
  forall pos caps x,
    starLazy p pos s caps k = Some x ->
    exists seg s',
      s = seg ++ s' /\ Forall (fun c => p c = true) seg /\
      k (pos + length seg)%nat s' caps = Some x.
Proof.
  induction s as [|c s IH]; intros pos caps x; simpl.
  - destruct (k pos [] caps) as [y|] eqn:E; [|discriminate].
    intros H. injection H as <-. exists [], []. rewrite Nat.add_0_r. auto.
  - destruct (k pos (c :: s) caps) as [y|] eqn:E.
    + intros H. injection H as <-. exists [], (c :: s).
      rewrite Nat.add_0_r. auto.
    + destruct (p c) eqn:Hc; [|discriminate]. intros H.
      destruct (IH _ _ _ H) as (seg & s' & -> & Hseg & Hk).
      exists (c :: seg), s'. simpl. rewrite Nat.add_succ_r. auto.
Qed.

Lemma rmatch_inv {R : Type} (r : regex) :
  forall (k : @cont R) pos s caps x,
    rmatch r pos s caps k = Some x ->
    exists pos' s' caps',
      matches r pos s caps pos' s' caps' /\ k pos' s' caps' = Some x.
Proof.
  induction r as [|l|p|r1 IH1 r2 IH2|r1 IH1 r2 IH2|g p|i r IH| |];
    intros k pos s caps x; cbn [rmatch matches].
  - intros H. exists pos, s, caps. auto.
  - destruct (startsWith s l) eqn:E; [|discriminate]. intros H.
    exists (pos + length l)%nat, (skipn (length l) s), caps.
    split; [|exact H]. split; [now apply startsWith_true | auto].
  - destruct s as [|c s]; [discriminate|].
    destruct (p c) eqn:Hc; [|discriminate]. intros H.
    exists (S pos), s, caps. split; [|exact H]. exists c. auto.
  - intros H. apply IH1 in H as (pos1 & s1 & caps1 & H1 & H).
    apply IH2 in H as (pos' & s' & caps' & H2 & H).
    exists pos', s', caps'. split; [|exact H]. exists pos1, s1, caps1. auto.
  - destruct (rmatch r1 pos s caps k) as [y|] eqn:E.
    + intros H. injection H as <-.
      apply IH1 in E as (pos' & s' & caps' & H1 & H).
      exists pos', s', caps'. auto.
    + intros H. apply IH2 in H as (pos' & s' & caps' & H2 & H).
      exists pos', s', caps'. auto.
  - intros H.
    assert (exists seg s', s = seg ++ s' /\ Forall (fun c => p c = true) seg /\
                           k (pos + length seg)%nat s' caps = Some x)
      as (seg & s' & Hs & Hseg & Hk).
    { destruct g; [now apply starGreedy_inv | now apply starLazy_inv]. }
    exists (pos + length seg)%nat, s', caps. split; [|exact Hk].
    exists seg. auto.
  - intros H. apply IH in H as (pos' & s' & caps' & H1 & H).
    exists pos', s', ((i, firstn (pos' - pos) s) :: caps'). split; [|exact H].
    exists caps'. auto.
  - destruct (Nat.eqb pos 0) eqn:E; [|discriminate]. intros H.
    apply Nat.eqb_eq in E. exists pos, s, caps. auto.
  - destruct s; [|discriminate]. intros H. exists pos, [], caps. auto.
Qed.

(** A match takes a prefix of the input and moves the position by its
    length. *)
Lemma matches_consumes (r : regex) :
  forall pos s caps pos' s' caps',
    matches r pos s caps pos' s' caps' ->
    exists seg, s = seg ++ s' /\ pos' = (pos + length seg)%nat.
Proof.
  induction r as [|l|p|r1 IH1 r2 IH2|r1 IH1 r2 IH2|g p|i r IH| |];
    intros pos s caps pos' s' caps'; cbn [matches].
  - intros (-> & -> & _). exists []. now rewrite Nat.add_0_r.
  - intros (-> & -> & _). now exists l.
  - intros (c & -> & _ & -> & _). exists [c]. simpl. now rewrite Nat.add_1_r.
  - intros (pos1 & s1 & caps1 & H1 & H2).
    apply IH1 in H1 as (seg1 & -> & ->). apply IH2 in H2 as (seg2 & -> & ->).
    exists (seg1 ++ seg2). now rewrite <- app_assoc, length_app, Nat.add_assoc.
  - intros [H|H]; [now apply IH1 in H | now apply IH2 in H].
  - intros (seg & -> & _ & -> & _). now exists seg.
  - intros (caps1 & H & _). now apply IH in H.
  - intros (_ & -> & -> & _). exists []. now rewrite Nat.add_0_r.
  - intros (_ & -> & -> & _). exists []. now rewrite Nat.add_0_r.
Qed.

Lemma matchAt_inv (r : regex) (pos : nat) (s : str) (m : MatchResult) :
  matchAt r pos s = Some m ->
  matches r pos s [] (m_end m) (m_rest m) (m_caps m) /\
  m_index m = pos /\ s = m_text m ++ m_rest m /\
  m_end m = (pos + length (m_text m))%nat.
Proof.
  unfold matchAt. intros H.
  apply rmatch_inv in H as (pos' & s' & caps' & Hm & H). injection H as <-.
  cbn [m_end m_rest m_caps m_index m_text]. split; [exact Hm|].
  destruct (matches_consumes _ _ _ _ _ _ _ Hm) as (seg & -> & ->).
  replace (pos + length seg - pos)%nat with (length seg) by lia.
  now rewrite firstn_app_length.
Qed.

(** The match [exec] returns starts somewhere in the input, and is a match
    there. *)
Lemma execFrom_inv (r : regex) (s : str) :
  forall pos m,
    execFrom r pos s = Some m ->
    exists pre,
      s = pre ++ m_text m ++ m_rest m /\
      m_index m = (pos + length pre)%nat /\
      m_end m = (m_index m + length (m_text m))%nat /\
      matches r (m_index m) (m_text m ++ m_rest m) [] (m_end m) (m_rest m) (m_caps m).
Proof.
  induction s as [|c s IH]; intros pos m; cbn [execFrom].
  - destruct (matchAt r pos []) as [m'|] eqn:E; [|discriminate].
    intros H. injection H as ->.
    apply matchAt_inv in E as (Hm & Hi & Hs & He).
    exists []. rewrite Hi, Nat.add_0_r, <- Hs. auto.
  - destruct (matchAt r pos (c :: s)) as [m'|] eqn:E.
    + intros H. injection H as ->.
      apply matchAt_inv in E as (Hm & Hi & Hs & He).
      exists []. rewrite Hi, Nat.add_0_r, <- Hs. auto.
    + intros H. apply IH in H as (pre & Hs & Hi & He & Hm).
      exists (c :: pre). split; [simpl; now rewrite <- Hs|].
      split; [simpl; lia|]. split; [exact He | exact Hm].
Qed.

Lemma rmatch_Seq {R : Type} (r1 r2 : regex) pos s caps (k : @cont R) :
  rmatch (Seq r1 r2) pos s caps k =
  rmatch r1 pos s caps (fun pos' s' caps' => rmatch r2 pos' s' caps' k).
Proof. reflexivity. Qed.

Lemma rmatch_Lit_app {R : Type} (l t : str) pos caps (k : @cont R) :
  rmatch (Lit l) pos (l ++ t) caps k = k (pos + length l)%nat t caps.
Proof. cbn [rmatch]. now rewrite startsWith_app, skipn_app_length. Qed.

Lemma starGreedy_stop {R : Type} (p : N -> bool) (t : str) pos caps (k : @cont R) :
  stops p t -> starGreedy p pos t caps k = k pos t caps.
Proof. destruct t as [|c t]; simpl; [reflexivity|]. now intros ->. Qed.

Lemma starGreedy_app {R : Type} (p : N -> bool) (seg t : str) :
  Forall (fun c => p c = true) seg ->
  forall pos caps (k : @cont R) x,
    starGreedy p (pos + length seg)%nat t caps k = Some x ->
    starGreedy p pos (seg ++ t) caps k = Some x.
Proof.
  induction 1 as [|c seg Hc _ IH]; intros pos caps k x Hk; simpl in *.
  - now rewrite Nat.add_0_r in Hk.
  - rewrite Hc. rewrite (IH (S pos) caps k x); [reflexivity|].
    now rewrite <- Nat.add_succ_comm in Hk.
Qed.

Lemma starGreedy_takes {R : Type} (p : N -> bool) (seg t : str) pos caps
    (k : @cont R) x :
  Forall (fun c => p c = true) seg -> stops p t ->
  k (pos + length seg)%nat t caps = Some x ->
  starGreedy p pos (seg ++ t) caps k = Some x.
Proof.
  intros Hseg Ht Hk. apply starGreedy_app; [exact Hseg|].
  now rewrite starGreedy_stop.
Qed.

Lemma rmatch_Plus_takes {R : Type} (p : N -> bool) (seg t : str) pos caps
    (k : @cont R) x :
  seg <> [] -> Forall (fun c => p c = true) seg -> stops p t ->
  k (pos + length seg)%nat t caps = Some x ->
  rmatch (Plus true p) pos (seg ++ t) caps k = Some x.
Proof.
  intros Hne Hseg Ht Hk. destruct seg as [|c seg]; [contradiction|].
  inversion Hseg as [|? ? Hc Hseg']; subst.
  unfold Plus. cbn [rmatch app]. rewrite Hc.
  apply starGreedy_takes; trivial.
  replace (S pos + length seg)%nat with (pos + length (c :: seg))%nat
    by (simpl; lia).
  exact Hk.
Qed.

Lemma execFrom_hit (r : regex) (pos : nat) (s : str) (m : MatchResult) :
  matchAt r pos s = Some m -> execFrom r pos s = Some m.
Proof. intros H. destruct s; cbn [execFrom]; now rewrite H. Qed.

Lemma exec_linkRe_wrap (inner target : str) :
  inner <> [] -> Forall (fun c => notCloseBracket c = true) inner ->
  target <> [] -> Forall (fun c => notCloseParen c = true) target ->
  exists m,
    exec linkRe (js "[" ++ inner ++ js "](" ++ target ++ js ")") = Some m /\
    group 1 m = inner.
Proof.
  intros Hi1 Hi2 Ht1 Ht2. eexists. split.
  - unfold exec. apply execFrom_hit.
    unfold matchAt, linkRe. cbn [cat].
    rewrite rmatch_Seq. cbn [rmatch Nat.eqb].
    rewrite startsWith_app, skipn_app_length.
    change (js "](") with (js "]" ++ js "(").
    rewrite <- app_assoc.
    erewrite rmatch_Plus_takes; [reflexivity|exact Hi1|exact Hi2|reflexivity|].
    cbv beta. rewrite startsWith_app, skipn_app_length.
    rewrite startsWith_app, skipn_app_length.
    erewrite rmatch_Plus_takes; [reflexivity|exact Ht1|exact Ht2|reflexivity|].
    cbv beta. cbn. reflexivity.
  - unfold group. cbn [m_caps capture Nat.eqb].
    now rewrite Nat.sub_0_r, firstn_app_length.
Qed.

Lemma matches_Plus (g : bool) (p : N -> bool) pos s caps pos' s' caps' :
  matches (Plus g p) pos s caps pos' s' caps' ->
  exists seg,
    seg <> [] /\ s = seg ++ s' /\ Forall (fun c => p c = true) seg /\
    pos' = (pos + length seg)%nat /\ caps' = caps.
Proof.
  unfold Plus. cbn [matches].
  intros (pos1 & s1 & caps1 & (c & -> & Hc & -> & ->) & (seg & -> & Hseg & -> & ->)).
  exists (c :: seg). split; [discriminate|]. split; [reflexivity|].
  split; [now constructor|]. split; [simpl; lia | reflexivity].
Qed.

(** A match of either expression of [stripMarkdownLinks] is the whole
    value, of the shape [[inner](target)]. *)
Lemma link_shape (r : regex) (q : N -> bool) (value : str) (m : MatchResult) :
  r = cat [Bol; Lit (js "["); Grp 1 (Plus true notCloseBracket); Lit (js "]");
           Lit (js "("); Plus true q; Lit (js ")"); Eol] ->
  exec r value = Some m ->
  exists inner target,
    value = js "[" ++ inner ++ js "](" ++ target ++ js ")" /\
    inner <> [] /\ Forall (fun c => notCloseBracket c = true) inner /\
    target <> [] /\ Forall (fun c => q c = true) target /\
    group 1 m = inner.
Proof.
  intros -> H. unfold exec in H.
  apply execFrom_inv in H as (pre & Hv & Hidx & _ & Hm).
  cbn [cat] in Hm. cbn [matches] in Hm.
  destruct Hm as (p1 & s1 & c1 & (H0 & -> & -> & ->) & Hm).
  destruct Hm as (p2 & s2 & c2 & (Hs1 & -> & ->) & Hm).
  destruct Hm as (p3 & s3 & c3 & (c3' & Hg & ->) & Hm).
  fold (matches (Plus true notCloseBracket)) in Hg.
  apply matches_Plus in Hg as (inner & Hne & -> & Hin & -> & ->).
  destruct Hm as (p4 & s4 & c4 & (-> & -> & ->) & Hm).
  destruct Hm as (p5 & s5 & c5 & (-> & -> & ->) & Hm).
  destruct Hm as (p6 & s6 & c6 & Hp & Hm).
  fold (matches (Plus true q)) in Hp.
  apply matches_Plus in Hp as (target & Hnt & -> & Htg & -> & ->).
  destruct Hm as (p7 & s7 & c7 & (-> & -> & ->) & (-> & He & Hr & Hc)).
  rewrite H0 in Hidx. destruct pre; [|discriminate]. simpl in Hv.
  exists inner, target. repeat split; trivial.
  - rewrite Hv, Hs1, app_nil_r. reflexivity.
  - unfold group. rewrite Hc. cbn [capture Nat.eqb].
    replace (m_index m + length (js "[") + length inner -
             (m_index m + length (js "[")))%nat with (length inner) by lia.
    now rewrite firstn_app_length.
Qed.

Lemma in_closeBracket (inner t : str) :
  In 93 (inner ++ 93 :: t).
Proof. apply in_or_app. right. now left. Qed.

(** What [stripMarkdownLinks] returns: the value as it is, or the text in
    brackets of a value of the shape [[inner](target)]. *)
Lemma stripMarkdownLinks_cases (value : str) :
  stripMarkdownLinks value = value \/
  exists inner target,
    value = js "[" ++ inner ++ js "](" ++ target ++ js ")" /\
    inner <> [] /\ Forall (fun c => notCloseBracket c = true) inner /\
    target <> [] /\
    stripMarkdownLinks value = inner.
Proof.
  unfold stripMarkdownLinks.
  destruct (exec linkRe value) as [m|] eqn:E1.
  - right. destruct (link_shape _ _ _ _ eq_refl E1)
      as (inner & target & Hv & H1 & H2 & H3 & _ & Hg).
    exists inner, target. auto.
  - destruct (exec simpleLinkRe value) as [m|] eqn:E2; [|now left].
    right. destruct (link_shape _ _ _ _ eq_refl E2)
      as (inner & target & Hv & H1 & H2 & H3 & _ & Hg).
    exists inner, target. auto.
Qed.

Lemma stripMarkdownLinks_no_bracket (value : str) :
  ~ In 93 value -> stripMarkdownLinks value = value.
Proof.
  intros Hno. destruct (stripMarkdownLinks_cases value)
    as [H|(inner & target & Hv & _)]; [exact H|].
  exfalso. apply Hno. rewrite Hv. simpl. right. apply in_closeBracket.
Qed.

Lemma notCloseBracket_In (s : str) :
  Forall (fun c => notCloseBracket c = true) s -> ~ In 93 s.
Proof.
  intros H Hin. rewrite Forall_forall in H. specialize (H _ Hin). discriminate H.
Qed.

(** X5. Stripping twice is stripping once: what is returned has no closing
    bracket, so it is no link itself. *)
Theorem stripMarkdownLinks_idempotent (value : str) :
  stripMarkdownLinks (stripMarkdownLinks value) = stripMarkdownLinks value.
Proof.
  destruct (stripMarkdownLinks_cases value)
    as [H|(inner & target & _ & _ & Hin & _ & H)]; rewrite H.
  - exact H.
  - apply stripMarkdownLinks_no_bracket. now apply notCloseBracket_In.
Qed.

Lemma bracket_prefix_unique (a b x y : str) :
  Forall (fun c => notCloseBracket c = true) a ->
  Forall (fun c => notCloseBracket c = true) b ->
  a ++ 93 :: x = b ++ 93 :: y -> a = b.
Proof.
  intros Ha. revert b. induction Ha as [|c a Hc _ IH]; intros b Hb E.
  - destruct b as [|d b]; [reflexivity|]. simpl in E. injection E as <- _.
    inversion Hb as [|? ? Hd _]. discriminate Hd.
  - destruct b as [|d b]; simpl in E.
    + injection E as -> _. discriminate Hc.
    + injection E as -> E. inversion Hb; subst. f_equal. now apply IH.
Qed.

Lemma exec_simpleLinkRe_wrap (inner target : str) :
  inner <> [] -> Forall (fun c => notCloseBracket c = true) inner ->
  target <> [] -> Forall (fun c => isDot c = true) target ->
  exists m,
    exec simpleLinkRe (js "[" ++ inner ++ js "](" ++ target ++ js ")") = Some m /\
    group 1 m = inner.
Proof.
  intros Hi1 Hi2 Ht1 Ht2.
  destruct target as [|b target']; [contradiction|].
  inversion Ht2 as [|? ? Hb Ht2']; subst.
  eexists. split.
  - unfold exec. apply execFrom_hit.
    unfold matchAt, simpleLinkRe. cbn [cat].
    rewrite rmatch_Seq. cbn [rmatch Nat.eqb].
    rewrite startsWith_app, skipn_app_length.
    change (js "](") with (js "]" ++ js "(").
    rewrite <- app_assoc.
    erewrite rmatch_Plus_takes; [reflexivity|exact Hi1|exact Hi2|reflexivity|].
    cbv beta. rewrite startsWith_app, skipn_app_length.
    rewrite startsWith_app, skipn_app_length.
    unfold Plus. cbn [rmatch app]. rewrite Hb.
    erewrite starGreedy_app; [reflexivity|exact Ht2'|].
    cbn. reflexivity.
  - unfold group. cbn [m_caps capture Nat.eqb].
    now rewrite Nat.sub_0_r, firstn_app_length.
Qed.

(** X3. The wrapping the editor of Linear adds is undone: [[inner](target)]
    gives [inner], for an [inner] without closing bracket and a [target]
    without closing parenthesis or without line terminator. *)
Theorem stripMarkdownLinks_unwrap (inner target : str) :
  inner <> [] -> Forall (fun c => notCloseBracket c = true) inner ->
  target <> [] ->
  Forall (fun c => notCloseParen c = true) target \/
  Forall (fun c => isDot c = true) target ->
  stripMarkdownLinks (js "[" ++ inner ++ js "](" ++ target ++ js ")") = inner.
Proof.
  intros Hi1 Hi2 Ht1 [Ht2|Ht2]; unfold stripMarkdownLinks.
  - destruct (exec_linkRe_wrap inner target Hi1 Hi2 Ht1 Ht2) as (m & -> & Hg).
    exact Hg.
  - destruct (exec linkRe _) as [m|] eqn:E.
    + destruct (link_shape _ _ _ _ eq_refl E)
        as (inner' & target' & Hv & _ & Hin' & _ & _ & ->).
      simpl in Hv. injection Hv as Hv. symmetry.
      eapply bracket_prefix_unique; eauto.
    + destruct (exec_simpleLinkRe_wrap inner target Hi1 Hi2 Ht1 Ht2)
        as (m & -> & Hg).
      exact Hg.
Qed.

Lemma stripMarkdownLinks_unwrap_witness :
  stripMarkdownLinks (js "[https://x.com](<https://x.com>)") = js "https://x.com".
Proof.
  apply (stripMarkdownLinks_unwrap (js "https://x.com") (js "<https://x.com>")).
  - discriminate.
  - repeat constructor.
  - discriminate.
  - left. repeat constructor.
Defined.

(** * The lines of the meta block *)

Ltac char_classes :=
  unfold isWord, isSpace, isDot, isSlugChar, isLowerAZ, isUpperAZ, isDigit,
         inRange in *;
  rewrite ?negb_true_iff, ?orb_true_iff, ?orb_false_iff, ?andb_true_iff,
          ?andb_false_iff, ?N.leb_le, ?N.leb_gt, ?N.eqb_eq, ?N.eqb_neq in *.

Lemma isWord_not_space (c : N) : isWord c = true -> isSpace c = false.
Proof.
  intros H. destruct (isSpace c) eqn:E; [|reflexivity]. exfalso.
  char_classes. lia.
Qed.

Lemma isSpace_not_word (c : N) : isSpace c = true -> isWord c = false.
Proof.
  intros H. destruct (isWord c) eqn:E; [|reflexivity].
  apply isWord_not_space in E. congruence.
Qed.

Lemma starLazy_skips {R : Type} (p : N -> bool) (seg t : str) :
  Forall (fun c => p c = true) seg ->
  forall pos caps (k : @cont R) x,
    (forall j, (j < length seg)%nat ->
               k (pos + j)%nat (skipn j seg ++ t) caps = None) ->
    k (pos + length seg)%nat t caps = Some x ->
    starLazy p pos (seg ++ t) caps k = Some x.
Proof.
  induction 1 as [|c seg Hc _ IH]; intros pos caps k x Hfail Hk.
  - simpl in *. rewrite Nat.add_0_r in Hk. destruct t; simpl; now rewrite Hk.
  - cbn [app starLazy].
    pose proof (Hfail 0%nat ltac:(simpl; lia)) as H0.
    rewrite Nat.add_0_r in H0. cbn [skipn app] in H0. rewrite H0, Hc.
    apply IH.
    + intros j Hj. specialize (Hfail (S j) ltac:(simpl; lia)).
      now rewrite Nat.add_succ_r in Hfail.
    + simpl in Hk. now rewrite Nat.add_succ_r in Hk.
Qed.

(** After the value of a line only white space may follow. *)
Lemma line_tail_fails {R : Type} (s : str) pos caps (k : @cont R) :
  (exists c, In c s /\ isSpace c = false) ->
  rmatch (Seq (Star true isSpace) Eol) pos s caps k = None.
Proof.
  intros (c & Hin & Hc).
  destruct (rmatch (Seq (Star true isSpace) Eol) pos s caps k) as [x|] eqn:E;
    [|reflexivity].
  exfalso. apply rmatch_inv in E as (pos' & s' & caps' & Hm & _).
  cbn [matches] in Hm.
  destruct Hm as (p1 & s1 & c1 & (seg & -> & Hseg & _) & (-> & _)).
  rewrite app_nil_r in Hin. rewrite Forall_forall in Hseg.
  specialize (Hseg _ Hin). congruence.
Qed.

Lemma bare_last (value : str) :
  bare value -> exists t z, value = t ++ [z] /\ isSpace z = false.
Proof.
  intros (Hne & _ & Hlast).
  destruct (exists_last Hne) as (t & z & ->). exists t, z. eauto.
Qed.

Lemma skipn_keeps_last (j : nat) (t : str) (z : N) :
  (j <= length t)%nat -> In z (skipn j (t ++ [z])).
Proof.
  intros Hj. rewrite skipn_app.
  replace (j - length t)%nat with 0%nat by lia.
  apply in_or_app. right. now left.
Qed.

Lemma stops_space_word (key rest : str) :
  key <> [] -> Forall (fun c => isWord c = true) key -> stops isSpace (key ++ rest).
Proof.
  intros Hne Hk. destruct key as [|c key]; [contradiction|].
  inversion Hk; subst. simpl. now apply isWord_not_space.
Qed.

Lemma stops_word_colon (ws rest : str) :
  Forall (fun c => isSpace c = true) ws -> stops isWord (ws ++ js ":" ++ rest).
Proof.
  intros Hws. destruct ws as [|c ws]; [reflexivity|].
  inversion Hws; subst. simpl. now apply isSpace_not_word.
Qed.

Lemma stops_space_bare (value rest : str) :
  bare value -> stops isSpace (value ++ rest).
Proof.
  intros (Hne & Hfirst & _). destruct value as [|c value]; [contradiction|].
  simpl. now apply (Hfirst c value).
Qed.

(** The expression of a line on a well-formed line: it finds the key and
    the value. *)
Lemma exec_lineRe_key_value (ws1 key ws2 ws3 value ws4 : str) :
  Forall (fun c => isSpace c = true) ws1 ->
  key <> [] -> Forall (fun c => isWord c = true) key ->
  Forall (fun c => isSpace c = true) ws2 ->
  Forall (fun c => isSpace c = true) ws3 ->
  bare value -> Forall (fun c => isDot c = true) value ->
  Forall (fun c => isSpace c = true) ws4 ->
  exists m,
    exec lineRe (ws1 ++ key ++ ws2 ++ js ":" ++ ws3 ++ value ++ ws4) = Some m /\
    group 1 m = key /\ group 2 m = value.
Proof.
  intros H1 Hk0 Hk H2 H3 Hv Hvd H4.
  pose proof (bare_last _ Hv) as (vt & z & Hvz & Hz).
  destruct value as [|v0 value']; [now destruct vt|].
  inversion Hvd as [|? ? Hv0 Hvd']; subst.
  eexists. split; [|split].
  - unfold exec. apply execFrom_hit. unfold matchAt, lineRe. cbn [cat].
    rewrite rmatch_Seq. cbn [rmatch Nat.eqb].
    erewrite starGreedy_takes;
      [reflexivity | exact H1 | now apply stops_space_word |].
    erewrite rmatch_Plus_takes;
      [reflexivity | exact Hk0 | exact Hk | now apply stops_word_colon |].
    cbv beta.
    erewrite starGreedy_takes; [reflexivity | exact H2 | reflexivity |].
    rewrite startsWith_app, skipn_app_length.
    erewrite starGreedy_takes;
      [reflexivity | exact H3 | now apply (stops_space_bare (v0 :: value')) |].
    unfold Plus. cbn [rmatch app]. rewrite Hv0.
    erewrite starLazy_skips; [reflexivity | exact Hvd' | |].
    + intros j Hj. apply line_tail_fails. exists z. split; [|exact Hz].
      apply in_or_app. left.
      destruct vt as [|v1 vt]; simpl in Hvz.
      * injection Hvz as -> Hv'. subst value'. simpl in Hj. lia.
      * injection Hvz as -> ->. apply skipn_keeps_last.
        rewrite length_app in Hj. simpl in Hj. lia.
    + cbn [rmatch].
      erewrite starGreedy_all; [reflexivity | exact H4 | reflexivity].
  - unfold group. cbn [m_caps capture Nat.eqb].
    match goal with
    | |- firstn ?n (key ++ ?t) = key =>
        replace n with (length key) by lia
    end.
    apply firstn_app_length.
  - unfold group. cbn [m_caps capture Nat.eqb].
    match goal with
    | |- firstn ?n _ = _ => replace n with (S (length value')) by lia
    end.
    cbn [firstn]. f_equal. apply firstn_app_length.
Qed.

Lemma trimStart_bare_head (s : str) :
  (forall c t, s = c :: t -> isSpace c = false) -> trimStart s = s.
Proof.
  intros H. destruct s as [|c s]; [reflexivity|]. simpl.
  now rewrite (H c s eq_refl).
Qed.

Lemma trim_bare (value : str) : bare value -> trim value = value.
Proof.
  intros (_ & Hfirst & Hlast). unfold trim, trimEnd.
  rewrite (trimStart_bare_head value Hfirst).
  rewrite (trimStart_bare_head (rev value)); [apply rev_involutive|].
  intros c t E. apply (Hlast (rev t) c).
  rewrite <- (rev_involutive value), E. reflexivity.
Qed.

(** A line [key: value] is taken apart into its key and its value, which
    go to the [switch]. *)
Lemma parseLine_well_formed (meta : ProjectMeta.t)
    (ws1 key ws2 ws3 value ws4 : str) :
  Forall (fun c => isSpace c = true) ws1 ->
  key <> [] -> Forall (fun c => isWord c = true) key ->
  Forall (fun c => isSpace c = true) ws2 ->
  Forall (fun c => isSpace c = true) ws3 ->
  bare value -> Forall (fun c => isDot c = true) value ->
  Forall (fun c => isSpace c = true) ws4 ->
  parseLine meta (ws1 ++ key ++ ws2 ++ js ":" ++ ws3 ++ value ++ ws4) =
  setField meta key (stripMarkdownLinks value).
Proof.
  intros H1 Hk0 Hk H2 H3 Hv Hvd H4.
  destruct (exec_lineRe_key_value ws1 key ws2 ws3 value ws4)
    as (m & E & Hg1 & Hg2); trivial.
  unfold parseLine. rewrite E, Hg1, Hg2. now rewrite trim_bare.
Qed.

(** X7. What a line [key: value] stores, white space allowed around the key,
    the colon and the value: for each of the six keys the field of that
    name, and no other, receives the value without its link wrapping;
    [cost_estimate] receives the number it denotes, or 0 when it denotes
    none or denotes 0. *)
Theorem parseLine_key_value (u : option str) (c : option number)
    (os ot sd pp : option str) (ws1 ws2 ws3 value ws4 : str) :
  Forall (fun c => isSpace c = true) ws1 ->
  Forall (fun c => isSpace c = true) ws2 ->
  Forall (fun c => isSpace c = true) ws3 ->
  bare value -> Forall (fun c => isDot c = true) value ->
  Forall (fun c => isSpace c = true) ws4 ->
  parseLine (ProjectMeta.mk u c os ot sd pp)
            (metaLine ws1 "url" ws2 ws3 value ws4) =
    ProjectMeta.mk (Some (stripMarkdownLinks value)) c os ot sd pp /\
  parseLine (ProjectMeta.mk u c os ot sd pp)
            (metaLine ws1 "cost_estimate" ws2 ws3 value ws4) =
    ProjectMeta.mk u (Some (orNum (Some (Number (stripMarkdownLinks value)))
                                  (num 0))) os ot sd pp /\
  parseLine (ProjectMeta.mk u c os ot sd pp)
            (metaLine ws1 "opencollective_slug" ws2 ws3 value ws4) =
    ProjectMeta.mk u c (Some (stripMarkdownLinks value)) ot sd pp /\
  parseLine (ProjectMeta.mk u c os ot sd pp)
            (metaLine ws1 "opencollective_type" ws2 ws3 value ws4) =
    ProjectMeta.mk u c os (Some (stripMarkdownLinks value)) sd pp /\
  parseLine (ProjectMeta.mk u c os ot sd pp)
            (metaLine ws1 "subdomain" ws2 ws3 value ws4) =
    ProjectMeta.mk u c os ot (Some (stripMarkdownLinks value)) pp /\
  parseLine (ProjectMeta.mk u c os ot sd pp)
            (metaLine ws1 "page_path" ws2 ws3 value ws4) =
    ProjectMeta.mk u c os ot sd (Some (stripMarkdownLinks value)).
Proof.
  intros H1 H2 H3 Hv Hvd H4. unfold metaLine.
  repeat match goal with |- _ /\ _ => split end;
    (rewrite parseLine_well_formed;
     [reflexivity | trivial | discriminate | repeat constructor | trivial ..]).
Qed.

Lemma parseLine_key_value_witness :
  parseLine ProjectMeta.empty
    (js "  url :  [https://x.com](<https://x.com>) ") =
  ProjectMeta.mk (Some (js "https://x.com")) None None None None None.
Proof.
  apply (parseLine_key_value None None None None None None
           (js "  ") (js " ") (js "  ")
           (js "[https://x.com](<https://x.com>)") (js " ")).
  - repeat constructor.
  - repeat constructor.
  - repeat constructor.
  - split; [discriminate|]. split.
    + intros c t E. injection E as <- _. reflexivity.
    + intros t c E. apply (f_equal (@rev N)) in E.
      rewrite rev_app_distr in E. simpl in E. injection E as <- _. reflexivity.
  - repeat constructor.
  - repeat constructor.
Defined.

(** What the expression of a line finds is a line with a colon, and the
    key it finds is a word. *)
Lemma exec_lineRe_shape (line : str) (m : MatchResult) :
  exec lineRe line = Some m ->
  group 1 m <> [] /\ Forall (fun c => isWord c = true) (group 1 m) /\
  group 2 m <> [] /\ Forall (fun c => isDot c = true) (group 2 m) /\
  exists ws1 ws2 ws3 ws4,
    line = ws1 ++ group 1 m ++ ws2 ++ js ":" ++ ws3 ++ group 2 m ++ ws4 /\
    Forall (fun c => isSpace c = true) ws1 /\
    Forall (fun c => isSpace c = true) ws2 /\
    Forall (fun c => isSpace c = true) ws3 /\
    Forall (fun c => isSpace c = true) ws4.
Proof.
  intros H. unfold exec in H.
  apply execFrom_inv in H as (pre & Hl & Hidx & _ & Hm).
  unfold lineRe in Hm. cbn [cat] in Hm. cbn [matches] in Hm.
  destruct Hm as (p1 & s1 & c1 & (H0 & -> & -> & ->) & Hm).
  destruct Hm as (p2 & s2 & c2 & (ws1 & Hs1 & Hw1 & -> & ->) & Hm).
  destruct Hm as (p3 & s3 & c3 & (c3' & Hg & ->) & Hm).
  fold (matches (Plus true isWord)) in Hg.
  apply matches_Plus in Hg as (key & Hkne & -> & Hkey & -> & ->).
  destruct Hm as (p4 & s4 & c4 & (ws2 & -> & Hw2 & -> & ->) & Hm).
  destruct Hm as (p5 & s5 & c5 & (-> & -> & ->) & Hm).
  destruct Hm as (p6 & s6 & c6 & (ws3 & -> & Hw3 & -> & ->) & Hm).
  destruct Hm as (p7 & s7 & c7 & (c7' & Hg2 & ->) & Hm).
  fold (matches (Plus false isDot)) in Hg2.
  apply matches_Plus in Hg2 as (value & Hvne & -> & Hval & -> & ->).
  destruct Hm as (p8 & s8 & c8 & (ws4 & -> & Hw4 & -> & ->) & (-> & _ & Hr & Hc)).
  rewrite H0 in Hidx. destruct pre; [|discriminate]. simpl in Hl.
  assert (G1 : group 1 m = key).
  { unfold group. rewrite Hc. cbn [capture Nat.eqb].
    match goal with
    | |- firstn ?n _ = _ => replace n with (length key) by lia
    end.
    apply firstn_app_length. }
  assert (G2 : group 2 m = value).
  { unfold group. rewrite Hc. cbn [capture Nat.eqb].
    match goal with
    | |- firstn ?n _ = _ => replace n with (length value) by lia
    end.
    apply firstn_app_length. }
  rewrite G1, G2. repeat split; trivial.
  exists ws1, ws2, ws3, ws4. repeat split; trivial.
  rewrite Hl, Hs1, app_nil_r. reflexivity.
Qed.

Lemma setField_unrecognized (meta : ProjectMeta.t) (key value : str) :
  ~ In key recognizedKeys -> setField meta key value = meta.
Proof.
  intros Hno. destruct meta as [u c os ot sd pp]. unfold setField.
  repeat match goal with
         | |- context [str_eqb key ?k] =>
             rewrite (str_eqb_neq key k)
               by (intros E; apply Hno; rewrite E; simpl; tauto)
         end.
  reflexivity.
Qed.

(** X8. A line without a colon, or whose key is none of the six, changes
    nothing; so does a run of such lines anywhere in the block. *)
Theorem parseLine_ignores (lines1 junk lines2 : list str) (meta : ProjectMeta.t) :
  Forall (fun line =>
            ~ In 58 line \/
            forall m, exec lineRe line = Some m -> ~ In (group 1 m) recognizedKeys)
         junk ->
  fold_left parseLine (lines1 ++ junk ++ lines2) meta =
  fold_left parseLine (lines1 ++ lines2) meta.
Proof.
  intros Hjunk. rewrite !fold_left_app. f_equal.
  generalize (fold_left parseLine lines1 meta) as meta0.
  induction Hjunk as [|line junk Hline _ IH]; intros meta0; simpl; [reflexivity|].
  rewrite IH. unfold parseLine.
  destruct (exec lineRe line) as [m|] eqn:E; [|reflexivity].
  destruct Hline as [Hno|Hkey].
  - exfalso. apply Hno.
    destruct (exec_lineRe_shape _ _ E) as (_ & _ & _ & _ & ws1 & ws2 & ws3 & ws4 & -> & _).
    apply in_or_app. right. apply in_or_app. right. apply in_or_app. right.
    now left.
  - now rewrite setField_unrecognized by (now apply Hkey).
Qed.

Lemma parseLine_ignores_witness :
  fold_left parseLine
    ([js "url: https://a.example"] ++
     [js "just a remark"; js "colour: blue"] ++ [js "subdomain: a"])
    ProjectMeta.empty =
  fold_left parseLine
    ([js "url: https://a.example"] ++ [js "subdomain: a"]) ProjectMeta.empty.
Proof.
  apply (parseLine_ignores [js "url: https://a.example"]
           [js "just a remark"; js "colour: blue"] [js "subdomain: a"]).
  constructor; [|constructor; [|constructor]].
  - left. intros H. vm_compute in H.
    repeat (destruct H as [H|H]; [discriminate H|]). exact H.
  - right. intros m E. vm_compute in E. injection E as <-.
    vm_compute. intros H. repeat (destruct H as [H|H]; [discriminate H|]).
    exact H.
Defined.

(** * The switch on the key *)

Ltac case_key k :=
  repeat match goal with
         | |- context [str_eqb k ?l] =>
             let E := fresh "E" in
             destruct (str_eqb k l) eqn:E;
             [apply str_eqb_eq in E; subst k; cbn|]
         end.

Lemma setField_last_wins (meta : ProjectMeta.t) (key v1 v2 : str) :
  setField (setField meta key v1) key v2 = setField meta key v2.
Proof.
  destruct meta as [u c os ot sd pp]. unfold setField.
  case_key key; reflexivity.
Qed.

Lemma setField_commute (meta : ProjectMeta.t) (k1 k2 v1 v2 : str) :
  k1 <> k2 ->
  setField (setField meta k1 v1) k2 v2 = setField (setField meta k2 v2) k1 v1.
Proof.
  intros Hne. destruct meta as [u c os ot sd pp]. unfold setField.
  case_key k1; case_key k2; try reflexivity; try (exfalso; now apply Hne).
Qed.

(** X9. Of two lines with the same key the later one decides; two lines with
    different keys may come in either order. *)
Theorem parseLine_order (meta : ProjectMeta.t) (l1 l2 : str) (m1 m2 : MatchResult) :
  exec lineRe l1 = Some m1 -> exec lineRe l2 = Some m2 ->
  (group 1 m1 = group 1 m2 ->
   parseLine (parseLine meta l1) l2 = parseLine meta l2) /\
  (group 1 m1 <> group 1 m2 ->
   parseLine (parseLine meta l1) l2 = parseLine (parseLine meta l2) l1).
Proof.
  intros E1 E2. unfold parseLine. rewrite E1, E2. split.
  - intros ->. apply setField_last_wins.
  - intros Hne. now apply setField_commute.
Qed.

Lemma parseLine_order_witness :
  parseLine (parseLine ProjectMeta.empty (js "url: a")) (js "url: b") =
    parseLine ProjectMeta.empty (js "url: b") /\
  parseLine (parseLine ProjectMeta.empty (js "url: a")) (js "subdomain: s") =
    parseLine (parseLine ProjectMeta.empty (js "subdomain: s")) (js "url: a").
Proof.
  assert (Ea : exists m, exec lineRe (js "url: a") = Some m /\ group 1 m = js "url")
    by (eexists; split; reflexivity).
  assert (Eb : exists m, exec lineRe (js "url: b") = Some m /\ group 1 m = js "url")
    by (eexists; split; reflexivity).
  assert (Es : exists m, exec lineRe (js "subdomain: s") = Some m /\
                         group 1 m = js "subdomain")
    by (eexists; split; reflexivity).
  destruct Ea as (ma & Ea & Ga), Eb as (mb & Eb & Gb), Es as (ms & Es & Gs).
  split.
  - apply (proj1 (parseLine_order ProjectMeta.empty _ _ ma mb Ea Eb)).
    now rewrite Ga, Gb.
  - apply (proj2 (parseLine_order ProjectMeta.empty _ _ ma ms Ea Es)).
    rewrite Ga, Gs. discriminate.
Defined.

(** * The meta block *)

Lemma startsWith_head_neq (a c : N) (s p : str) :
  a <> c -> startsWith (c :: s) (a :: p) = false.
Proof.
  intros H. cbn [startsWith]. apply N.eqb_neq in H. now rewrite H.
Qed.

Lemma execFrom_metaRe_skip (pre t : str) :
  ~ In 60 pre ->
  forall pos, execFrom metaRe pos (pre ++ t) = execFrom metaRe (pos + length pre) t.
Proof.
  induction pre as [|c pre IH]; intros Hno pos; simpl.
  - now rewrite Nat.add_0_r.
  - rewrite matchAt_metaRe_opening.
    + rewrite IH by (intros H; apply Hno; now right).
      now rewrite Nat.add_succ_r.
    + apply startsWith_head_neq. intros <-. apply Hno. now left.
Qed.

Lemma closing_not_yet (t post : str) :
  t <> [] -> ~ In 62 t -> startsWith (t ++ js "-->" ++ post) (js "-->") = false.
Proof.
  intros Hne Hno.
  destruct (startsWith (t ++ js "-->" ++ post) (js "-->")) eqn:E; [|reflexivity].
  exfalso. apply startsWith_prefix in E as [rest E].
  destruct t as [|a [|b [|c t]]]; [contradiction| | |]; cbn in E.
  - congruence.
  - congruence.
  - assert (c = 62) as -> by congruence. apply Hno. simpl. tauto.
Qed.

Lemma replaceStr_hit (s pat rep : str) :
  startsWith s pat = true -> replaceStr s pat rep = rep ++ skipn (length pat) s.
Proof. intros H. destruct s; cbn [replaceStr]; now rewrite H. Qed.

Lemma replaceStr_miss (a : N) (s pat rep : str) :
  startsWith (a :: s) pat = false ->
  replaceStr (a :: s) pat rep = a :: replaceStr s pat rep.
Proof. intros H. cbn [replaceStr]. now rewrite H. Qed.

Lemma replaceStr_skip (pre whole post rep : str) (c : N) (w : str) :
  whole = c :: w -> ~ In c pre ->
  replaceStr (pre ++ whole ++ post) whole rep = pre ++ rep ++ post.
Proof.
  intros -> Hno. induction pre as [|a pre IH].
  - change ([] ++ (c :: w) ++ post) with ((c :: w) ++ post).
    rewrite replaceStr_hit by apply startsWith_app.
    now rewrite skipn_app_length.
  - change ((a :: pre) ++ (c :: w) ++ post) with (a :: pre ++ (c :: w) ++ post).
    rewrite replaceStr_miss.
    + cbn [app]. f_equal. apply IH. intros H. apply Hno. now right.
    + apply startsWith_head_neq. intros <-. apply Hno. now left.
Qed.

Lemma parseMeta_nonempty (c : str) :
  c <> [] ->
  parseMeta (Some c) =
  match exec metaRe c with
  | None => (ProjectMeta.empty, trim c)
  | Some metaMatch =>
      (fold_left parseLine (split 10 (group 1 metaMatch)) ProjectMeta.empty,
       trim (replaceStr c (m_text metaMatch) []))
  end.
Proof. destruct c; [contradiction | reflexivity]. Qed.

Lemma stops_space_block (block post : str) :
  stops isSpace block -> stops isSpace (block ++ js "-->" ++ post).
Proof. destruct block; simpl; auto. Qed.

Lemma startsWith_newline_stops (t : str) :
  stops isSpace t -> startsWith t [10] = false.
Proof.
  destruct t as [|c t]; [reflexivity|]. cbn [stops]. intros Hc.
  apply startsWith_head_neq. intros <-. discriminate Hc.
Qed.

Lemma Forall_isAny (s : str) : Forall (fun c => isAny c = true) s.
Proof. apply Forall_forall. reflexivity. Qed.

Lemma exec_metaRe_block (pre ws1 ws2 block post : str) :
  ~ In 60 pre ->
  Forall (fun c => isSpace c = true) ws1 ->
  Forall (fun c => isSpace c = true) ws2 ->
  stops isSpace block -> ~ In 62 block ->
  exists m,
    exec metaRe (pre ++ metaOpening ws1 ws2 ++ block ++ js "-->" ++ post) = Some m /\
    group 1 m = block /\
    m_text m = metaOpening ws1 ws2 ++ block ++ js "-->".
Proof.
  intros Hpre H1 H2 Hb Hgt.
  pose proof (stops_space_block block post Hb) as Hb'.
  eexists. split; [|split].
  - unfold exec. rewrite execFrom_metaRe_skip by exact Hpre.
    apply execFrom_hit. unfold matchAt, metaRe, metaOpening. cbn [cat].
    rewrite <- !app_assoc.
    rewrite rmatch_Seq. cbn [rmatch].
    rewrite startsWith_app, skipn_app_length.
    erewrite starGreedy_takes; [reflexivity | exact H1 | reflexivity |].
    rewrite startsWith_app, skipn_app_length.
    erewrite starGreedy_app; [reflexivity | exact H2 |].
    cbn [app starGreedy]. change (isSpace 10) with true. cbv iota.
    rewrite (starGreedy_stop isSpace _ _ _ _ Hb').
    rewrite (startsWith_newline_stops _ Hb').
    change (startsWith (10 :: block ++ js "-->" ++ post) [10]) with true.
    cbv iota. cbn [skipn length].
    erewrite starLazy_skips; [reflexivity | apply Forall_isAny | |].
    + intros j Hj. rewrite closing_not_yet; [reflexivity | |].
      * intros E. apply (f_equal (@length N)) in E.
        rewrite length_skipn in E. simpl in E. lia.
      * intros Hin. apply Hgt. rewrite <- (firstn_skipn j block).
        apply in_or_app. now right.
    + rewrite startsWith_app, skipn_app_length. reflexivity.
  - unfold group. cbn [m_caps capture Nat.eqb].
    match goal with
    | |- firstn ?n _ = _ => replace n with (length block) by lia
    end.
    apply firstn_app_length.
  - cbn [m_text]. unfold metaOpening.
    match goal with
    | |- firstn ?n ?s = ?t =>
        replace s with (t ++ post) by (now rewrite <- !app_assoc);
        replace n with (length t) by (rewrite !length_app; simpl; lia)
    end.
    apply firstn_app_length.
Qed.

(** X6. A content with a meta block: text without [<], the opening, a block
    without [>] that does not start with white space, the closing, and any
    text. The meta is read off the lines of the block, and the body is the
    text around the block, trimmed. *)
Theorem parseMeta_with_block (pre ws1 ws2 block post : str) :
  ~ In 60 pre ->
  Forall (fun c => isSpace c = true) ws1 ->
  Forall (fun c => isSpace c = true) ws2 ->
  stops isSpace block -> ~ In 62 block ->
  parseMeta (Some (pre ++ metaOpening ws1 ws2 ++ block ++ js "-->" ++ post)) =
  (fold_left parseLine (split 10 block) ProjectMeta.empty, trim (pre ++ post)).
Proof.
  intros Hpre H1 H2 Hb Hgt.
  destruct (exec_metaRe_block pre ws1 ws2 block post Hpre H1 H2 Hb Hgt)
    as (m & E & G & T).
  rewrite parseMeta_nonempty.
  - rewrite E, G, T. f_equal. f_equal.
    replace (pre ++ metaOpening ws1 ws2 ++ block ++ js "-->" ++ post)
      with (pre ++ (metaOpening ws1 ws2 ++ block ++ js "-->") ++ post)
      by (now rewrite <- !app_assoc).
    now rewrite (replaceStr_skip pre (metaOpening ws1 ws2 ++ block ++ js "-->")
                   post [] 60 _ eq_refl Hpre).
  - intros E0. apply (f_equal (@length N)) in E0.
    unfold metaOpening in E0. rewrite !length_app in E0. simpl in E0. lia.
Qed.

Lemma parseMeta_with_block_witness :
  parseMeta
    (Some (js "Intro " ++ metaOpening (js " ") [] ++
           (js "url: https://a.example" ++ [10] ++ js "cost_estimate: 12" ++ [10]) ++
           js "-->" ++ js " Body text")) =
  ({| ProjectMeta.url := Some (js "https://a.example");
      ProjectMeta.cost_estimate := Some (num 12);
      ProjectMeta.opencollective_slug := None;
      ProjectMeta.opencollective_type := None;
      ProjectMeta.subdomain := None;
      ProjectMeta.page_path := None |},
   js "Intro  Body text").
Proof.
  rewrite (parseMeta_with_block (js "Intro ") (js " ") []
             (js "url: https://a.example" ++ [10] ++ js "cost_estimate: 12" ++ [10])
             (js " Body text")).
  - reflexivity.
  - intros H. vm_compute in H.
    repeat (destruct H as [H|H]; [discriminate H|]). exact H.
  - repeat constructor.
  - constructor.
  - reflexivity.
  - intros H. vm_compute in H.
    repeat (destruct H as [H|H]; [discriminate H|]). exact H.
Defined.

(** * The slug *)

Lemma span_split (p : N -> bool) (s : str) :
  exists a b, s = a ++ b /\ Forall (fun c => p c = true) a /\ stops p b.
Proof.
  induction s as [|c s (a & b & -> & Ha & Hb)].
  - exists [], []. simpl. auto.
  - destruct (p c) eqn:Hc.
    + exists (c :: a), b. simpl. auto.
    + exists [], (c :: a ++ b). simpl. auto.
Qed.

Lemma nonSlugRe_unfold : nonSlugRe = Plus true notSlugChar.
Proof. reflexivity. Qed.

Lemma matchAt_nonSlug_miss (pos : nat) (c : N) (s : str) :
  isSlugChar c = true -> matchAt nonSlugRe pos (c :: s) = None.
Proof.
  intros Hc. unfold matchAt, nonSlugRe, Plus. cbn [rmatch]. now rewrite Hc.
Qed.

Lemma execFrom_nonSlug_none (s : str) :
  Forall (fun c => isSlugChar c = true) s ->
  forall pos, execFrom nonSlugRe pos s = None.
Proof.
  induction 1 as [|c s Hc _ IH]; intros pos; cbn [execFrom].
  - reflexivity.
  - now rewrite matchAt_nonSlug_miss.
Qed.

Lemma execFrom_nonSlug_run (pre run rest : str) :
  Forall (fun c => isSlugChar c = true) pre ->
  run <> [] -> Forall (fun c => notSlugChar c = true) run ->
  stops notSlugChar rest ->
  forall pos,
    execFrom nonSlugRe pos (pre ++ run ++ rest) =
    Some (mkMatch (pos + length pre) (pos + length pre + length run) run rest []).
Proof.
  intros Hpre Hne Hrun Hrest. induction Hpre as [|c pre Hc _ IH]; intros pos.
  - cbn [app length]. rewrite Nat.add_0_r. apply execFrom_hit.
    unfold matchAt. rewrite nonSlugRe_unfold.
    erewrite rmatch_Plus_takes; [reflexivity | exact Hne | exact Hrun | exact Hrest |].
    cbv beta. f_equal. f_equal.
    replace (pos + length run - pos)%nat with (length run) by lia.
    apply firstn_app_length.
  - cbn [app execFrom]. rewrite matchAt_nonSlug_miss by exact Hc.
    rewrite IH. cbn [length]. f_equal. f_equal; lia.
Qed.

Lemma hyphenate_slug_prefix (pre t : str) :
  Forall (fun c => isSlugChar c = true) pre ->
  hyphenate false (pre ++ t) = pre ++ hyphenate false t.
Proof.
  induction 1 as [|c pre Hc _ IH]; [reflexivity|].
  cbn [app hyphenate]. now rewrite Hc, IH.
Qed.

Lemma hyphenate_slug_all (s : str) :
  Forall (fun c => isSlugChar c = true) s -> hyphenate false s = s.
Proof.
  intros H. rewrite <- (app_nil_r s) at 1.
  rewrite hyphenate_slug_prefix by exact H. simpl. apply app_nil_r.
Qed.

Lemma hyphenate_after_run (rest : str) :
  stops notSlugChar rest -> hyphenate true rest = hyphenate false rest.
Proof.
  destruct rest as [|c rest]; [reflexivity|]. cbn [stops hyphenate].
  unfold notSlugChar. intros Hc. apply negb_false_iff in Hc. now rewrite Hc.
Qed.

Lemma hyphenate_in_run (run rest : str) :
  Forall (fun c => notSlugChar c = true) run -> stops notSlugChar rest ->
  hyphenate true (run ++ rest) = hyphenate false rest.
Proof.
  intros Hrun Hrest. induction Hrun as [|c run Hc _ IH].
  - now apply hyphenate_after_run.
  - cbn [app hyphenate]. unfold notSlugChar in Hc. apply negb_true_iff in Hc.
    now rewrite Hc.
Qed.

Lemma hyphenate_run (run rest : str) :
  run <> [] -> Forall (fun c => notSlugChar c = true) run ->
  stops notSlugChar rest ->
  hyphenate false (run ++ rest) = 45 :: hyphenate false rest.
Proof.
  intros Hne Hrun Hrest. destruct run as [|c run]; [contradiction|].
  inversion Hrun as [|? ? Hc Hrun']; subst.
  cbn [app hyphenate]. unfold notSlugChar in Hc. apply negb_true_iff in Hc.
  rewrite Hc. f_equal. now apply hyphenate_in_run.
Qed.

Lemma slug_runs (s : str) :
  Forall (fun c => isSlugChar c = true) s \/
  exists pre run rest,
    s = pre ++ run ++ rest /\
    Forall (fun c => isSlugChar c = true) pre /\
    run <> [] /\ Forall (fun c => notSlugChar c = true) run /\
    stops notSlugChar rest.
Proof.
  destruct (span_split isSlugChar s) as (pre & b & -> & Hpre & Hb).
  destruct b as [|c b].
  - left. now rewrite app_nil_r.
  - right. destruct (span_split notSlugChar (c :: b)) as (run & rest & E & Hrun & Hrest).
    exists pre, run, rest. rewrite E. repeat split; trivial.
    intros ->. simpl in E. subst rest. simpl in Hb, Hrest.
    unfold notSlugChar in Hrest. rewrite Hb in Hrest. discriminate.
Qed.

(** The first replacement of the slug is [hyphenate]. *)
Lemma replaceLoop_nonSlug (fuel : nat) :
  forall s pos,
    (length s < fuel)%nat ->
    replaceLoop fuel nonSlugRe (js "-") pos s = hyphenate false s.
Proof.
  induction fuel as [|fuel IH]; intros s pos Hlen; [lia|].
  cbn [replaceLoop].
  destruct (slug_runs s) as [Hall|(pre & run & rest & -> & Hpre & Hne & Hrun & Hrest)].
  - rewrite execFrom_nonSlug_none by exact Hall. now rewrite hyphenate_slug_all.
  - rewrite (execFrom_nonSlug_run pre run rest Hpre Hne Hrun Hrest).
    cbn [m_index m_end m_rest].
    assert (Hrl : (0 < length run)%nat) by (destruct run; [contradiction|simpl; lia]).
    replace (Nat.eqb (pos + length pre + length run) (pos + length pre)) with false
      by (symmetry; apply Nat.eqb_neq; lia).
    replace (pos + length pre - pos)%nat with (length pre) by lia.
    rewrite firstn_app_length, IH.
    + rewrite hyphenate_slug_prefix by exact Hpre.
      now rewrite (hyphenate_run run rest Hne Hrun Hrest).
    + rewrite !length_app in Hlen. lia.
Qed.

Lemma replaceAll_nonSlug_hyphenate (s : str) :
  replaceAll nonSlugRe (js "-") s = hyphenate false s.
Proof. unfold replaceAll. apply replaceLoop_nonSlug. lia. Qed.

Lemma matchAt_edge_later (pos : nat) (s : str) :
  pos <> 0%nat ->
  matchAt edgeHyphenRe pos s =
  if str_eqb s (js "-") then Some (mkMatch pos (S pos) (js "-") [] []) else None.
Proof.
  intros Hpos. unfold matchAt, edgeHyphenRe. cbn [rmatch].
  apply Nat.eqb_neq in Hpos. rewrite Hpos.
  change (js "-") with [45]. cbn [length].
  destruct s as [|c [|d s]]; [reflexivity| |].
  - cbn [startsWith str_eqb skipn].
    destruct (N.eqb_spec c 45) as [->|Hc].
    + rewrite N.eqb_refl. cbn [andb].
      replace (pos + 1 - pos)%nat with 1%nat by lia.
      now rewrite Nat.add_1_r.
    + assert (E : (45 =? c) = false) by (apply N.eqb_neq; congruence).
      now rewrite E.
  - cbn [startsWith str_eqb skipn]. rewrite andb_false_r.
    now destruct (45 =? c).
Qed.

Lemma execFrom_edge_last (u : str) :
  forall pos, pos <> 0%nat ->
    execFrom edgeHyphenRe pos (u ++ js "-") =
    Some (mkMatch (pos + length u) (S (pos + length u)) (js "-") [] []).
Proof.
  induction u as [|c u IH]; intros pos Hpos.
  - apply execFrom_hit. rewrite matchAt_edge_later by exact Hpos.
    cbn. now rewrite Nat.add_0_r.
  - cbn [app execFrom]. rewrite matchAt_edge_later by exact Hpos.
    assert (E : str_eqb (c :: u ++ js "-") (js "-") = false).
    { apply str_eqb_neq. intros H. apply (f_equal (@length N)) in H.
      cbn in H. rewrite length_app in H. cbn in H. lia. }
    rewrite E, IH by lia. cbn [length]. f_equal. f_equal; lia.
Qed.

Lemma execFrom_edge_none (t : str) :
  (forall u, t <> u ++ js "-") ->
  forall pos, pos <> 0%nat -> execFrom edgeHyphenRe pos t = None.
Proof.
  induction t as [|c t IH]; intros Hno pos Hpos; cbn [execFrom];
    rewrite matchAt_edge_later by exact Hpos.
  - reflexivity.
  - assert (E : str_eqb (c :: t) (js "-") = false).
    { apply str_eqb_neq. intros H. apply (Hno []). exact H. }
    rewrite E. apply IH; [|lia].
    intros u ->. apply (Hno (c :: u)). reflexivity.
Qed.

Lemma replaceLoop_nil (fuel : nat) (r : regex) (rep : str) (pos : nat) :
  execFrom r pos [] = None -> replaceLoop fuel r rep pos [] = [].
Proof. intros H. destruct fuel; cbn [replaceLoop]; [reflexivity | now rewrite H]. Qed.

Lemma last_cases (t : str) :
  (exists u, t = u ++ js "-") \/
  ((forall u, t <> u ++ js "-") /\ dropTrailingHyphen t = t).
Proof.
  unfold dropTrailingHyphen.
  destruct (rev t) as [|c r] eqn:E.
  - right. apply (f_equal (@rev N)) in E. rewrite rev_involutive in E.
    subst t. split; [|reflexivity]. intros u H. now destruct u.
  - apply (f_equal (@rev N)) in E. rewrite rev_involutive in E. simpl in E.
    destruct (N.eqb_spec c 45) as [->|Hc].
    + left. now exists (rev r).
    + right. split.
      * intros u H. rewrite E in H. apply app_inj_tail in H as [_ H].
        now apply Hc.
      * cbn [dropLeadingHyphen]. apply N.eqb_neq in Hc. rewrite Hc.
        simpl. now rewrite E.
Qed.

Lemma dropTrailingHyphen_last (u : str) : dropTrailingHyphen (u ++ js "-") = u.
Proof.
  unfold dropTrailingHyphen. rewrite rev_app_distr. cbn. apply rev_involutive.
Qed.

Lemma replaceLoop_edge_later (fuel : nat) (t : str) (pos : nat) :
  pos <> 0%nat ->
  replaceLoop (S fuel) edgeHyphenRe [] pos t = dropTrailingHyphen t.
Proof.
  intros Hpos. cbn [replaceLoop].
  destruct (last_cases t) as [(u & ->)|(Hno & ->)].
  - rewrite execFrom_edge_last by exact Hpos. cbn [m_index m_end m_rest].
    replace (Nat.eqb (S (pos + length u)) (pos + length u)) with false
      by (symmetry; apply Nat.eqb_neq; lia).
    replace (pos + length u - pos)%nat with (length u) by lia.
    rewrite firstn_app_length, dropTrailingHyphen_last.
    rewrite replaceLoop_nil; [now rewrite app_nil_r|].
    now apply execFrom_edge_none; [intros [|? ?] | lia].
  - now rewrite execFrom_edge_none.
Qed.

Lemma replaceLoop_S (fuel : nat) (r : regex) (rep : str) (pos : nat) (s : str) :
  replaceLoop (S fuel) r rep pos s =
  match execFrom r pos s with
  | None => s
  | Some m =>
      let before := firstn (m_index m - pos) s in
      if Nat.eqb (m_end m) (m_index m) then
        match m_rest m with
        | [] => before ++ rep
        | c :: rest' =>
            before ++ rep ++ c :: replaceLoop fuel r rep (S (m_end m)) rest'
        end
      else before ++ rep ++ replaceLoop fuel r rep (m_end m) (m_rest m)
  end.
Proof. reflexivity. Qed.

(** The second replacement of the slug drops one hyphen at each end. *)
Lemma replaceAll_edge (t : str) :
  replaceAll edgeHyphenRe [] t = dropTrailingHyphen (dropLeadingHyphen t).
Proof.
  unfold replaceAll. destruct t as [|c t]; [reflexivity|].
  rewrite replaceLoop_S. cbn [length execFrom dropLeadingHyphen].
  destruct (c =? 45) eqn:Hc.
  - apply N.eqb_eq in Hc. subst c.
    change (matchAt edgeHyphenRe 0 (45 :: t))
      with (Some (mkMatch 0 1 (firstn 1 (45 :: t)) t [])).
    cbn [m_index m_end m_rest Nat.eqb Nat.sub firstn app].
    destruct t as [|d t]; [reflexivity|].
    cbn [length]. now apply replaceLoop_edge_later.
  - assert (Hm : matchAt edgeHyphenRe 0 (c :: t) = None).
    { unfold matchAt, edgeHyphenRe. cbn [rmatch Nat.eqb].
      change (js "-") with [45].
      rewrite startsWith_head_neq by (intros <-; now rewrite N.eqb_refl in Hc).
      reflexivity. }
    rewrite Hm.
    destruct (last_cases t) as [(u & ->)|(Hno & Ht)].
    + rewrite execFrom_edge_last by lia. cbn [m_index m_end m_rest].
      replace (Nat.eqb (S (1 + length u)) (1 + length u)) with false
        by (symmetry; apply Nat.eqb_neq; lia).
      replace (1 + length u - 0)%nat with (S (length u)) by lia.
      cbn [firstn]. rewrite firstn_app_length.
      rewrite replaceLoop_nil
        by (now apply execFrom_edge_none; [intros [|? ?] | lia]).
      rewrite app_nil_r.
      change (c :: u ++ js "-") with ((c :: u) ++ js "-").
      now rewrite dropTrailingHyphen_last.
    + rewrite execFrom_edge_none by (trivial; lia).
      destruct (last_cases (c :: t)) as [(u & E)|(_ & ->)]; [|reflexivity].
      exfalso. destruct u as [|d u]; simpl in E.
      * injection E as -> _. now rewrite N.eqb_refl in Hc.
      * injection E as _ E. now apply (Hno u).
Qed.

(** The slug of a name, written out: the runs outside a-z and 0-9 of the
    lower-cased name become single hyphens, and one hyphen is dropped at
    each end. *)
Lemma slugOf_written_out (host : Host) (name : str) :
  slugOf name =
  dropTrailingHyphen (dropLeadingHyphen (hyphenate false (toLowerCase name))).
Proof.
  unfold slugOf. now rewrite replaceAll_nonSlug_hyphenate, replaceAll_edge.
Qed.

Lemma slugChar_not_hyphen (c : N) : isSlugChar c = true -> c <> 45.
Proof. intros H ->. discriminate H. Qed.

Lemma noDoubleHyphen_cons (c : N) (s : str) :
  noDoubleHyphen s -> (c <> 45 \/ forall t, s <> 45 :: t) ->
  noDoubleHyphen (c :: s).
Proof.
  intros Hs Hc [|a0 a] b E; simpl in E.
  - injection E as -> E. destruct Hc as [Hc|Hc]; [now apply Hc | now apply (Hc b)].
  - injection E as _ E. now apply (Hs a b).
Qed.

Lemma noDoubleHyphen_tail (c : N) (s : str) :
  noDoubleHyphen (c :: s) -> noDoubleHyphen s.
Proof. intros H a b E. apply (H (c :: a) b). now rewrite E. Qed.

Lemma noDoubleHyphen_rev (s : str) : noDoubleHyphen s -> noDoubleHyphen (rev s).
Proof.
  intros H a b E. apply (H (rev b) (rev a)).
  rewrite <- (rev_involutive s), E, rev_app_distr. simpl.
  now rewrite <- !app_assoc.
Qed.

Lemma hyphenate_alphabet (s : str) : forall f, slugAlphabet (hyphenate f s).
Proof.
  unfold slugAlphabet. induction s as [|c s IH]; intros f; cbn [hyphenate].
  - constructor.
  - destruct (isSlugChar c) eqn:Hc; [constructor; auto|].
    destruct f; [apply IH | constructor; auto].
Qed.

Lemma hyphenate_shape (s : str) :
  forall f,
    noDoubleHyphen (hyphenate f s) /\
    (f = true -> forall t, hyphenate f s <> 45 :: t).
Proof.
  induction s as [|c s IH]; intros f; cbn [hyphenate].
  - split; [intros [|? ?] ? ?; discriminate | discriminate].
  - destruct (isSlugChar c) eqn:Hc.
    + split.
      * apply noDoubleHyphen_cons; [apply IH|].
        left. now apply slugChar_not_hyphen.
      * intros _ t E. injection E as -> _. discriminate Hc.
    + destruct f.
      * apply IH.
      * split; [|discriminate].
        apply noDoubleHyphen_cons; [apply IH|]. right. now apply IH.
Qed.

Lemma dropLeadingHyphen_cases (s : str) :
  (dropLeadingHyphen s = s /\ forall t, s <> 45 :: t) \/
  s = 45 :: dropLeadingHyphen s.
Proof.
  destruct s as [|c s]; [left; split; [reflexivity | discriminate]|].
  cbn [dropLeadingHyphen]. destruct (N.eqb_spec c 45) as [->|Hc].
  - now right.
  - left. split; [reflexivity|]. intros t E. injection E as -> _. now apply Hc.
Qed.

Lemma dropLeadingHyphen_safe (s : str) :
  slugAlphabet s -> noDoubleHyphen s ->
  slugAlphabet (dropLeadingHyphen s) /\
  noDoubleHyphen (dropLeadingHyphen s) /\
  (forall t, dropLeadingHyphen s <> 45 :: t) /\
  ((forall t, s <> t ++ [45]) -> forall t, dropLeadingHyphen s <> t ++ [45]).
Proof.
  intros Ha Hn. destruct (dropLeadingHyphen_cases s) as [[-> Hh]|E]; [auto|].
  rewrite E in Ha, Hn. split; [now inversion Ha|].
  split; [now apply noDoubleHyphen_tail in Hn|]. split.
  - intros t Et. apply (Hn [] t). now rewrite Et.
  - intros Hl t Et. apply (Hl (45 :: t)). now rewrite E, Et.
Qed.

Lemma written_out_safe (s : str) :
  slugAlphabet (dropTrailingHyphen (dropLeadingHyphen (hyphenate false s))) /\
  (forall t, dropTrailingHyphen (dropLeadingHyphen (hyphenate false s)) <> 45 :: t) /\
  (forall t, dropTrailingHyphen (dropLeadingHyphen (hyphenate false s)) <> t ++ [45]) /\
  noDoubleHyphen (dropTrailingHyphen (dropLeadingHyphen (hyphenate false s))).
Proof.
  set (r := hyphenate false s).
  assert (Ha : slugAlphabet r) by apply hyphenate_alphabet.
  assert (Hn : noDoubleHyphen r) by apply hyphenate_shape.
  destruct (dropLeadingHyphen_safe r Ha Hn) as (Ha1 & Hn1 & Hh1 & _).
  set (l := dropLeadingHyphen r) in *.
  assert (Ha2 : slugAlphabet (rev l)) by (now apply Forall_rev).
  assert (Hn2 : noDoubleHyphen (rev l)) by (now apply noDoubleHyphen_rev).
  assert (Hl2 : forall t, rev l <> t ++ [45]).
  { intros t E. apply (Hh1 (rev t)).
    rewrite <- (rev_involutive l), E, rev_app_distr. reflexivity. }
  destruct (dropLeadingHyphen_safe (rev l) Ha2 Hn2) as (Ha3 & Hn3 & Hh3 & Hl3).
  specialize (Hl3 Hl2). unfold dropTrailingHyphen.
  set (m := dropLeadingHyphen (rev l)) in *.
  split; [now apply Forall_rev|]. split; [|split].
  - intros t E. apply (Hl3 (rev t)).
    rewrite <- (rev_involutive m), E. reflexivity.
  - intros t E. apply (Hh3 (rev t)).
    rewrite <- (rev_involutive m), E, rev_app_distr. reflexivity.
  - apply noDoubleHyphen_rev in Hn3. exact Hn3.
Qed.

(** X10. A slug is safe in a URL: it is made of a-z, 0-9 and hyphens, neither
    starts nor ends with a hyphen, and has no two hyphens in a row. *)
Theorem slugOf_url_safe (host : Host) (name : str) :
  slugAlphabet (slugOf name) /\
  (forall t, slugOf name <> js "-" ++ t) /\
  (forall t, slugOf name <> t ++ js "-") /\
  (forall a b, slugOf name <> a ++ js "--" ++ b).
Proof.
  rewrite slugOf_written_out.
  destruct (written_out_safe (toLowerCase name)) as (Ha & Hh & Hl & Hn).
  split; [exact Ha|]. split; [|split].
  - intros t. apply Hh.
  - intros t. apply Hl.
  - intros a b. apply Hn.
Qed.

Lemma hyphenate_fixed (s : str) :
  forall f,
    slugAlphabet s -> noDoubleHyphen s ->
    (f = true -> forall t, s <> 45 :: t) ->
    hyphenate f s = s.
Proof.
  induction s as [|c s IH]; intros f Ha Hn Hf; [reflexivity|].
  cbn [hyphenate]. inversion Ha as [|? ? Hc Ha']; subst.
  pose proof (noDoubleHyphen_tail _ _ Hn) as Hn'.
  destruct (isSlugChar c) eqn:E.
  - f_equal. apply IH; trivial. discriminate.
  - destruct Hc as [Hc| ->]; [discriminate|].
    destruct f; [exfalso; now apply (Hf eq_refl s)|].
    f_equal. apply IH; trivial.
    intros _ t Et. apply (Hn [] t). now rewrite Et.
Qed.

(** X11. A slug is its own slug, on a host whose lower-casing leaves it as it
    is. *)
Theorem slugOf_idempotent (host : Host) (name : str) :
  toLowerCase (slugOf name) = slugOf name ->
  slugOf (slugOf name) = slugOf name.
Proof.
  intros Hlow.
  pose proof (written_out_safe (toLowerCase name)) as (Ha & Hh & Hl & Hn).
  rewrite <- slugOf_written_out in Ha, Hh, Hl, Hn.
  rewrite (slugOf_written_out host (slugOf name)), Hlow.
  rewrite (hyphenate_fixed (slugOf name) false Ha Hn ltac:(discriminate)).
  destruct (dropLeadingHyphen_cases (slugOf name)) as [[-> _]|E];
    [|exfalso; now apply (Hh (dropLeadingHyphen (slugOf name)))].
  destruct (last_cases (slugOf name)) as [(u & E)|[_ ->]]; [|reflexivity].
  exfalso. now apply (Hl u).
Qed.

Lemma slugOf_idempotent_witness :
  @slugOf asciiHost (@slugOf asciiHost (js "  Puppet Show (v2)! ")) =
  js "puppet-show-v2".
Proof.
  rewrite (slugOf_idempotent asciiHost (js "  Puppet Show (v2)! ")).
  - reflexivity.
  - reflexivity.
Defined.

(** * The fields of an initiative *)

Lemma url_of_project (host : Host) (project : LinearProjectNode.t) :
  Initiative.url (projectToInitiative project) =
  orStr (ProjectMeta.url (fst (parseMeta (LinearProjectNode.content project))))
        (LinearProjectNode.url project).
Proof. now initiative_field. Qed.

(** X12. The link of an initiative is the [url] of the meta block when it has a
    non-empty one, the URL of the project in Linear otherwise; it is
    non-empty whenever the latter is. *)
Theorem url_fallback (host : Host) (project : LinearProjectNode.t) :
  Initiative.url (projectToInitiative project) =
    firstNonEmpty
      [ProjectMeta.url (fst (parseMeta (LinearProjectNode.content project)));
       Some (LinearProjectNode.url project)] /\
  (LinearProjectNode.url project <> [] ->
   Initiative.url (projectToInitiative project) <> []).
Proof.
  rewrite url_of_project.
  destruct (ProjectMeta.url _) as [[|c s]|];
    destruct (LinearProjectNode.url project); simpl; split;
    try reflexivity; try discriminate; auto.
Qed.

Lemma url_fallback_witness :
  Initiative.url (@projectToInitiative asciiHost fooNode) <> [] /\
  Initiative.url puppetInitiative = js "https://puppet.inquiry.institute".
Proof.
  split; [|reflexivity].
  apply (proj2 (url_fallback asciiHost fooNode)). discriminate.
Defined.

Lemma orNull_not_empty (a : option str) : orNull a <> Some [].
Proof. destruct a as [[|c s]|]; discriminate. Qed.

(** X13. The optional fields of an initiative are [null] or a non-empty string,
    never the empty string. *)
Theorem optional_fields_not_empty (host : Host) (project : LinearProjectNode.t) :
  Initiative.page_path (projectToInitiative project) <> Some [] /\
  Initiative.subdomain (projectToInitiative project) <> Some [] /\
  Initiative.opencollective_slug (projectToInitiative project) <> Some [] /\
  Initiative.opencollective_type (projectToInitiative project) <> Some [].
Proof. initiative_field. cbn. repeat split; apply orNull_not_empty. Qed.

Lemma mapProjectState_never_in_development (state : str) :
  mapProjectState state <> in_development.
Proof.
  unfold mapProjectState.
  repeat match goal with
         | |- context [if ?b then _ else _] => destruct b; try discriminate
         end.
Qed.

(** X15. Whatever the state of its project, an initiative is active, planned or
    beta: the status in-development is never given. *)
Theorem status_never_in_development (host : Host) (project : LinearProjectNode.t) :
  Initiative.status (projectToInitiative project) = active \/
  Initiative.status (projectToInitiative project) = planned \/
  Initiative.status (projectToInitiative project) = beta.
Proof.
  initiative_field. cbn [Initiative.status].
  pose proof (mapProjectState_never_in_development
                (LinearProjectNode.state project)) as H.
  destruct (mapProjectState (LinearProjectNode.state project)); auto.
  contradiction.
Qed.

Lemma round_percent (q : Q) :
  (0 <= q <= 1)%Q -> isPercent (Math_round (numMul (Fin q) (num 100))).
Proof.
  intros [H0 H1]. cbn [numMul num Math_round].
  exists (Qfloor (Qred (q * inject_Z 100) + (1 # 2))). split; [reflexivity|].
  assert (E : (Qred (q * inject_Z 100) + (1 # 2) == q * inject_Z 100 + (1 # 2))%Q)
    by (now rewrite Qred_correct).
  rewrite (Qfloor_comp _ _ E). split.
  - change 0%Z with (Qfloor (inject_Z 0)).
    apply Qfloor_resp_le.
    apply Qle_trans with (0 * inject_Z 100 + (1 # 2))%Q; [discriminate|].
    apply Qplus_le_l. apply Qmult_le_compat_r; [exact H0 | discriminate].
  - change 100%Z with (Qfloor (1 * inject_Z 100 + (1 # 2))).
    apply Qfloor_resp_le.
    apply Qplus_le_l. apply Qmult_le_compat_r; [exact H1 | discriminate].
Qed.

(** X14. The completeness of an initiative is an integer between 0 and 100 when
    the progress of its project is between 0 and 1. *)
Theorem completeness_percent (host : Host) (project : LinearProjectNode.t) :
  unitProgress project ->
  isPercent (Initiative.completeness (projectToInitiative project)).
Proof.
  intros (q & Hq & Hb). rewrite completeness_of_project, Hq.
  now apply round_percent.
Qed.

Lemma completeness_percent_witness :
  isPercent (Initiative.completeness (@projectToInitiative asciiHost puppetNode)).
Proof.
  apply (completeness_percent asciiHost puppetNode).
  exists (42 # 100). split; [reflexivity|]. split; discriminate.
Defined.

(** * The request and what depends on it *)


(** X18. The list of initiatives holds the initiative of every fetched project
    that is not canceled, each once, and nothing else. *)
Theorem getAllInitiatives_members (host : Host) (w : World)
    (nodes : list LinearProjectNode.t) :
  gql w = Fulfilled (Some nodes) ->
  exists l,
    getAllInitiatives w = Fulfilled l /\
    Permutation l (map projectToInitiative (filter notCanceled nodes)) /\
    (forall i, In i l <->
               exists p, In p nodes /\
                         LinearProjectNode.state p <> js "canceled" /\
                         i = projectToInitiative p).
Proof.
  intros Hg. exists (initiativesOf nodes). unfold getAllInitiatives.
  rewrite Hg. split; [reflexivity|]. split.
  - unfold initiativesOf. symmetry. apply sort_Permutation.
  - intros i. unfold initiativesOf. rewrite sort_In, in_map_iff. split.
    + intros (p & <- & Hp). apply filter_In in Hp as [Hp Hc].
      exists p. repeat split; trivial.
      unfold notCanceled in Hc. apply negb_true_iff in Hc.
      intros E. apply str_eqb_eq in E. congruence.
    + intros (p & Hp & Hc & ->). exists p. split; [reflexivity|].
      apply filter_In. split; [exact Hp|]. unfold notCanceled.
      now rewrite str_eqb_neq.
Qed.

Lemma getAllInitiatives_members_witness :
  exists l,
    @getAllInitiatives asciiHost
       (worldOf [fooNode; sampleNode "Gone" None None "canceled" 0 []]) =
      Fulfilled l /\
    l = [fooInitiative].
Proof.
  destruct (getAllInitiatives_members asciiHost
              (worldOf [fooNode; sampleNode "Gone" None None "canceled" 0 []])
              [fooNode; sampleNode "Gone" None None "canceled" 0 []] eq_refl)
    as (l & Hl & _).
  exists l. split; [exact Hl|]. vm_compute in Hl. now injection Hl as <-.
Defined.

(** * The lookups *)

Lemma optIs_true (field : option str) (s : str) :
  optIs field s = true <-> field = Some s.
Proof.
  destruct field as [f|]; simpl; [|split; discriminate].
  rewrite str_eqb_eq. split; [now intros -> | now intros [= ->]].
Qed.

Lemma optIs_false (field : option str) (s : str) :
  optIs field s = false <-> field <> Some s.
Proof.
  rewrite <- optIs_true. destruct (optIs field s); split; congruence.
Qed.

Lemma normalizePath_slash (p : str) : exists q, normalizePath p = js "/" ++ q.
Proof.
  unfold normalizePath. destruct (startsWith p (js "/")) eqn:E.
  - apply startsWith_prefix in E as [q ->]. now exists q.
  - now exists p.
Qed.

(** X21. A lookup by page path returns the first initiative of the list whose
    [page_path] is the path asked for, a slash put in front when it has
    none. What it returns has a [page_path] that starts with a slash: an
    initiative whose meta block gives a path without the slash is never
    found. *)
Theorem getInitiativeByPagePath_first (host : Host) (w : World)
    (l : list Initiative.t) (p : str) :
  getAllInitiatives w = Fulfilled l ->
  (forall i,
      getInitiativeByPagePath w p = Fulfilled (Some i) <->
      exists l1 l2,
        l = l1 ++ i :: l2 /\
        Initiative.page_path i = Some (normalizePath p) /\
        Forall (fun j => Initiative.page_path j <> Some (normalizePath p)) l1) /\
  (forall i,
      getInitiativeByPagePath w p = Fulfilled (Some i) ->
      exists q, Initiative.page_path i = Some (js "/" ++ q)).
Proof.
  intros Hl.
  assert (Hiff : forall i,
      getInitiativeByPagePath w p = Fulfilled (Some i) <->
      exists l1 l2,
        l = l1 ++ i :: l2 /\
        Initiative.page_path i = Some (normalizePath p) /\
        Forall (fun j => Initiative.page_path j <> Some (normalizePath p)) l1).
  { intros i. unfold getInitiativeByPagePath. rewrite Hl. cbn [bind]. split.
    - intros H. injection H as H.
      apply find_first in H as (l1 & l2 & E & Hi & Hl1).
      exists l1, l2. repeat split; trivial.
      + now apply optIs_true.
      + eapply Forall_impl; [|exact Hl1]. intros j. apply optIs_false.
    - intros (l1 & l2 & E & Hi & Hl1). f_equal. apply find_first.
      exists l1, l2. repeat split; trivial.
      + now apply optIs_true.
      + eapply Forall_impl; [|exact Hl1]. intros j. apply optIs_false. }
  split; [exact Hiff|].
  intros i Hi. apply Hiff in Hi as (_ & _ & _ & Hp & _).
  destruct (normalizePath_slash p) as [q Hq]. exists q. now rewrite Hp, Hq.
Qed.

Lemma getInitiativeByPagePath_first_witness :
  exists q, Initiative.page_path puppetInitiative = Some (js "/" ++ q).
Proof.
  apply (proj2 (getInitiativeByPagePath_first asciiHost
                  (worldOf [fooNode; puppetNode])
                  [fooInitiative; puppetInitiative] (js "puppet") eq_refl)).
  reflexivity.
Defined.

Lemma initiativesOf_from_project (host : Host) (nodes : list LinearProjectNode.t)
    (i : Initiative.t) :
  In i (initiativesOf nodes) -> exists p, i = projectToInitiative p.
Proof.
  unfold initiativesOf. rewrite sort_In, in_map_iff.
  intros (p & <- & _). now exists p.
Qed.

(** X22. A lookup by subdomain returns the first initiative of the list with
    that subdomain, [null] when there is none; the empty subdomain finds
    nothing, since no initiative has it. *)
Theorem getInitiativeBySubdomain_first (host : Host) (w : World)
    (l : list Initiative.t) (s : str) :
  getAllInitiatives w = Fulfilled l ->
  (forall i,
      getInitiativeBySubdomain w s = Fulfilled (Some i) <->
      exists l1 l2,
        l = l1 ++ i :: l2 /\ Initiative.subdomain i = Some s /\
        Forall (fun j => Initiative.subdomain j <> Some s) l1) /\
  (getInitiativeBySubdomain w s = Fulfilled None <->
   Forall (fun j => Initiative.subdomain j <> Some s) l) /\
  getInitiativeBySubdomain w [] = Fulfilled None.
Proof.
  intros Hl. unfold getInitiativeBySubdomain. rewrite Hl. cbn [bind].
  split; [|split].
  - intros i. split.
    + intros H. injection H as H.
      apply find_first in H as (l1 & l2 & E & Hi & Hl1).
      exists l1, l2. repeat split; trivial.
      * now apply optIs_true.
      * eapply Forall_impl; [|exact Hl1]. intros j. apply optIs_false.
    + intros (l1 & l2 & E & Hi & Hl1). f_equal. apply find_first.
      exists l1, l2. repeat split; trivial.
      * now apply optIs_true.
      * eapply Forall_impl; [|exact Hl1]. intros j. apply optIs_false.
  - split.
    + intros H. injection H as H. apply find_none in H.
      eapply Forall_impl; [|exact H]. intros j. apply optIs_false.
    + intros H. f_equal. apply find_none.
      eapply Forall_impl; [|exact H]. intros j. apply optIs_false.
  - f_equal. apply find_none. apply Forall_forall. intros j Hj.
    apply optIs_false.
    destruct (getAllInitiatives_fulfilled _ _ _ Hl) as (nodes & _ & ->).
    apply initiativesOf_from_project in Hj as [p ->].
    unfold projectToInitiative. destruct (parseMeta _) as [meta body].
    cbn [Initiative.subdomain]. apply orNull_not_empty.
Qed.

Lemma getInitiativeBySubdomain_first_witness :
  @getInitiativeBySubdomain asciiHost (worldOf [nonNumericCostNode; fooNode]) [] =
    Fulfilled None /\
  @getInitiativeBySubdomain asciiHost (worldOf [nonNumericCostNode; fooNode])
     (js "words") =
    Fulfilled (Some (@projectToInitiative asciiHost nonNumericCostNode)).
Proof.
  split.
  - apply (proj2 (proj2 (getInitiativeBySubdomain_first asciiHost
                           (worldOf [nonNumericCostNode; fooNode])
                           (@initiativesOf asciiHost [nonNumericCostNode; fooNode])
                           [] eq_refl))).
  - reflexivity.
Defined.

(** X23. The lookup for a page. Without a path and without a subdomain it
    returns [null] and sends nothing. With a path it asks by path first: what
    is found is returned, whatever a lookup by subdomain would give, and an
    error of that request is the error of the whole. Only when the path
    finds nothing, or is missing, is the subdomain asked for. *)
Theorem getInitiativeForPage_order (host : Host) (w1 w2 : World)
    (pagePath subdomain : option str) :
  (truthyStr pagePath = false -> truthyStr subdomain = false ->
   getInitiativeForPage w1 w2 pagePath subdomain = Fulfilled None) /\
  (forall p i,
      pagePath = Some p -> p <> [] ->
      getInitiativeByPagePath w1 p = Fulfilled (Some i) ->
      getInitiativeForPage w1 w2 pagePath subdomain = Fulfilled (Some i)) /\
  (forall p e,
      pagePath = Some p -> p <> [] ->
      getInitiativeByPagePath w1 p = Rejected e ->
      getInitiativeForPage w1 w2 pagePath subdomain = Rejected e) /\
  (forall s,
      (truthyStr pagePath = false \/
       exists p, pagePath = Some p /\
                 getInitiativeByPagePath w1 p = Fulfilled None) ->
      subdomain = Some s -> s <> [] ->
      getInitiativeForPage w1 w2 pagePath subdomain =
      getInitiativeBySubdomain w2 s).
Proof.
  unfold getInitiativeForPage. repeat split.
  - intros Hp Hs. now rewrite Hp, Hs.
  - intros p i -> Hne Hi. destruct p; [contradiction|]. cbn [truthyStr orStr].
    now rewrite Hi.
  - intros p e -> Hne He. destruct p; [contradiction|]. cbn [truthyStr orStr].
    now rewrite He.
  - intros s Hp -> Hs. destruct s; [contradiction|].
    assert (E : (if truthyStr pagePath
                 then getInitiativeByPagePath w1 (orStr pagePath [])
                 else Fulfilled None) = Fulfilled None).
    { destruct Hp as [Hp|(p & -> & Hp)]; [now rewrite Hp|].
      destruct p; [reflexivity|]. cbn [truthyStr orStr]. exact Hp. }
    rewrite E. cbn [bind truthyStr orStr].
    now destruct (getInitiativeBySubdomain w2 (n :: s)).
Qed.

Lemma getInitiativeForPage_order_witness :
  @getInitiativeForPage asciiHost (worldOf [fooNode; puppetNode])
     (mkWorld None None None) (Some (js "puppet")) (Some (js "words")) =
    Fulfilled (Some puppetInitiative) /\
  @getInitiativeForPage asciiHost (mkWorld None None None)
     (mkWorld None None None) None (Some []) = Fulfilled None.
Proof.
  split.
  - apply (proj1 (proj2 (getInitiativeForPage_order asciiHost
                           (worldOf [fooNode; puppetNode]) (mkWorld None None None)
                           (Some (js "puppet")) (Some (js "words"))))
             (js "puppet") puppetInitiative eq_refl).
    + discriminate.
    + reflexivity.
  - apply (proj1 (getInitiativeForPage_order asciiHost (mkWorld None None None)
                    (mkWorld None None None) None (Some []))); reflexivity.
Defined.

(** * The two figures of the dashboard *)

Lemma total_cost (l : list Initiative.t) (zs : list Z) :
  map Initiative.cost_estimate l = map num zs ->
  forall a,
    fold_left (fun sum i => numAdd sum (Initiative.cost_estimate i)) l (num a) =
    num (a + fold_right Z.add 0 zs)%Z.
Proof.
  revert zs. induction l as [|i l IH]; intros [|z zs] H a;
    cbn [map fold_left fold_right] in *; try discriminate.
  - now rewrite Z.add_0_r.
  - injection H as Hi Hl. rewrite Hi, numAdd_num, (IH zs Hl).
    now rewrite Z.add_assoc.
Qed.

(** X24. The total cost is the sum of the cost estimates, when these are
    integers; an initiative without a cost estimate counts for 0, and the
    total of no initiative is 0. *)
Theorem getTotalCostEstimate_sum (host : Host) (w : World)
    (l : list Initiative.t) (zs : list Z) :
  getAllInitiatives w = Fulfilled l ->
  map Initiative.cost_estimate l = map num zs ->
  getTotalCostEstimate w = Fulfilled (num (fold_right Z.add 0%Z zs)).
Proof.
  intros Hl Hzs. unfold getTotalCostEstimate. rewrite Hl. cbn [bind].
  now rewrite (total_cost _ _ Hzs).
Qed.

Lemma getTotalCostEstimate_sum_witness :
  @getTotalCostEstimate asciiHost (worldOf [puppetNode; fooNode; negativeCostNode]) =
    Fulfilled (num 4995) /\
  @getTotalCostEstimate asciiHost (worldOf []) = Fulfilled (num 0).
Proof.
  split.
  - apply (getTotalCostEstimate_sum asciiHost
             (worldOf [puppetNode; fooNode; negativeCostNode])
             (@initiativesOf asciiHost [puppetNode; fooNode; negativeCostNode])
             [-5; 0; 5000]%Z); reflexivity.
  - apply (getTotalCostEstimate_sum asciiHost (worldOf []) [] []); reflexivity.
Defined.

Lemma sum_bounds (zs : list Z) :
  Forall (fun z => (0 <= z <= 100)%Z) zs ->
  (0 <= fold_right Z.add 0 zs <= 100 * Z.of_nat (length zs))%Z.
Proof.
  induction 1 as [|z zs Hz _ IH]; cbn [fold_right length]; [lia|].
  rewrite Nat2Z.inj_succ. lia.
Qed.

Lemma roundedAverage_percent (zs : list Z) :
  zs <> [] -> Forall (fun z => (0 <= z <= 100)%Z) zs ->
  (0 <= roundedAverage zs <= 100)%Z.
Proof.
  intros Hne Hzs. pose proof (roundedAverage_nearest zs Hne) as Hr.
  pose proof (sum_bounds zs Hzs) as Hs. cbv zeta in Hr.
  assert (Hn : (0 < Z.of_nat (length zs))%Z)
    by (destruct zs; [contradiction | simpl length; lia]).
  nia.
Qed.

Lemma percents_listed (l : list Initiative.t) :
  Forall (fun i => isPercent (Initiative.completeness i)) l ->
  exists zs,
    map Initiative.completeness l = map num zs /\
    Forall (fun z => (0 <= z <= 100)%Z) zs.
Proof.
  induction 1 as [|i l (z & Hz & Hb) _ (zs & IH & Hzs)].
  - exists []. split; [reflexivity | constructor].
  - exists (z :: zs). split; [simpl; now rewrite Hz, IH | now constructor].
Qed.

Lemma average_of_integers (host : Host) (w : World) (l : list Initiative.t)
    (zs : list Z) :
  getAllInitiatives w = Fulfilled l -> l <> [] ->
  map Initiative.completeness l = map num zs ->
  getAverageCompleteness w = Fulfilled (num (roundedAverage zs)).
Proof.
  intros Hl Hne Hzs. unfold getAverageCompleteness. rewrite Hl. cbn [bind].
  destruct l as [|i l]; [contradiction|]. cbn [length Nat.eqb].
  rewrite (total_completeness _ _ Hzs). f_equal.
  assert (Hlen : length zs = length (i :: l)).
  { rewrite <- (length_map num zs), <- Hzs. apply length_map. }
  unfold roundedAverage. rewrite Hlen. cbn [length].
  rewrite Nat2Z.inj_succ, <- Zpos_P_of_succ_nat, Z.add_0_l.
  apply round_quotient.
Qed.

(** X25. The average completeness is an integer between 0 and 100 when the
    progress of every project fetched is between 0 and 1. *)
Theorem getAverageCompleteness_percent (host : Host) (w : World)
    (nodes : list LinearProjectNode.t) :
  gql w = Fulfilled (Some nodes) ->
  Forall unitProgress nodes ->
  exists x, getAverageCompleteness w = Fulfilled x /\ isPercent x.
Proof.
  intros Hg Hnodes.
  assert (Hl : getAllInitiatives w = Fulfilled (initiativesOf nodes))
    by (unfold getAllInitiatives; now rewrite Hg).
  destruct (initiativesOf nodes) as [|i l] eqn:El.
  - exists (num 0). split.
    + unfold getAverageCompleteness. now rewrite Hl.
    + exists 0%Z. split; [reflexivity | lia].
  - destruct (percents_listed (i :: l)) as (zs & Hzs & Hb).
    { apply Forall_forall. intros j Hj. rewrite <- El in Hj.
      unfold initiativesOf in Hj.
      apply sort_In, in_map_iff in Hj as (p & <- & Hp).
      apply filter_In in Hp as [Hp _].
      rewrite Forall_forall in Hnodes. destruct (Hnodes p Hp) as (q & Hq & Hb).
      rewrite completeness_of_project, Hq. now apply round_percent. }
    exists (num (roundedAverage zs)). split.
    + apply (average_of_integers host w (i :: l) zs); trivial. discriminate.
    + exists (roundedAverage zs). split; [reflexivity|].
      apply roundedAverage_percent; [|exact Hb].
      intros ->. discriminate Hzs.
Qed.

Lemma getAverageCompleteness_percent_witness :
  exists x,
    @getAverageCompleteness asciiHost (worldOf [fooNode; fooBangNode]) =
      Fulfilled x /\ isPercent x.
Proof.
  apply (getAverageCompleteness_percent asciiHost (worldOf [fooNode; fooBangNode])
           [fooNode; fooBangNode] eq_refl).
  repeat constructor.
  - exists (1 # 2). split; [reflexivity|]. split; discriminate.
  - exists (3 # 4). split; [reflexivity|]. split; discriminate.
Defined.

(** * The status page *)

Lemma fulfilled_iff_gql (host : Host) (w : World) :
  ((exists l, getAllInitiatives w = Fulfilled l) <->
   exists nodes, gql w = Fulfilled (Some nodes)) /\
  ((exists x, getTotalCostEstimate w = Fulfilled x) <->
   exists nodes, gql w = Fulfilled (Some nodes)) /\
  ((exists x, getAverageCompleteness w = Fulfilled x) <->
   exists nodes, gql w = Fulfilled (Some nodes)).
Proof.
  unfold getTotalCostEstimate, getAverageCompleteness, getAllInitiatives.
  destruct (gql w) as [e|[nodes|]]; cbn [bind].
  - repeat split; intros [x H]; discriminate H.
  - destruct (Nat.eqb (length (initiativesOf nodes)) 0);
      repeat split; intros _; eauto.
  - repeat split; intros [x H]; discriminate H.
Qed.

(** X26. How the page takes a failure. Nothing is raised. When the first
    request fails nothing else is asked and the page shows the empty state
    with the notice; the notice is absent exactly when each of the three
    requests delivers its projects; and the list of the first request is shown even when a later
    request fails. *)
Theorem StatusPage_failures (host : Host) (w1 w2 w3 : World) :
  (forall e,
      gql w1 = Rejected e ->
      StatusPage w1 w2 w3 =
      PageData.mk [] (num 0) (num 0) true 0%nat 0%nat 0%nat) /\
  (PageData.error (StatusPage w1 w2 w3) = false <->
   exists n1 n2 n3,
     gql w1 = Fulfilled (Some n1) /\ gql w2 = Fulfilled (Some n2) /\ gql w3 = Fulfilled (Some n3)) /\
  (forall nodes,
      gql w1 = Fulfilled (Some nodes) ->
      PageData.initiatives (StatusPage w1 w2 w3) = initiativesOf nodes).
Proof.
  split; [|split].
  - intros e He. unfold StatusPage, loadStatus, getAllInitiatives.
    now rewrite He.
  - destruct (fulfilled_iff_gql host w1) as (H1 & _ & _).
    destruct (fulfilled_iff_gql host w2) as (_ & H2 & _).
    destruct (fulfilled_iff_gql host w3) as (_ & _ & H3).
    unfold StatusPage, loadStatus.
    destruct (getAllInitiatives w1) as [e1|l].
    { split; [discriminate|]. intros (n1 & _ & _ & G1 & _).
      destruct (proj2 H1 (ex_intro _ n1 G1)) as [x Hx]. discriminate Hx. }
    destruct (getTotalCostEstimate w2) as [e2|c].
    { split; [discriminate|]. intros (_ & n2 & _ & _ & G2 & _).
      destruct (proj2 H2 (ex_intro _ n2 G2)) as [x Hx]. discriminate Hx. }
    destruct (getAverageCompleteness w3) as [e3|a].
    { split; [discriminate|]. intros (_ & _ & n3 & _ & _ & G3).
      destruct (proj2 H3 (ex_intro _ n3 G3)) as [x Hx]. discriminate Hx. }
    split; [|reflexivity]. intros _.
    destruct (proj1 H1 (ex_intro _ l eq_refl)) as [n1 G1].
    destruct (proj1 H2 (ex_intro _ c eq_refl)) as [n2 G2].
    destruct (proj1 H3 (ex_intro _ a eq_refl)) as [n3 G3].
    exists n1, n2, n3. auto.
  - intros nodes Hg. unfold StatusPage, loadStatus, getAllInitiatives.
    rewrite Hg. cbn [bind].
    destruct (getTotalCostEstimate w2); [reflexivity|].
    now destruct (getAverageCompleteness w3).
Qed.

Lemma StatusPage_failures_witness :
  PageData.initiatives
    (@StatusPage asciiHost (worldOf [fooNode]) (mkWorld None None None)
       (worldOf [fooNode])) = [fooInitiative] /\
  PageData.error
    (@StatusPage asciiHost (worldOf [fooNode]) (mkWorld None None None)
       (worldOf [fooNode])) = true /\
  @StatusPage asciiHost (mkWorld None None None) (worldOf [fooNode])
    (worldOf [fooNode]) =
    PageData.mk [] (num 0) (num 0) true 0%nat 0%nat 0%nat.
Proof.
  split; [|split].
  - apply (proj2 (proj2 (StatusPage_failures asciiHost (worldOf [fooNode])
                           (mkWorld None None None) (worldOf [fooNode])))
             [fooNode]).
    reflexivity.
  - reflexivity.
  - apply (proj1 (StatusPage_failures asciiHost (mkWorld None None None)
                    (worldOf [fooNode]) (worldOf [fooNode])) MissingApiKey).
    reflexivity.
Defined.

Lemma sums_le (l : list Initiative.t) :
  Forall (fun i => (Initiative.completed_issue_count i <= Initiative.issue_count i)%nat) l ->
  forall a b, (a <= b)%nat ->
    (fold_left (fun s i => (s + Initiative.completed_issue_count i)%nat) l a <=
     fold_left (fun s i => (s + Initiative.issue_count i)%nat) l b)%nat.
Proof.
  induction 1 as [|i l Hi _ IH]; intros a b Hab; simpl; [exact Hab|].
  apply IH. lia.
Qed.

Lemma counts_of_project (host : Host) (project : LinearProjectNode.t) :
  (Initiative.completed_issue_count (projectToInitiative project) <=
   Initiative.issue_count (projectToInitiative project))%nat.
Proof.
  initiative_field. cbn [Initiative.completed_issue_count Initiative.issue_count].
  rewrite countWhere_filter. apply countWhere_le.
Qed.

Lemma shown_from_projects (host : Host) (w1 w2 w3 : World) (i : Initiative.t) :
  In i (PageData.initiatives (StatusPage w1 w2 w3)) ->
  exists p, i = projectToInitiative p.
Proof.
  unfold StatusPage, loadStatus, getAllInitiatives.
  destruct (gql w1) as [e|[nodes|]]; cbn [bind]; try contradiction.
  destruct (getTotalCostEstimate w2);
    [|destruct (getAverageCompleteness w3)];
    cbn [PageData.initiatives]; apply initiativesOf_from_project.
Qed.

(** X27. The figures of the page are consistent: the completed issues are at
    most the issues, and the active initiatives at most the initiatives. *)
Theorem StatusPage_figures (host : Host) (w1 w2 w3 : World) :
  (PageData.completedIssues (StatusPage w1 w2 w3) <=
   PageData.totalIssues (StatusPage w1 w2 w3))%nat /\
  (PageData.activeCount (StatusPage w1 w2 w3) <=
   length (PageData.initiatives (StatusPage w1 w2 w3)))%nat.
Proof.
  pose proof (shown_from_projects host w1 w2 w3) as Hfrom.
  unfold StatusPage in *. destruct (loadStatus w1 w2 w3) as [[[l c] a] e].
  cbn [PageData.completedIssues PageData.totalIssues PageData.activeCount
       PageData.initiatives] in *.
  split.
  - apply sums_le; [|lia]. apply Forall_forall. intros i Hi.
    destruct (Hfrom i Hi) as [p ->]. apply counts_of_project.
  - apply filter_length_le.
Qed.

Lemma status_eqb_eq (a b : InitiativeStatus) : status_eqb a b = true <-> a = b.
Proof. destruct a, b; simpl; split; congruence. Qed.

Lemma bump_keys (s : InitiativeStatus) (counts : list (InitiativeStatus * nat)) :
  forall k, In k (map fst (bump s counts)) <-> k = s \/ In k (map fst counts).
Proof.
  induction counts as [|[k0 n0] counts IH]; intros k; cbn [bump map fst In].
  - intuition congruence.
  - destruct (status_eqb k0 s) eqn:E; cbn [map fst In].
    + apply status_eqb_eq in E. subst. intuition congruence.
    + rewrite IH. intuition congruence.
Qed.

Lemma bump_NoDup (s : InitiativeStatus) (counts : list (InitiativeStatus * nat)) :
  NoDup (map fst counts) -> NoDup (map fst (bump s counts)).
Proof.
  induction counts as [|[k0 n0] counts IH]; intros Hnd; cbn [bump map fst].
  - repeat constructor. intros [].
  - inversion Hnd as [|? ? Hk Hnd']; subst.
    destruct (status_eqb k0 s) eqn:E; cbn [map fst].
    + now constructor.
    + constructor; [|now apply IH]. rewrite bump_keys. intros [->|H].
      * assert (status_eqb s s = true) by now apply status_eqb_eq. congruence.
      * now apply Hk.
Qed.

Lemma bump_entries (s : InitiativeStatus) (counts : list (InitiativeStatus * nat)) :
  NoDup (map fst counts) ->
  forall k n,
    In (k, n) (bump s counts) <->
    (k <> s /\ In (k, n) counts) \/
    (k = s /\ ((~ In s (map fst counts) /\ n = 1%nat) \/
               exists n0, In (s, n0) counts /\ n = S n0)).
Proof.
  induction counts as [|[k0 n0] counts IH]; intros Hnd k n; cbn [bump In map fst].
  - split.
    + intros [E|[]]. injection E as <- <-. right. split; [reflexivity|].
      left. split; [tauto | reflexivity].
    + intros [[_ []]|[-> [[_ ->]|(n0 & [] & _)]]]. now left.
  - inversion Hnd as [|? ? Hk Hnd']; subst.
    destruct (status_eqb k0 s) eqn:E; cbn [In].
    + apply status_eqb_eq in E. subst k0. split.
      * intros [H|H].
        -- injection H as <- <-. right. split; [reflexivity|]. right.
           exists n0. auto.
        -- left. split; [|now right]. intros ->. apply Hk.
           now apply (in_map fst) in H.
      * intros [[Hne [H|H]]|[-> [[Hno _]|(m & [H|H] & ->)]]].
        -- injection H as <- _. contradiction.
        -- now right.
        -- exfalso. apply Hno. now left.
        -- injection H as <-. now left.
        -- exfalso. apply Hk. now apply (in_map fst) in H.
    + assert (Hks : k0 <> s).
      { intros ->. assert (status_eqb s s = true) by now apply status_eqb_eq.
        congruence. }
      rewrite (IH Hnd'). split.
      * intros [H|[[Hne H]|[-> [[Hno ->]|(m & H & ->)]]]].
        -- injection H as <- <-. left. auto.
        -- left. auto.
        -- right. split; [reflexivity|]. left. split; [|reflexivity].
           intros [H|H]; [now apply Hks | now apply Hno].
        -- right. split; [reflexivity|]. right. exists m. auto.
      * intros [[Hne [H|H]]|[-> [[Hno ->]|(m & [H|H] & ->)]]].
        -- now left.
        -- right. left. auto.
        -- right. right. split; [reflexivity|]. left. split; [|reflexivity].
           intros H. apply Hno. now right.
        -- injection H as E' _. contradiction.
        -- right. right. split; [reflexivity|]. right. exists m. auto.
Qed.

Lemma bump_sum (s : InitiativeStatus) (counts : list (InitiativeStatus * nat)) :
  sumCounts (bump s counts) = S (sumCounts counts).
Proof.
  unfold sumCounts.
  induction counts as [|[k0 n0] counts IH]; cbn [bump fold_right snd]; [reflexivity|].
  destruct (status_eqb k0 s); cbn [fold_right snd]; [reflexivity|].
  rewrite IH. lia.
Qed.

Lemma statusCounts_snoc (l : list Initiative.t) (i : Initiative.t) :
  statusCounts (l ++ [i]) = bump (Initiative.status i) (statusCounts l).
Proof. unfold statusCounts. now rewrite fold_left_app. Qed.

Lemma countStatus_snoc (s : InitiativeStatus) (l : list Initiative.t)
    (i : Initiative.t) :
  countStatus s (l ++ [i]) =
  (countStatus s l + if status_eqb (Initiative.status i) s then 1 else 0)%nat.
Proof.
  unfold countStatus. rewrite filter_app, length_app. cbn [filter].
  now destruct (status_eqb (Initiative.status i) s).
Qed.

(** X28. The breakdown has one entry for each status that occurs, with the
    number of initiatives of that status, and none for a status that does
    not occur; the counts add up to the number of initiatives. *)
Theorem statusCounts_sound (initiatives : list Initiative.t) :
  NoDup (map fst (statusCounts initiatives)) /\
  (forall s n,
      In (s, n) (statusCounts initiatives) <->
      n = countStatus s initiatives /\ (0 < n)%nat) /\
  sumCounts (statusCounts initiatives) = length initiatives.
Proof.
  induction initiatives as [|i l (Hnd & Hin & Hsum)] using rev_ind.
  - split; [constructor|]. split; [|reflexivity].
    intros s n. cbn. split; [intros [] | intros [-> H]; lia].
  - rewrite statusCounts_snoc. split; [now apply bump_NoDup|]. split.
    + intros s n. rewrite (bump_entries _ _ Hnd), countStatus_snoc. split.
      * intros [[Hne H]|[-> [[Hno ->]|(n0 & H & ->)]]].
        -- apply Hin in H as [-> Hpos].
           destruct (status_eqb (Initiative.status i) s) eqn:E;
             [apply status_eqb_eq in E; congruence | lia].
        -- assert (E : status_eqb (Initiative.status i) (Initiative.status i) = true)
             by now apply status_eqb_eq.
           rewrite E.
           destruct (countStatus (Initiative.status i) l) as [|c] eqn:Ec;
             [lia|].
           exfalso. apply Hno.
           apply (in_map fst _ (Initiative.status i, S c)).
           apply Hin. rewrite Ec. lia.
        -- apply Hin in H as [-> Hpos].
           assert (E : status_eqb (Initiative.status i) (Initiative.status i) = true)
             by now apply status_eqb_eq.
           rewrite E. lia.
      * intros [-> Hpos].
        destruct (status_eqb (Initiative.status i) s) eqn:E.
        -- apply status_eqb_eq in E. subst s. right. split; [reflexivity|].
           destruct (countStatus (Initiative.status i) l) as [|c] eqn:Ec.
           ++ left. split; [|lia]. intros H. apply in_map_iff in H as ([k n] & Hk & H).
              cbn in Hk. subst k. apply Hin in H. lia.
           ++ right. exists (S c). split; [|lia]. apply Hin. lia.
        -- left. split.
           ++ intros ->. assert (status_eqb (Initiative.status i)
                                   (Initiative.status i) = true)
                by now apply status_eqb_eq. congruence.
           ++ apply Hin. lia.
    + rewrite bump_sum, Hsum, length_app. simpl. lia.
Qed.

Section SortingOn.
Context {A : Type} (cmp : A -> A -> Z) (P : A -> Prop).
Hypothesis cmp_total_on :
  forall x y, P x -> P y -> (0 < cmp x y)%Z -> (cmp y x <= 0)%Z.

Lemma insertSorted_Sorted_on (x : A) (l : list A) :
  P x -> Forall P l ->
  Sorted (notAfter cmp) l -> Sorted (notAfter cmp) (insertSorted cmp x l).
Proof.
  intros Hx Hl Hs. induction Hs as [|y l Hs IH Hhd]; simpl.
  - repeat constructor.
  - inversion Hl as [|? ? Hy Hl']; subst.
    destruct (cmp x y <=? 0)%Z eqn:E.
    + apply Z.leb_le in E. repeat constructor; trivial.
    + apply Z.leb_gt in E. constructor; [now apply IH|].
      apply insertSorted_HdRel; [|exact Hhd]. now apply cmp_total_on.
Qed.

Lemma sort_Sorted_on (l : list A) :
  Forall P l -> Sorted (notAfter cmp) (sort cmp l).
Proof.
  induction 1 as [|x l Hx Hl IH]; simpl; [constructor|].
  apply insertSorted_Sorted_on; trivial.
  apply Forall_forall. intros y Hy. apply sort_In in Hy.
  rewrite Forall_forall in Hl. now apply Hl.
Qed.
End SortingOn.

Lemma Qred_inject_Z (z : Z) : Qred (inject_Z z) = inject_Z z.
Proof.
  unfold Qred, inject_Z. cbn [Qnum Qden].
  pose proof (Z.ggcd_correct_divisors z 1) as Hd.
  pose proof (Z.ggcd_gcd z 1) as Hg.
  destruct (Z.ggcd z 1) as [g [aa bb]]. cbn [fst snd] in *.
  rewrite Z.gcd_1_r in Hg. subst g. destruct Hd as [Ha Hb].
  rewrite Z.mul_1_l in Ha, Hb. now subst.
Qed.

Lemma numSub_num (a b : Z) : numSub (num a) (num b) = num (a - b).
Proof.
  unfold numSub, numNeg, num.
  change (- inject_Z b)%Q with (inject_Z (- b)).
  rewrite Qred_inject_Z. apply numAdd_num.
Qed.

Lemma byCompletenessDesc_integers (a b : Initiative.t) (za zb : Z) :
  Initiative.completeness a = num za -> Initiative.completeness b = num zb ->
  byCompletenessDesc a b = Z.sgn (zb - za).
Proof.
  intros Ha Hb. unfold byCompletenessDesc. now rewrite Ha, Hb, numSub_num.
Qed.

(** X30. The progress panel lists the same initiatives, the most complete first:
    each one is at least as complete as the next, when the completeness
    values are integers. *)
Theorem progressOrder_descending (initiatives : list Initiative.t) :
  Forall integerCompleteness initiatives ->
  Permutation initiatives (progressOrder initiatives) /\
  adjacentIn atLeastAsComplete (progressOrder initiatives).
Proof.
  intros Hint. split; [apply sort_Permutation|].
  assert (Hs : Sorted (notAfter byCompletenessDesc) (progressOrder initiatives)).
  { apply (sort_Sorted_on byCompletenessDesc integerCompleteness); [|exact Hint].
    intros x y [zx Hx] [zy Hy].
    rewrite (byCompletenessDesc_integers x y zx zy Hx Hy).
    rewrite (byCompletenessDesc_integers y x zy zx Hy Hx). lia. }
  intros l1 a b l2 E.
  pose proof (Sorted_adjacentIn _ _ Hs l1 a b l2 E) as Hab.
  assert (Ha : In a (progressOrder initiatives))
    by (rewrite E; apply in_or_app; right; now left).
  assert (Hb : In b (progressOrder initiatives))
    by (rewrite E; apply in_or_app; right; right; now left).
  unfold progressOrder in Ha, Hb. apply sort_In in Ha, Hb.
  rewrite Forall_forall in Hint.
  destruct (Hint a Ha) as [za Hza]. destruct (Hint b Hb) as [zb Hzb].
  exists za, zb. repeat split; trivial.
  unfold notAfter in Hab.
  rewrite (byCompletenessDesc_integers a b za zb Hza Hzb) in Hab. lia.
Qed.

Lemma progressOrder_descending_witness :
  progressOrder [fooInitiative; puppetInitiative; fooBangInitiative] =
    [fooBangInitiative; fooInitiative; puppetInitiative] /\
  adjacentIn atLeastAsComplete
    (progressOrder [fooInitiative; puppetInitiative; fooBangInitiative]).
Proof.
  split; [reflexivity|].
  apply (progressOrder_descending
           [fooInitiative; puppetInitiative; fooBangInitiative]).
  repeat constructor.
  - now exists 50%Z.
  - now exists 42%Z.
  - now exists 75%Z.
Defined.

(** * More on the values and the lists *)

(** X4. A value that does not begin with an opening bracket, or does not end
    with a closing parenthesis, or has no closing bracket in it, is returned
    as it is. *)
Theorem stripMarkdownLinks_unchanged (value : str) :
  startsWith value (js "[") = false \/
  (forall t, value <> t ++ js ")") \/
  ~ In 93 value ->
  stripMarkdownLinks value = value.
Proof.
  intros H.
  destruct (stripMarkdownLinks_cases value)
    as [E|(inner & target & Hv & _)]; [exact E|].
  exfalso. destruct H as [H|[H|H]].
  - rewrite Hv, startsWith_app in H. discriminate H.
  - apply (H (js "[" ++ inner ++ js "](" ++ target)).
    rewrite Hv. now rewrite <- !app_assoc.
  - apply H. rewrite Hv. simpl. right. apply in_closeBracket.
Qed.

Lemma stripMarkdownLinks_unchanged_witness :
  stripMarkdownLinks (js "https://puppet.inquiry.institute") =
  js "https://puppet.inquiry.institute".
Proof.
  apply stripMarkdownLinks_unchanged. left. reflexivity.
Defined.

(** X16. The two lists of an initiative are cut, not sampled. With
    [completed] the issues whose state type is completed and [opened] those
    whose state type is started or unstarted, [features] has as many titles
    as [completed] has issues, up to ten, and [next_milestones] as many as
    [opened] has, up to five; with at most ten completed issues the title
    of every one of them is listed, and with at most five started or
    unstarted ones the same holds of them. *)
Theorem lists_lengths (host : Host) (project : LinearProjectNode.t)
    (completed opened : list Issue.t) :
  selects completedType (LinearProjectNode.issues project) completed ->
  selects openType (LinearProjectNode.issues project) opened ->
  length (Initiative.features (projectToInitiative project)) =
    Nat.min 10 (length completed) /\
  length (Initiative.next_milestones (projectToInitiative project)) =
    Nat.min 5 (length opened) /\
  ((length completed <= 10)%nat ->
   Initiative.features (projectToInitiative project) =
   map Issue.title completed) /\
  ((length opened <= 5)%nat ->
   Initiative.next_milestones (projectToInitiative project) =
   map Issue.title opened).
Proof.
  intros Sc So.
  destruct (lists_of_project host project) as (Hf & Hm & _ & _).
  cbv zeta in Hf, Hm.
  rewrite (selects_unique _ _ _ Sc _ (completed_selected _)) in Hf.
  rewrite (selects_unique _ _ _ So _ (open_selected _)) in Hm.
  rewrite Hf, Hm, !length_map, !length_firstn.
  repeat split; intros Hle; now rewrite firstn_all2.
Qed.

Lemma lists_lengths_witness :
  Initiative.features puppetInitiative = [js "a"; js "b"] /\
  Initiative.next_milestones puppetInitiative = [js "c"; js "d"].
Proof.
  destruct (lists_lengths asciiHost puppetNode
              [sampleIssue "a" "completed"; sampleIssue "b" "completed"]
              [sampleIssue "c" "started"; sampleIssue "d" "unstarted"])
    as (_ & _ & Hf & Hm).
  - repeat (first [ apply selects_nil
                  | apply selects_keep; [reflexivity|]
                  | apply selects_drop; [discriminate|] ]).
  - repeat (first [ apply selects_nil
                  | apply selects_keep; [first [now left | now right]|]
                  | apply selects_drop; [intros [H|H]; discriminate H|] ]).
  - split; [apply Hf | apply Hm]; simpl; lia.
Defined.

(** X20. A lookup by slug finds something only for a string that is a slug:
    made of a-z, 0-9 and hyphens, with no hyphen at either end and no two
    hyphens in a row. A string with a capital letter or a space finds
    nothing. *)
Theorem getInitiativeBySlug_only_slugs (host : Host) (w : World) (s : str)
    (i : Initiative.t) :
  getInitiativeBySlug w s = Fulfilled (Some i) ->
  slugAlphabet s /\
  (forall t, s <> js "-" ++ t) /\
  (forall t, s <> t ++ js "-") /\
  (forall a b, s <> a ++ js "--" ++ b).
Proof.
  unfold getInitiativeBySlug, getAllInitiatives.
  destruct (gql w) as [e|[nodes|]]; cbn [bind]; try discriminate.
  intros H. injection H as H. apply find_some in H as [Hin Hs].
  apply slugIs_true in Hs. subst s.
  apply initiativesOf_from_project in Hin as [p ->].
  rewrite slug_of_project, slugOf_written_out.
  destruct (written_out_safe (toLowerCase (LinearProjectNode.name p)))
    as (Ha & Hh & Hl & Hn).
  split; [exact Ha|]. split; [|split].
  - intros t. apply Hh.
  - intros t. apply Hl.
  - intros a b. apply Hn.
Qed.

Lemma getInitiativeBySlug_only_slugs_witness :
  slugAlphabet (js "foo").
Proof.
  apply (getInitiativeBySlug_only_slugs asciiHost (worldOf [fooBangNode; fooNode])
           (js "foo") fooInitiative).
  reflexivity.
Defined.

Lemma breakdownTotal_length (initiatives : list Initiative.t) (count : nat) :
  (0 < count <= length initiatives)%nat ->
  breakdownTotal initiatives = length initiatives.
Proof.
  unfold breakdownTotal. destruct (length initiatives); [lia | reflexivity].
Qed.

(** X29. The bar of a status is a part of the whole: for a count between 1 and
    the number of initiatives the width is a finite number, above 0 and at
    most 100. *)
Theorem breakdownWidth_percent (initiatives : list Initiative.t) (count : nat) :
  (0 < count <= length initiatives)%nat ->
  exists q,
    breakdownWidth initiatives count = Fin q /\ (0 < q)%Q /\ (q <= 100)%Q.
Proof.
  intros Hc. unfold breakdownWidth.
  rewrite (breakdownTotal_length _ _ Hc).
  destruct (length initiatives) as [|n] eqn:En; [lia|].
  destruct count as [|c]; [lia|].
  change (Z.of_nat (S n)) with (Z.pos (Pos.of_succ_nat n)).
  change (Z.of_nat (S c)) with (Z.pos (Pos.of_succ_nat c)).
  assert (Ht : (Pos.of_succ_nat c <= Pos.of_succ_nat n)%positive) by lia.
  set (t := Pos.of_succ_nat n) in *. set (k := Pos.of_succ_nat c) in *.
  unfold numDiv, numMul, num. cbn [isZeroQ inject_Z Qnum Z.eqb].
  eexists. split; [reflexivity|].
  rewrite !Qred_correct.
  unfold Qdiv, Qinv, Qmult, Qlt, Qle, inject_Z. cbn [Qnum Qden].
  rewrite ?Pos.mul_1_l, ?Pos.mul_1_r, ?Z.mul_1_r, ?Z.mul_0_l.
  split; lia.
Qed.

Lemma breakdownWidth_percent_witness :
  exists q,
    breakdownWidth [fooInitiative; puppetInitiative; fooBangInitiative] 2 = Fin q /\
    (0 < q)%Q /\ (q <= 100)%Q.
Proof.
  apply (breakdownWidth_percent
           [fooInitiative; puppetInitiative; fooBangInitiative] 2).
  simpl. lia.
Defined.

(** * From the meta block to the lookup *)

Lemma setField_page_path (meta : ProjectMeta.t) (key value : str) :
  ProjectMeta.page_path (setField meta key value) =
  if str_eqb key (js "page_path") then Some value
  else ProjectMeta.page_path meta.
Proof.
  destruct meta as [u c os ot sd pp]. unfold setField.
  case_key key; reflexivity.
Qed.

Lemma parseLine_page_path (meta : ProjectMeta.t) (line : str) :
  ProjectMeta.page_path (parseLine meta line) =
  match pagePathLine line with
  | Some v => Some v
  | None => ProjectMeta.page_path meta
  end.
Proof.
  unfold parseLine, pagePathLine.
  destruct (exec lineRe line) as [m|]; [|reflexivity].
  rewrite setField_page_path. now destruct (str_eqb (group 1 m) (js "page_path")).
Qed.

Lemma fold_parseLine_no_page_path (lines : list str) :
  Forall (fun l => pagePathLine l = None) lines ->
  forall meta,
    ProjectMeta.page_path (fold_left parseLine lines meta) =
    ProjectMeta.page_path meta.
Proof.
  induction 1 as [|line lines Hl _ IH]; intros meta; simpl; [reflexivity|].
  now rewrite IH, parseLine_page_path, Hl.
Qed.

Lemma page_path_of_project (host : Host) (project : LinearProjectNode.t) :
  Initiative.page_path (projectToInitiative project) =
  orNull (ProjectMeta.page_path
            (fst (parseMeta (LinearProjectNode.content project)))).
Proof. now initiative_field. Qed.

Lemma pagePathLine_well_formed (ws1 ws2 ws3 ws4 value : str) :
  Forall (fun c => isSpace c = true) ws1 ->
  Forall (fun c => isSpace c = true) ws2 ->
  Forall (fun c => isSpace c = true) ws3 ->
  Forall (fun c => isSpace c = true) ws4 ->
  bare value -> Forall (fun c => isDot c = true) value -> ~ In 93 value ->
  pagePathLine (ws1 ++ js "page_path" ++ ws2 ++ js ":" ++ ws3 ++ value ++ ws4) =
  Some value.
Proof.
  intros H1 H2 H3 H4 Hb Hd Hno.
  destruct (exec_lineRe_key_value ws1 (js "page_path") ws2 ws3 value ws4)
    as (m & E & Hg1 & Hg2); trivial; [discriminate | repeat constructor |].
  unfold pagePathLine. rewrite E, Hg1, Hg2. cbn [str_eqb].
  change (str_eqb (js "page_path") (js "page_path")) with true. cbv iota.
  now rewrite trim_bare, stripMarkdownLinks_no_bracket.
Qed.

(** X17. What the meta block says is what the lookup finds. When the last
    [page_path] line of the meta block of a fetched, not canceled project is
    well formed and gives a path that starts with a slash, the initiative has
    that path, and a lookup by that path, with or without the slash, finds
    an initiative with it. *)
Theorem page_path_round_trip (host : Host) (w : World)
    (nodes : list LinearProjectNode.t) (project : LinearProjectNode.t)
    (before after : list str) (ws1 ws2 ws3 ws4 q : str) :
  gql w = Fulfilled (Some nodes) -> In project nodes -> notCanceled project = true ->
  metaLines (LinearProjectNode.content project) =
    before ++
    (ws1 ++ js "page_path" ++ ws2 ++ js ":" ++ ws3 ++ (js "/" ++ q) ++ ws4) :: after ->
  Forall (fun c => isSpace c = true) ws1 ->
  Forall (fun c => isSpace c = true) ws2 ->
  Forall (fun c => isSpace c = true) ws3 ->
  Forall (fun c => isSpace c = true) ws4 ->
  bare (js "/" ++ q) -> Forall (fun c => isDot c = true) q -> ~ In 93 q ->
  Forall (fun l => pagePathLine l = None) after ->
  Initiative.page_path (projectToInitiative project) = Some (js "/" ++ q) /\
  (exists i,
      getInitiativeByPagePath w (js "/" ++ q) = Fulfilled (Some i) /\
      Initiative.page_path i = Some (js "/" ++ q)) /\
  (startsWith q (js "/") = false ->
   getInitiativeByPagePath w q = getInitiativeByPagePath w (js "/" ++ q)).
Proof.
  intros Hg Hin Hnc Hlines H1 H2 H3 H4 Hb Hd Hno Hafter.
  assert (Hline : pagePathLine
            (ws1 ++ js "page_path" ++ ws2 ++ js ":" ++ ws3 ++ (js "/" ++ q) ++ ws4) =
          Some (js "/" ++ q)).
  { apply pagePathLine_well_formed; trivial.
    - constructor; [reflexivity | exact Hd].
    - intros [E|E]; [discriminate E | now apply Hno]. }
  assert (Hpp : Initiative.page_path (projectToInitiative project) =
                Some (js "/" ++ q)).
  { rewrite page_path_of_project, parseMeta_lines, Hlines, fold_left_app.
    cbn [fold_left].
    now rewrite fold_parseLine_no_page_path, parseLine_page_path, Hline. }
  split; [exact Hpp|]. split.
  - unfold getInitiativeByPagePath, getAllInitiatives. rewrite Hg. cbn [bind].
    change (normalizePath (js "/" ++ q)) with (js "/" ++ q).
    destruct (find_exists (fun i => optIs (Initiative.page_path i) (js "/" ++ q))
                (initiativesOf nodes) (projectToInitiative project))
      as (i & Hi & Hpi).
    + now apply initiativesOf_In.
    + now apply optIs_true.
    + exists i. rewrite Hi. split; [reflexivity|]. now apply optIs_true.
  - intros Hq. unfold getInitiativeByPagePath, normalizePath. rewrite Hq.
    change (startsWith (js "/" ++ q) (js "/")) with true. reflexivity.
Qed.

Lemma page_path_round_trip_witness :
  Initiative.page_path puppetInitiative = Some (js "/puppet") /\
  (exists i,
      @getInitiativeByPagePath asciiHost (worldOf [fooNode; puppetNode])
        (js "/puppet") = Fulfilled (Some i) /\
      Initiative.page_path i = Some (js "/puppet")) /\
  (startsWith (js "puppet") (js "/") = false ->
   @getInitiativeByPagePath asciiHost (worldOf [fooNode; puppetNode]) (js "puppet") =
   @getInitiativeByPagePath asciiHost (worldOf [fooNode; puppetNode]) (js "/puppet")).
Proof.
  apply (page_path_round_trip asciiHost (worldOf [fooNode; puppetNode])
           [fooNode; puppetNode] puppetNode
           [js "url: https://puppet.inquiry.institute"; js "cost_estimate: 5000"]
           [[]] [] [] (js " ") [] (js "puppet")).
  - reflexivity.
  - right. left. reflexivity.
  - reflexivity.
  - reflexivity.
  - constructor.
  - constructor.
  - repeat constructor.
  - constructor.
  - split; [discriminate|]. split.
    + intros t c E. injection E as <- _. reflexivity.
    + intros t c E.
      assert (H : last (js "/" ++ js "puppet") 0 = last (t ++ [c]) 0) by now rewrite E.
      rewrite last_last in H. now subst c.
  - repeat constructor.
  - intros H. cbn in H. repeat (destruct H as [H|H]; [discriminate H|]). exact H.
  - repeat constructor.
Defined.
